(** * A wildcard event emitter and its rate limiters

    A model of [data/samples/event_emitter.js]: the class [EventEmitter]
    (methods [on], [once], [off], [emit], [_matches], [listenerCount]) and
    the two closure factories [debounce] and [throttle].

    The emitter is embedded as functions over an explicit [World] holding
    the fields of the instance, the console and the allocation counter for
    closures.  Methods that can raise return a [Completion].  User
    callbacks are given by a small command tree ([Cmd]) so that a
    callback can call back into the emitter. *)

From Stdlib Require Import String Ascii List Bool Arith ZArith Lia.
From Stdlib Require Import Sorted Permutation.
Import ListNotations.

Open Scope string_scope.
Open Scope list_scope.

(* ================================================================== *)
(** * Definitions *)
(* ================================================================== *)

(** ** Strings: [String.prototype.split] with a one-character separator *)

Module Str.

(** [s.split(sep)] for a single character [sep]: always at least one
    segment, empty segments are kept. *)
Fixpoint split (sep : ascii) (s : string) : list string :=
  match s with
  | EmptyString => [EmptyString]
  | String c rest =>
      if Ascii.eqb c sep then EmptyString :: split sep rest
      else match split sep rest with
           | [] => [String c EmptyString]
           | seg :: segs => String c seg :: segs
           end
  end.

Definition dot : ascii := "."%char.

End Str.

(** ** PatternMatcher: [_matches] *)

Module Matcher.

(** [a !== b] where [a] is a string and [b] is an array read, which is
    [undefined] ([None]) out of range. *)
Definition strict_neq (a : string) (b : option string) : bool :=
  match b with
  | Some e => negb (String.eqb a e)
  | None => true
  end.

(** The [for (let i = 0; i < patternParts.length; i++)] loop, started
    at index [i] with [steps] iterations left; when the loop condition
    fails the function goes on to the final [return]. *)
Fixpoint for_loop (patternParts eventParts : list string)
         (steps i : nat) : bool :=
  match steps with
  | 0 => Nat.eqb (length patternParts) (length eventParts)
  | S steps' =>
      match nth_error patternParts i with
      | None => Nat.eqb (length patternParts) (length eventParts)
      | Some p =>
          if String.eqb p "**" then true
          else if String.eqb p "*" then
                 for_loop patternParts eventParts steps' (S i)
          else if strict_neq p (nth_error eventParts i) then false
          else for_loop patternParts eventParts steps' (S i)
      end
  end.

Definition _matches (pattern event : string) : bool :=
  if String.eqb pattern event || String.eqb pattern "*" then true
  else
    let patternParts := Str.split Str.dot pattern in
    let eventParts := Str.split Str.dot event in
    for_loop patternParts eventParts (length patternParts) 0.

(** *** The segment walk as section 4.1 of the specification words it *)

(** Outcome of walking the pattern segments: a decision, or the end of
    the pattern reached without one. *)
Inductive Walk := Accept | Reject | Exhausted.

(** Step 3: segment [i] of the pattern against segment [i] of the
    event.  [ps] is what is left of the pattern from index [i] on. *)
Fixpoint walk_spec (ps : list string) (event_segments : list string)
         (i : nat) : Walk :=
  match ps with
  | [] => Exhausted
  | seg :: rest =>
      if String.eqb seg "**" then Accept
      else if String.eqb seg "*" then walk_spec rest event_segments (S i)
      else match nth_error event_segments i with
           | None => Reject
           | Some e =>
               if String.eqb seg e
               then walk_spec rest event_segments (S i)
               else Reject
           end
  end.

(** Step 4 settles a walk that used up the pattern. *)
Definition verdict (ps es : list string) (r : Walk) : bool :=
  match r with
  | Accept => true
  | Reject => false
  | Exhausted => Nat.eqb (length ps) (length es)
  end.

Definition matches_spec (pattern event : string) : bool :=
  if String.eqb pattern event then true
  else if String.eqb pattern "*" then true
  else
    let ps := Str.split Str.dot pattern in
    let es := Str.split Str.dot event in
    verdict ps es (walk_spec ps es 0).

End Matcher.

(** ** Values, errors and completions *)

(** The JavaScript values a listener slot can hold.  [VData] stands for
    any value that is neither nullish nor callable (a number, a string, a
    boolean, a plain object), told apart by [tag]; [truthy] is its
    truthiness.  [VOnce] is the closure [wrapper] allocated by [once]: it
    captures [event] and [callback], and carries [_original]. *)
Inductive Value : Type :=
| VUndefined
| VData (truthy : bool) (tag : nat)
| VFun (id : nat)
| VOnce (id : nat) (event : string) (original : Value).

Inductive Error : Type :=
| TypeError
| UserError (code : nat).

Inductive Completion (A : Type) : Type :=
| Normal (a : A)
| Throw (e : Error).
Arguments Normal {A} a.
Arguments Throw {A} e.

(** [a === b] *)
Fixpoint strict_eq (a b : Value) : bool :=
  match a, b with
  | VUndefined, VUndefined => true
  | VData t n, VData t' n' => Bool.eqb t t' && Nat.eqb n n'
  | VFun i, VFun j => Nat.eqb i j
  | VOnce i e o, VOnce j e' o' =>
      Nat.eqb i j && String.eqb e e' && strict_eq o o'
  | _, _ => false
  end.

(** [!!v] *)
Definition truthy_value (v : Value) : bool :=
  match v with
  | VUndefined => false
  | VData t _ => t
  | VFun _ | VOnce _ _ _ => true
  end.

(** [fn._original]: a [TypeError] on [undefined], [undefined] where the
    property was never set. *)
Definition get_original (fn : Value) : Completion Value :=
  match fn with
  | VUndefined => Throw TypeError
  | VData _ _ | VFun _ => Normal VUndefined
  | VOnce _ _ o => Normal o
  end.

(** ** The insertion-ordered [Map] of the registry *)

Module JsMap.

(** The entry list of a [Map].  [delete] empties a slot and keeps its
    place, so that a running iterator, which holds an index, neither
    skips nor repeats an entry; [set] of a new key appends. *)
Definition Slot (V : Type) : Type := option (string * V).
Definition t (V : Type) : Type := list (Slot V).

Definition holds {V} (k : string) (s : Slot V) : bool :=
  match s with
  | Some (k', _) => String.eqb k k'
  | None => false
  end.

Fixpoint get {V} (k : string) (m : t V) : option V :=
  match m with
  | [] => None
  | Some (k', v) :: m' => if String.eqb k k' then Some v else get k m'
  | None :: m' => get k m'
  end.

Definition has {V} (k : string) (m : t V) : bool :=
  match get k m with Some _ => true | None => false end.

Fixpoint set {V} (k : string) (v : V) (m : t V) : t V :=
  match m with
  | [] => [Some (k, v)]
  | s :: m' =>
      if holds k s then Some (k, v) :: m' else s :: set k v m'
  end.

Fixpoint delete {V} (k : string) (m : t V) : t V :=
  match m with
  | [] => []
  | s :: m' => if holds k s then None :: m' else s :: delete k m'
  end.

(** [[...m.values()]] *)
Fixpoint values {V} (m : t V) : list V :=
  match m with
  | [] => []
  | Some (_, v) :: m' => v :: values m'
  | None :: m' => values m'
  end.

(** [[...m]]: the entries an observer sees. *)
Fixpoint entries {V} (m : t V) : list (string * V) :=
  match m with
  | [] => []
  | Some e :: m' => e :: entries m'
  | None :: m' => entries m'
  end.

Definition keys {V} (m : t V) : list string := map fst (entries m).

(** A key occupies at most one slot. *)
Definition wf {V} (m : t V) : Prop := NoDup (keys m).

End JsMap.

(** ** The emitter instance and its surroundings *)

(** What reaches the console. *)
Inductive Diag : Type :=
| Warn (event : string) (len max : nat)
| ErrorReport (event : string) (err : Error).

(** Ghost record of calls: [Dispatched] at the call site
    [listener(...args)] of [emit], [Entered] when the body of a user
    function starts. *)
Inductive TraceEvent : Type :=
| Dispatched (event : string) (listener : Value)
| Entered (id : nat) (args : list Value).

Record World : Type := mkWorld {
  listeners : JsMap.t (list Value);   (* this.listeners *)
  maxListeners : nat;                 (* this.maxListeners *)
  console : list Diag;                (* oldest first *)
  trace : list TraceEvent;            (* oldest first *)
  nextId : nat                        (* next closure identity *)
}.

(** [new EventEmitter()] *)
Definition constructor : World :=
  {| listeners := []; maxListeners := 10; console := [];
     trace := []; nextId := 0 |}.

Definition set_listeners (m : JsMap.t (list Value)) (w : World) : World :=
  {| listeners := m; maxListeners := maxListeners w; console := console w;
     trace := trace w; nextId := nextId w |}.

Definition log (d : Diag) (w : World) : World :=
  {| listeners := listeners w; maxListeners := maxListeners w;
     console := console w ++ [d]; trace := trace w; nextId := nextId w |}.

Definition record (e : TraceEvent) (w : World) : World :=
  {| listeners := listeners w; maxListeners := maxListeners w;
     console := console w; trace := trace w ++ [e]; nextId := nextId w |}.

Definition fresh (w : World) : World :=
  {| listeners := listeners w; maxListeners := maxListeners w;
     console := console w; trace := trace w; nextId := S (nextId w) |}.

(** The closure [() => this.off(event, callback)] returned by [on]. *)
Record Token : Type := mkToken {
  tok_event : string;
  tok_callback : Value
}.

(** ** ListenerRegistry: [on], [once], [off], [listenerCount] *)

Definition on (event : string) (callback : Value) (w : World)
  : World * Completion Token :=
  let w1 :=
    if JsMap.has event (listeners w) then w
    else set_listeners (JsMap.set event [] (listeners w)) w in
  match JsMap.get event (listeners w1) with
  | None => (w1, Throw TypeError)
  | Some ls =>
      let w2 :=
        if Nat.leb (maxListeners w1) (length ls)
        then log (Warn event (length ls) (maxListeners w1)) w1
        else w1 in
      (set_listeners (JsMap.set event (ls ++ [callback]) (listeners w2)) w2,
       Normal (mkToken event callback))
  end.

Definition once (event : string) (callback : Value) (w : World)
  : World * Completion Token :=
  let wrapper := VOnce (nextId w) event callback in
  on event wrapper (fresh w).

(** [listeners.findIndex((fn) => fn === callback || fn._original === callback)],
    [None] for [-1]. *)
Fixpoint findIndex (callback : Value) (ls : list Value) (i : nat)
  : Completion (option nat) :=
  match ls with
  | [] => Normal None
  | fn :: rest =>
      if strict_eq fn callback then Normal (Some i)
      else match get_original fn with
           | Throw e => Throw e
           | Normal o =>
               if strict_eq o callback then Normal (Some i)
               else findIndex callback rest (S i)
           end
  end.

(** [listeners.splice(idx, 1)] *)
Fixpoint splice1 (idx : nat) (ls : list Value) : list Value :=
  match ls, idx with
  | [], _ => []
  | _ :: rest, 0 => rest
  | x :: rest, S i => x :: splice1 i rest
  end.

Definition off (event : string) (callback : Value) (w : World)
  : World * Completion unit :=
  if negb (truthy_value callback)
  then (set_listeners (JsMap.delete event (listeners w)) w, Normal tt)
  else
    match JsMap.get event (listeners w) with
    | None => (w, Normal tt)
    | Some ls =>
        match findIndex callback ls 0 with
        | Throw e => (w, Throw e)
        | Normal idx =>
            let ls' :=
              match idx with Some i => splice1 i ls | None => ls end in
            let m1 := JsMap.set event ls' (listeners w) in
            if Nat.eqb (length ls') 0
            then (set_listeners (JsMap.delete event m1) w, Normal tt)
            else (set_listeners m1 w, Normal tt)
        end
    end.

(** Calling the unsubscribe closure. *)
Definition invoke_token (t : Token) (w : World) : World * Completion unit :=
  off (tok_event t) (tok_callback t) w.

(** [if (event)] on an optional string argument. *)
Definition truthy_string (event : option string) : bool :=
  match event with
  | Some (String _ _) => true
  | Some EmptyString | None => false
  end.

(** [(this.listeners.get(event) || [])] *)
Definition listeners_of (event : string) (w : World) : list Value :=
  match JsMap.get event (listeners w) with
  | Some ls => ls
  | None => []
  end.

(** [for (const listeners of this.listeners.values()) count += listeners.length] *)
Definition count_all (w : World) : nat :=
  fold_left (fun count ls => count + length ls)
            (JsMap.values (listeners w)) 0.

Definition listenerCount (event : option string) (w : World) : nat :=
  if truthy_string event then
    match event with
    | Some e => length (listeners_of e w)
    | None => 0
    end
  else count_all w.

(** *** Vocabulary for the statements about the registry *)

(** The test of [findIndex] in [off], where it can be evaluated. *)
Definition refers (callback fn : Value) : bool :=
  strict_eq fn callback ||
  match get_original fn with
  | Normal o => strict_eq o callback
  | Throw _ => false
  end.

Definition occurrences (callback : Value) (ls : list Value) : nat :=
  length (filter (refers callback) ls).

(** Every closure identity inside [v] was allocated before [n]. *)
Fixpoint ids_below (n : nat) (v : Value) : Prop :=
  match v with
  | VOnce i _ o => i < n /\ ids_below n o
  | _ => True
  end.

(** The registry holds no closure that [once] has yet to allocate. *)
Definition fresh_ids (w : World) : Prop :=
  forall ls v, In ls (JsMap.values (listeners w)) -> In v ls ->
               ids_below (nextId w) v.

Definition callable (v : Value) : bool :=
  match v with
  | VFun _ | VOnce _ _ _ => true
  | VUndefined | VData _ _ => false
  end.

(** ** User callbacks *)

(** The body of a user function, as far as the emitter can observe it:
    it returns, throws, or calls a method of the emitter and goes on
    with the answer. *)
Inductive Cmd : Type :=
| Ret
| Raise (code : nat)
| CallOn (event : string) (callback : Value) (k : Token -> Cmd)
| CallOnce (event : string) (callback : Value) (k : Token -> Cmd)
| CallOff (event : string) (callback : Value) (k : Cmd)
| CallEmit (event : string) (args : list Value) (k : bool -> Cmd)
| CallCount (event : option string) (k : nat -> Cmd).

(** The code of every user function: [code id args] is what [VFun id]
    does when called with [args]. *)
Definition Code : Type := nat -> list Value -> Cmd.

(** A computation that may not have finished within its budget. *)
Definition Step (A : Type) : Type := option (World * Completion A).

(** How calling a value with arguments behaves. *)
Definition Caller : Type := Value -> list Value -> World -> Step unit.

(** ** Dispatcher: [emit] *)

Section Dispatch.

Variable call : Caller.
Variable event : string.
Variable args : list Value.

(** [for (const listener of [...listeners]) { try {...} catch {...} }]
    over the snapshot [snapshot]. *)
Fixpoint dispatch (snapshot : list Value) (called : bool) (w : World)
  : option (World * bool) :=
  match snapshot with
  | [] => Some (w, called)
  | listener :: rest =>
      match call listener args (record (Dispatched event listener) w) with
      | None => None
      | Some (w', Normal _) => dispatch rest true w'
      | Some (w', Throw err) =>
          dispatch rest called (log (ErrorReport event err) w')
      end
  end.

(** [for (const [pattern, listeners] of this.listeners)]: the iterator
    stands at slot [i] of the live entry list; [budget] bounds the
    number of slots visited. *)
Fixpoint emit_loop (budget i : nat) (called : bool) (w : World)
  : Step bool :=
  match budget with
  | 0 => None
  | S budget' =>
      match nth_error (listeners w) i with
      | None => Some (w, Normal called)
      | Some None => emit_loop budget' (S i) called w
      | Some (Some (pattern, ls)) =>
          if Matcher._matches pattern event then
            match dispatch ls called w with
            | None => None
            | Some (w', called') => emit_loop budget' (S i) called' w'
            end
          else emit_loop budget' (S i) called w
      end
  end.

Definition emit_with (budget : nat) (w : World) : Step bool :=
  emit_loop budget 0 false w.

End Dispatch.

(** ** Running user code against the emitter *)

Section Run.

Variable emit_fn : string -> list Value -> World -> Step bool.

Fixpoint run (c : Cmd) (w : World) : Step unit :=
  match c with
  | Ret => Some (w, Normal tt)
  | Raise n => Some (w, Throw (UserError n))
  | CallOn ev cb k =>
      match on ev cb w with
      | (w', Normal tok) => run (k tok) w'
      | (w', Throw e) => Some (w', Throw e)
      end
  | CallOnce ev cb k =>
      match once ev cb w with
      | (w', Normal tok) => run (k tok) w'
      | (w', Throw e) => Some (w', Throw e)
      end
  | CallOff ev cb k =>
      match off ev cb w with
      | (w', Normal _) => run k w'
      | (w', Throw e) => Some (w', Throw e)
      end
  | CallEmit ev a k =>
      match emit_fn ev a w with
      | None => None
      | Some (w', Normal b) => run (k b) w'
      | Some (w', Throw e) => Some (w', Throw e)
      end
  | CallCount ev k => run (k (listenerCount ev w)) w
  end.

End Run.

Section Semantics.

Variable code : Code.

(** [f(...args)].  [fuel] bounds the nesting of calls and, inside each
    [emit], the number of registry slots visited. *)
Fixpoint call (fuel : nat) (f : Value) (args : list Value) (w : World)
  : Step unit :=
  match fuel with
  | 0 => None
  | S n =>
      match f with
      | VUndefined | VData _ _ => Some (w, Throw TypeError)
      | VFun id =>
          run (fun ev a => emit_with (call n) ev a n)
              (code id args) (record (Entered id args) w)
      | VOnce _ ev callback =>
          (* this.off(event, wrapper); callback(...args); *)
          match off ev f w with
          | (w', Throw e) => Some (w', Throw e)
          | (w', Normal _) => call n callback args w'
          end
      end
  end.

Definition emit (fuel : nat) (event : string) (args : list Value)
           (w : World) : Step bool :=
  emit_with (call fuel) event args fuel w.

End Semantics.

(** How often the body of user function [id] was entered. *)
Fixpoint entered (id : nat) (t : list TraceEvent) : nat :=
  match t with
  | [] => 0
  | Entered j _ :: t' => (if Nat.eqb id j then 1 else 0) + entered id t'
  | Dispatched _ _ :: t' => entered id t'
  end.

(** The listeners that reached the call site of [emit event], in order. *)
Fixpoint dispatched (event : string) (t : list TraceEvent) : list Value :=
  match t with
  | [] => []
  | Dispatched e l :: t' =>
      if String.eqb e event then l :: dispatched event t'
      else dispatched event t'
  | Entered _ _ :: t' => dispatched event t'
  end.

(** ** RateLimiters: [debounce] and [throttle] *)

(** The host's one-shot timers, as far as one wrapper uses them: the
    queue holds the timeouts the wrapper has created and that have
    neither fired nor been cleared.  Times are milliseconds, as
    [Date.now()] counts them. *)
Module Host.

Record Timer : Type := mkTimer {
  handle : nat;
  due : Z;
  payload : list Value        (* the [args] the scheduled closure captured *)
}.

Record t : Type := mkHost {
  clock : Z;                  (* Date.now() *)
  queue : list Timer;
  next_handle : nat
}.

Definition start (now : Z) : t :=
  {| clock := now; queue := []; next_handle := 1 |}.

(** The delays that timers take as they are given.  Outside this range
    the platform substitutes a short delay of its own (Node: 1 ms for a
    delay below 1 or above 2^31-1). *)
Definition honoured (delay : Z) : Prop := (1 <= delay <= 2147483647)%Z.

(** [setTimeout(closure, delay)] for a delay within that range, where
    the timeout is due [delay] ms from now.  For the other delays the
    due time below is what the caller asked for (a negative delay
    counting as zero), not what a platform then does: statements about
    the moment a timer fires keep to [honoured] delays or say that they
    take timers to fire when due. *)
Definition setTimeout (args : list Value) (delay : Z) (h : t) : nat * t :=
  (next_handle h,
   {| clock := clock h;
      queue := queue h ++ [mkTimer (next_handle h)
                                   (clock h + Z.max 0 delay) args];
      next_handle := S (next_handle h) |}).

(** [clearTimeout(timer)]: [null] and handles of timers that are gone
    are ignored. *)
Definition clearTimeout (timer : option nat) (h : t) : t :=
  match timer with
  | None => h
  | Some id =>
      {| clock := clock h;
         queue := filter (fun tm => negb (Nat.eqb (handle tm) id)) (queue h);
         next_handle := next_handle h |}
  end.

(** The event loop takes timer [id] off the queue, at time [now]. *)
Definition take (id : nat) (now : Z) (h : t) : t :=
  {| clock := now;
     queue := filter (fun tm => negb (Nat.eqb (handle tm) id)) (queue h);
     next_handle := next_handle h |}.

Definition tick (now : Z) (h : t) : t :=
  {| clock := now; queue := queue h; next_handle := next_handle h |}.

End Host.

(** An execution of the wrapped [fn]: when, and with which arguments. *)
Definition FnCall : Type := (Z * list Value)%type.

Module Throttle.

(** The variables the closure returned by [throttle] captures, the
    host and the executions of [fn] so far. *)
Record State : Type := mkState {
  limit : Z;
  lastCall : Z;
  timer : option nat;
  host : Host.t;
  fn_calls : list FnCall
}.

(** [throttle(fn, limit = 100)], created when the clock shows [now]. *)
Definition throttle (limit : option Z) (now : Z) : State :=
  {| limit := match limit with Some l => l | None => 100%Z end;
     lastCall := 0;
     timer := None;
     host := Host.start now;
     fn_calls := [] |}.

(** A call of the wrapper with [args]. *)
Definition invoke (args : list Value) (s : State) : State :=
  let now := Host.clock (host s) in
  let remaining := (limit s - (now - lastCall s))%Z in
  let h := Host.clearTimeout (timer s) (host s) in
  if (remaining <=? 0)%Z then
    {| limit := limit s; lastCall := now; timer := timer s; host := h;
       fn_calls := fn_calls s ++ [(now, args)] |}
  else
    let (id, h') := Host.setTimeout args remaining h in
    {| limit := limit s; lastCall := lastCall s; timer := Some id;
       host := h'; fn_calls := fn_calls s |}.

(** The scheduled closure runs: [lastCall = Date.now(); fn.apply(this, args)]. *)
Definition fire (tm : Host.Timer) (now : Z) (s : State) : State :=
  {| limit := limit s; lastCall := now; timer := timer s;
     host := Host.take (Host.handle tm) now (host s);
     fn_calls := fn_calls s ++ [(now, Host.payload tm)] |}.

(** Time passes until [t] with no call of the wrapper: every pending
    timer that is due by then fires, at the moment it is due. *)
Definition advance (t : Z) (s : State) : State :=
  let s' :=
    fold_left
      (fun acc tm =>
         if (Host.due tm <=? t)%Z then fire tm (Host.due tm) acc else acc)
      (Host.queue (host s)) s in
  {| limit := limit s'; lastCall := lastCall s'; timer := timer s';
     host := Host.tick t (host s'); fn_calls := fn_calls s' |}.

(** The wrapper is called with [args] when the clock shows [t]. *)
Definition invoke_at (t : Z) (args : list Value) (s : State) : State :=
  invoke args (advance t s).

(** The pending timers are the one the closure's [timer] variable
    names, or none. *)
Definition tidy (s : State) : Prop :=
  Host.queue (host s) = [] \/
  exists tm, Host.queue (host s) = [tm] /\ timer s = Some (Host.handle tm).

End Throttle.

Module Debounce.

Record State : Type := mkState {
  delay : Z;
  timer : option nat;
  host : Host.t;
  fn_calls : list FnCall
}.

(** [debounce(fn, delay = 300)] *)
Definition debounce (delay : option Z) (now : Z) : State :=
  {| delay := match delay with Some d => d | None => 300%Z end;
     timer := None;
     host := Host.start now;
     fn_calls := [] |}.

Definition invoke (args : list Value) (s : State) : State :=
  let h := Host.clearTimeout (timer s) (host s) in
  let (id, h') := Host.setTimeout args (delay s) h in
  {| delay := delay s; timer := Some id; host := h';
     fn_calls := fn_calls s |}.

(** The scheduled closure runs: [fn.apply(this, args)]. *)
Definition fire (tm : Host.Timer) (now : Z) (s : State) : State :=
  {| delay := delay s; timer := timer s;
     host := Host.take (Host.handle tm) now (host s);
     fn_calls := fn_calls s ++ [(now, Host.payload tm)] |}.

Definition advance (t : Z) (s : State) : State :=
  let s' :=
    fold_left
      (fun acc tm =>
         if (Host.due tm <=? t)%Z then fire tm (Host.due tm) acc else acc)
      (Host.queue (host s)) s in
  {| delay := delay s'; timer := timer s';
     host := Host.tick t (host s'); fn_calls := fn_calls s' |}.

Definition invoke_at (t : Z) (args : list Value) (s : State) : State :=
  invoke args (advance t s).

End Debounce.

(** ** Vocabulary for the statements about dispatch *)

(** [w'] comes after [w]: trace and console have only been added to. *)
Definition grows (w w' : World) : Prop :=
  (exists t, trace w' = trace w ++ t) /\
  (exists d, console w' = console w ++ d).

(** What one call of a listener left behind: what it recorded, what it
    printed itself, and how it completed. *)
Record Outcome : Type := mkOutcome {
  o_trace : list TraceEvent;
  o_console : list Diag;
  o_result : Completion unit
}.

Definition completed (o : Outcome) : bool :=
  match o_result o with
  | Normal _ => true
  | Throw _ => false
  end.

(** The trace of a pass over [ls] whose calls had the outcomes [outs]. *)
Definition pass_trace (event : string) (ls : list Value)
           (outs : list Outcome) : list TraceEvent :=
  flat_map (fun lo => Dispatched event (fst lo) :: o_trace (snd lo))
           (combine ls outs).

(** The console of such a pass: after what a call printed itself comes
    the report of [emit], if the call threw. *)
Definition pass_console (event : string) (outs : list Outcome) : list Diag :=
  flat_map (fun o =>
              o_console o ++
              match o_result o with
              | Throw e => [ErrorReport event e]
              | Normal _ => []
              end) outs.

(** What the [catch] of [emit] does after a call that ended in [w] with
    outcome [o]: a throw is reported, with the event and the error. *)
Definition reported (event : string) (o : Outcome) (w : World) : World :=
  match o_result o with
  | Throw e => log (ErrorReport event e) w
  | Normal _ => w
  end.

(** A pass over the snapshot [ls] that isolates failures, from [w] to
    [w']: every listener of the snapshot is called, in order, each in
    the world the one before it left behind; [outs] holds, listener by
    listener, how that very call completed and what it recorded and
    printed; a call that threw has been reported before the next
    listener is called. *)
Inductive Pass (call : Caller) (event : string) (args : list Value)
  : list Value -> list Outcome -> World -> World -> Prop :=
| Pass_done w : Pass call event args [] [] w w
| Pass_call l ls o outs w w1 w' :
    call l args (record (Dispatched event l) w) = Some (w1, o_result o) ->
    trace w1 = trace w ++ Dispatched event l :: o_trace o ->
    console w1 = console w ++ o_console o ->
    Pass call event args ls outs (reported event o w1) w' ->
    Pass call event args (l :: ls) (o :: outs) w w'.

(** A walk of [emit] over the slots of the registry from slot [i] on,
    from [w] to [w']: each slot is looked up in the registry as it is
    when the walk reaches it; a slot whose pattern matches gets a pass
    over its list, and the walk goes on to the next slot whatever
    happened during the pass.  [passes] holds the snapshots and the
    outcomes of the passes, in order. *)
Inductive Visits (call : Caller) (event : string) (args : list Value)
  : nat -> World -> list (list Value * list Outcome) -> World -> Prop :=
| Visits_end i w :
    nth_error (listeners w) i = None ->
    Visits call event args i w [] w
| Visits_deleted i w passes w' :
    nth_error (listeners w) i = Some None ->
    Visits call event args (S i) w passes w' ->
    Visits call event args i w passes w'
| Visits_other i w p ls passes w' :
    nth_error (listeners w) i = Some (Some (p, ls)) ->
    Matcher._matches p event = false ->
    Visits call event args (S i) w passes w' ->
    Visits call event args i w passes w'
| Visits_match i w p ls outs w1 passes w' :
    nth_error (listeners w) i = Some (Some (p, ls)) ->
    Matcher._matches p event = true ->
    Pass call event args ls outs w w1 ->
    Visits call event args (S i) w1 passes w' ->
    Visits call event args i w ((ls, outs) :: passes) w'.

(** Trace and console of a walk with the passes [passes]. *)
Definition walk_trace (event : string)
           (passes : list (list Value * list Outcome)) : list TraceEvent :=
  flat_map (fun p => pass_trace event (fst p) (snd p)) passes.

Definition walk_console (event : string)
           (passes : list (list Value * list Outcome)) : list Diag :=
  flat_map (fun p => pass_console event (snd p)) passes.

(** The listeners of every registered pattern that matches [event], in
    the order of the registry. *)
Definition targets (event : string) (m : JsMap.t (list Value)) : list Value :=
  flat_map snd
           (filter (fun e => Matcher._matches (fst e) event) (JsMap.entries m)).

(** A callback that does nothing to the emitter but emit events, each of
    them [quiet], any number of times, before it returns or throws. *)
Inductive OnlyEmits (quiet : string -> Prop) : Cmd -> Prop :=
| OnlyEmits_Ret : OnlyEmits quiet Ret
| OnlyEmits_Raise n : OnlyEmits quiet (Raise n)
| OnlyEmits_Emit e a k :
    quiet e ->
    (forall b, OnlyEmits quiet (k b)) ->
    OnlyEmits quiet (CallEmit e a k).

(** The body of user function [id] returns or throws without calling
    the emitter. *)
Definition returns_or_throws (code : Code) (id : nat) : Prop :=
  forall a, code id a = Ret \/ exists n, code id a = Raise n.

(** A listener that keeps out of the way of a fire-once registration of
    user function [c]: a user function other than [c] whose body returns
    or throws without calling the emitter, the wrapper of a fire-once
    registration of such a function, or a value that is neither a
    function nor [undefined]. *)
Definition bystander (code : Code) (c : nat) (v : Value) : Prop :=
  match v with
  | VFun id => id <> c /\ returns_or_throws code id
  | VOnce _ _ (VFun id) => id <> c /\ returns_or_throws code id
  | VData _ _ => True
  | _ => False
  end.

(** The listeners that an [emit] of [event] reaches are bystanders. *)
Definition bystanders_for (code : Code) (c : nat) (event : string)
           (m : JsMap.t (list Value)) : Prop :=
  forall p ls, In (Some (p, ls)) m -> Matcher._matches p event = true ->
               Forall (bystander code c) ls.

(** The slot of pattern [p] once [off] has taken an entry out of its
    list and [ls] is what remains. *)
Definition remaining_slot (p : string) (ls : list Value)
  : JsMap.Slot (list Value) :=
  match ls with
  | [] => None
  | _ :: _ => Some (p, ls)
  end.

(** The registry [m] reaches, for whatever event, no listener that the
    registry [m0] does not reach. *)
Definition within (m0 m : JsMap.t (list Value)) : Prop :=
  forall e, incl (targets e m) (targets e m0).

(** The registry holds the wrapper [wr] as the last entry of the list of
    pattern [p], whose slot is slot [k] and the first for that pattern;
    without the wrapper it is within [m0]. *)
Definition armed (m0 : JsMap.t (list Value)) (p : string) (wr : Value)
           (k : nat) (m : JsMap.t (list Value)) : Prop :=
  exists pre l post,
    m = pre ++ Some (p, l ++ [wr]) :: post /\
    length pre = k /\
    JsMap.get p pre = None /\
    within m0 (pre ++ remaining_slot p l :: post).

(** No registered pattern matches [event]. *)
Definition unheard (event : string) (m : JsMap.t (list Value)) : Prop :=
  forall p ls, In (Some (p, ls)) m -> Matcher._matches p event = false.

(** ** Vocabulary for the statements about patterns *)

(** A pattern segment and an event segment agree: the pattern segment is
    the one-segment wildcard, or the two are equal. *)
Definition seg_ok (p e : string) : Prop := p = "*" \/ p = e.

(** A segment that is no wildcard. *)
Definition literal (p : string) : Prop := p <> "*" /\ p <> "**".

(** ** Vocabulary for further statements about the registry *)

(** [findIndex] passes over [fn] when it looks for [callback]: reading
    [fn._original] does not throw and neither test succeeds. *)
Definition overlooked (callback fn : Value) : Prop :=
  fn <> VUndefined /\ refers callback fn = false.

(** No pattern is registered with an empty list. *)
Definition no_empty_lists (w : World) : Prop :=
  forall ls, In ls (JsMap.values (listeners w)) -> ls <> [].

(** The listeners of all patterns together. *)
Definition total (m : JsMap.t (list Value)) : nat :=
  list_sum (map (@length Value) (JsMap.values m)).

(** ** Vocabulary for further statements about the rate limiters *)

(** Calls of a wrapper: when, and with which arguments. *)
Definition Calls : Type := list (Z * list Value).

(** The wrapper returned by [throttle] is called as [calls] says, one
    call after the other, time passing in between. *)
Definition throttle_calls (calls : Calls) (s : Throttle.State) : Throttle.State :=
  fold_left (fun acc c => Throttle.invoke_at (fst c) (snd c) acc) calls s.

Definition debounce_calls (calls : Calls) (s : Debounce.State) : Debounce.State :=
  fold_left (fun acc c => Debounce.invoke_at (fst c) (snd c) acc) calls s.

(** Successive instants lie at least [gap] apart. *)
Fixpoint spaced (gap : Z) (ts : list Z) : Prop :=
  match ts with
  | [] => True
  | t1 :: rest =>
      match rest with
      | [] => True
      | t2 :: _ => (gap <= t2 - t1)%Z /\ spaced gap rest
      end
  end.

(** The clock never reads less at a call than at the call before, nor
    less than [last] at the first. *)
Fixpoint in_order (last : Z) (calls : Calls) : Prop :=
  match calls with
  | [] => True
  | c :: rest => (last <= fst c)%Z /\ in_order (fst c) rest
  end.

(** Each call comes before the delay since the one before it is over. *)
Fixpoint rapid (delay : Z) (last : Z) (calls : Calls) : Prop :=
  match calls with
  | [] => True
  | c :: rest => (fst c < last + Z.max 0 delay)%Z /\ rapid delay (fst c) rest
  end.

(** The pending timers of a debounced wrapper are the one its [timer]
    variable names, or none. *)
Definition debounce_tidy (s : Debounce.State) : Prop :=
  Host.queue (Debounce.host s) = [] \/
  exists tm, Host.queue (Debounce.host s) = [tm] /\
             Debounce.timer s = Some (Host.handle tm).

(** An execution at [time] with [args] is the deferred execution of one
    of the [calls]. *)
Definition stems_from (delay : Z) (calls : Calls) (time : Z)
           (args : list Value) : Prop :=
  exists t, In (t, args) calls /\ time = (t + Z.max 0 delay)%Z.

(** What a debounced wrapper has run and what it has pending comes from
    the calls it received. *)
Definition debounce_sound (calls : Calls) (s : Debounce.State) : Prop :=
  debounce_tidy s /\
  (forall t a, In (t, a) (Debounce.fn_calls s) ->
               stems_from (Debounce.delay s) calls t a) /\
  (forall tm, In tm (Host.queue (Debounce.host s)) ->
              stems_from (Debounce.delay s) calls (Host.due tm) (Host.payload tm)).

(** The executions of a throttled wrapper so far lie [limit] apart, the
    last of them at [lastCall], and what is pending is due [limit] after
    it. *)
Definition throttle_paced (s : Throttle.State) : Prop :=
  (Host.queue (Throttle.host s) = [] \/
   exists tm, Host.queue (Throttle.host s) = [tm] /\
              Throttle.timer s = Some (Host.handle tm) /\
              Host.due tm = (Throttle.lastCall s + Throttle.limit s)%Z) /\
  spaced (Throttle.limit s) (map fst (Throttle.fn_calls s)) /\
  (Throttle.fn_calls s = [] \/
   exists pre a, Throttle.fn_calls s = pre ++ [(Throttle.lastCall s, a)]).

(** What a throttled wrapper has run and what it has pending was passed
    to it by one of the [calls], and it has run [fn] no more often than
    it was called. *)
Definition throttle_sound (calls : Calls) (s : Throttle.State) : Prop :=
  Throttle.tidy s /\
  length (Throttle.fn_calls s) + length (Host.queue (Throttle.host s))
  <= length calls /\
  (forall t a, In (t, a) (Throttle.fn_calls s) -> In a (map snd calls)) /\
  (forall tm, In tm (Host.queue (Throttle.host s)) ->
              In (Host.payload tm) (map snd calls)).

(** ** The binary-heap priority queue *)

(** The class [PriorityQueue<T>] of the TypeScript sample.  The array
    [this.heap] is a list; priorities are numbers, taken here among the
    integers, on which [<=] and [<] order them totally.  [NaN], on which
    both comparisons are false, is outside this model, and so is every
    statement below about a queue that holds it.  Reading [.priority]
    off a missing array element throws. *)
Module PQ.

Section Queue.

Variable T : Type.

Record HeapNode : Type := mkNode {
  priority : Z;
  value : T
}.

Definition Heap : Type := list HeapNode.

(** [get size()] and [get isEmpty()] *)
Definition size (h : Heap) : nat := length h.

Definition isEmpty (h : Heap) : bool := Nat.eqb (length h) 0.

(** [this.heap[i]], to read a field of it. *)
Definition read (h : Heap) (i : nat) : Completion HeapNode :=
  match nth_error h i with
  | Some n => Normal n
  | None => Throw TypeError
  end.

(** [this.heap[i] = x] for an index within the array. *)
Fixpoint store (i : nat) (x : HeapNode) (h : Heap) : Heap :=
  match h, i with
  | [], _ => []
  | _ :: rest, 0 => x :: rest
  | y :: rest, S j => y :: store j x rest
  end.

(** [Math.floor((idx - 1) / 2)] *)
Definition parent (idx : nat) : nat := (idx - 1) / 2.

(** [_bubbleUp(idx)]: the [while (idx > 0)] loop, with [steps]
    iterations left; [idx] shrinks with every iteration, so [idx]
    iterations are all the loop can make. *)
Fixpoint _bubbleUp (steps idx : nat) (h : Heap) : Completion Heap :=
  match steps with
  | 0 => Normal h
  | S steps' =>
      if Nat.eqb idx 0 then Normal h
      else
        let parentIdx := parent idx in
        match read h parentIdx with
        | Throw e => Throw e
        | Normal p =>
            match read h idx with
            | Throw e => Throw e
            | Normal c =>
                if (priority p <=? priority c)%Z then Normal h
                else _bubbleUp steps' parentIdx
                               (store idx p (store parentIdx c h))
            end
        end
  end.

Definition enqueue (v : T) (p : Z) (h : Heap) : Completion Heap :=
  let h' := h ++ [mkNode p v] in
  _bubbleUp (length h' - 1) (length h' - 1) h'.

(** One of the two tests of [_sinkDown]:
    [child < length && heap[child].priority < heap[smallest].priority]. *)
Definition smaller (h : Heap) (child smallest : nat) : Completion bool :=
  if Nat.ltb child (length h) then
    match read h child with
    | Throw e => Throw e
    | Normal c =>
        match read h smallest with
        | Throw e => Throw e
        | Normal s => Normal (priority c <? priority s)%Z
        end
    end
  else Normal false.

(** [_sinkDown(idx)]: the [while (true)] loop, with [steps] iterations
    left; [idx] grows with every iteration and the loop ends once it has
    no child within the array. *)
Fixpoint _sinkDown (steps idx : nat) (h : Heap) : Completion Heap :=
  match steps with
  | 0 => Normal h
  | S steps' =>
      let left := 2 * idx + 1 in
      let right := 2 * idx + 2 in
      match smaller h left idx with
      | Throw e => Throw e
      | Normal b1 =>
          let smallest := if b1 then left else idx in
          match smaller h right smallest with
          | Throw e => Throw e
          | Normal b2 =>
              let smallest := if b2 then right else smallest in
              if Nat.eqb smallest idx then Normal h
              else
                (* the tests above have read both elements *)
                match read h smallest, read h idx with
                | Normal s, Normal c =>
                    _sinkDown steps' smallest
                              (store idx s (store smallest c h))
                | Throw e, _ => Throw e
                | _, Throw e => Throw e
                end
          end
      end
  end.

(** [dequeue()]: the value returned ([None] for [undefined]) and the
    heap left. *)
Definition dequeue (h : Heap) : Completion (option T * Heap) :=
  match h with
  | [] => Normal (None, h)
  | top :: _ =>
      let last := List.last h top in
      let h1 := removelast h in
      if Nat.ltb 0 (length h1) then
        match _sinkDown (length h1) 0 (store 0 last h1) with
        | Throw e => Throw e
        | Normal h2 => Normal (Some (value top), h2)
        end
      else Normal (Some (value top), h1)
  end.

(** [peek()] *)
Definition peek (h : Heap) : option T :=
  match h with
  | [] => None
  | top :: _ => Some (value top)
  end.

(** [toSortedArray()]: the [while (!this.isEmpty)] loop, with [steps]
    iterations left; every iteration takes one element off the heap. *)
Fixpoint drain (steps : nat) (h : Heap) (result : list (option T))
  : Completion (list (option T) * Heap) :=
  match steps with
  | 0 => Normal (result, h)
  | S steps' =>
      if isEmpty h then Normal (result, h)
      else
        match dequeue h with
        | Throw e => Throw e
        | Normal (v, h') => drain steps' h' (result ++ [v])
        end
  end.

Definition toSortedArray (h : Heap) : Completion (list (option T) * Heap) :=
  drain (length h) h [].

(** *** Vocabulary *)

(** No element has a lower priority than its parent. *)
Definition heap_ordered (h : Heap) : Prop :=
  forall i n m,
    0 < i -> nth_error h i = Some n -> nth_error h (parent i) = Some m ->
    (priority m <= priority n)%Z.

(** Heap order but for the element at [j], which may be lower than its
    parent; its children are no lower than that parent. *)
Definition ordered_but_up (j : nat) (h : Heap) : Prop :=
  (forall i n m,
      0 < i -> i <> j ->
      nth_error h i = Some n -> nth_error h (parent i) = Some m ->
      (priority m <= priority n)%Z) /\
  (forall c n g,
      0 < j -> 0 < c -> parent c = j ->
      nth_error h c = Some n -> nth_error h (parent j) = Some g ->
      (priority g <= priority n)%Z).

(** Heap order but for the element at [j], which may be higher than its
    children; they are no lower than the parent of [j]. *)
Definition ordered_but_down (j : nat) (h : Heap) : Prop :=
  (forall i n m,
      0 < i -> parent i <> j ->
      nth_error h i = Some n -> nth_error h (parent i) = Some m ->
      (priority m <= priority n)%Z) /\
  (forall c n g,
      0 < j -> 0 < c -> parent c = j ->
      nth_error h c = Some n -> nth_error h (parent j) = Some g ->
      (priority g <= priority n)%Z).

(** The priority found at index [i], for the indices of the array. *)
Definition prio_at (h : Heap) (i : nat) : Z :=
  match nth_error h i with
  | Some n => priority n
  | None => 0%Z
  end.

(** Priorities never fall along the list. *)
Definition by_priority (nodes : list HeapNode) : Prop :=
  StronglySorted (fun a b => (priority a <= priority b)%Z) nodes.

(** [enqueue] of each pair of [items], in order. *)
Fixpoint enqueue_all (items : list (T * Z)) (h : Heap) : Completion Heap :=
  match items with
  | [] => Normal h
  | (v, p) :: rest =>
      match enqueue v p h with
      | Throw e => Throw e
      | Normal h' => enqueue_all rest h'
      end
  end.

End Queue.

Arguments mkNode {T} priority value.
Arguments priority {T} h.
Arguments value {T} h.
Arguments size {T} h.
Arguments isEmpty {T} h.
Arguments read {T} h i.
Arguments store {T} i x h.
Arguments _bubbleUp {T} steps idx h.
Arguments enqueue {T} v p h.
Arguments smaller {T} h child smallest.
Arguments _sinkDown {T} steps idx h.
Arguments dequeue {T} h.
Arguments peek {T} h.
Arguments drain {T} steps h result.
Arguments toSortedArray {T} h.
Arguments heap_ordered {T} h.
Arguments ordered_but_up {T} j h.
Arguments ordered_but_down {T} j h.
Arguments prio_at {T} h i.
Arguments by_priority {T} nodes.
Arguments enqueue_all {T} items h.

End PQ.

(** A small queue of strings, in heap order. *)
Module QueueScenario.

Definition small : PQ.Heap string :=
  [PQ.mkNode 1 "a"; PQ.mkNode 5 "b"; PQ.mkNode 3 "c"].

End QueueScenario.

(** User function 0 unregisters user function 1 from ["x"]. *)
Module DispatchScenario.

Definition unsubscriber : Code :=
  fun id _ =>
    match id with
    | 0 => CallOff "x" (VFun 1) Ret
    | _ => Ret
    end.

End DispatchScenario.

(** ** Scenarios *)

Module Scenario.

(** Nine listeners under ["x"] on a new emitter. *)
Definition nine : World :=
  fold_left (fun w i => fst (on "x" (VFun i) w)) (seq 0 9) constructor.

(** A number passed where a listener is expected. *)
Definition forty_two : Value := VData true 42.

(** One listener under the empty pattern and one under ["x"]. *)
Definition empty_and_x : World :=
  fst (on "x" (VFun 1) (fst (on "" (VFun 0) constructor))).

(** The same function registered twice under ["x"]. *)
Definition twice : World :=
  fst (on "x" (VFun 0) (fst (on "x" (VFun 0) constructor))).

Definition twice_token : Token := mkToken "x" (VFun 0).

Definition ten : World := fst (on "x" (VFun 9) nine).

Definition twice_called_once : World := fst (invoke_token twice_token twice).

Definition twice_called_twice : World :=
  fst (invoke_token twice_token twice_called_once).

(** A clock reading of the year 2027 and an interval longer than the
    time since 1970. *)
Definition in_2027 : Z := 1800000000000.
Definition long_limit : Z := 2000000000000.

(** [throttle(fn, 100)] called three times within 10 ms. *)
Definition burst : Throttle.State :=
  Throttle.invoke_at 1007 [VData true 3]
    (Throttle.invoke_at 1003 [VData true 2]
       (Throttle.invoke_at 1000 [VData true 1]
          (Throttle.throttle (Some 100%Z) 1000))).

(** User function 0 throws, every other one returns. *)
Definition thrower : Code :=
  fun id _ => match id with 0 => Raise 7 | _ => Ret end.

(** The thrower alone under ["x"]. *)
Definition sole : World := fst (on "x" (VFun 0) constructor).

(** The thrower, then a second listener, under ["x"]; a third
    listener under ["*"]. *)
Definition three : World :=
  fst (on "*" (VFun 2) (fst (on "x" (VFun 1) sole))).

(** No user function does anything. *)
Definition idle : Code := fun _ _ => Ret.

(** User function 0 emits ["x"] again from within itself. *)
Definition reemitter : Code :=
  fun id _ =>
    match id with
    | 0 => CallEmit "x" [] (fun _ => Ret)
    | _ => Ret
    end.

(** A listener under ["*"], then a fire-once listener under ["x"]. *)
Definition star_then_once : World :=
  fst (once "x" (VFun 0) (fst (on "*" (VFun 1) constructor))).

Definition after_first_emit : World :=
  match emit idle 4 "x" [] star_then_once with
  | Some (w, _) => w
  | None => star_then_once
  end.

(** [three] after [emit("x")], and after the pass over the list of
    ["x"] alone. *)
Definition after_emit : World :=
  match emit thrower 3 "x" [] three with
  | Some (w, _) => w
  | None => three
  end.

Definition after_pass : World :=
  match dispatch (call thrower 3) "x" [] [VFun 0; VFun 1] false three with
  | Some (w, _) => w
  | None => three
  end.

(** [debounce(fn, 100)] called five times within 50 ms. *)
Definition debounced_burst : Debounce.State :=
  Debounce.invoke_at 1040 [VData true 5]
    (Debounce.invoke_at 1030 [VData true 4]
       (Debounce.invoke_at 1020 [VData true 3]
          (Debounce.invoke_at 1010 [VData true 2]
             (Debounce.invoke_at 1000 [VData true 1]
                (Debounce.debounce (Some 100%Z) 1000))))).

(** User function 0 registers user function 1 under ["*"] while it is
    being dispatched to. *)
Definition registrar : Code :=
  fun id _ =>
    match id with
    | 0 => CallOn "*" (VFun 1) (fun _ => Ret)
    | _ => Ret
    end.

(** The callback of the fire-once registration is also registered
    directly, under ["*"]. *)
Definition star_cb_then_once : World :=
  fst (once "x" (VFun 0) (fst (on "*" (VFun 0) constructor))).

(** [undefined] was registered under ["x"] before the fire-once
    registration. *)
Definition undefined_then_once : World :=
  fst (once "x" (VFun 0) (fst (on "x" VUndefined constructor))).

(** User function 1 emits ["x"] from within itself, the first time it
    runs (it leaves a mark under ["g"] to know); user function 0
    returns. *)
Definition meddler : Code :=
  fun id _ =>
    match id with
    | 1 =>
        CallCount (Some "g")
          (fun n =>
             match n with
             | 0 => CallOn "g" (VData true 0)
                      (fun _ => CallEmit "x" [] (fun _ => Ret))
             | S _ => Ret
             end)
    | _ => Ret
    end.

(** User function 2 and a fire-once registration of user function 1,
    both under ["x"]. *)
Definition two_bystanders : World :=
  fst (once "x" (VFun 1) (fst (on "x" (VFun 2) constructor))).

(** User function 1 under ["x"], then a fire-once registration of user
    function 0 under ["x"]. *)
Definition listener_then_once : World :=
  fst (once "x" (VFun 0) (fst (on "x" (VFun 1) constructor))).

(** The registries that [registrar] makes of [sole]: user function 0
    under ["x"] and, once it has been called, under ["*"] one copy of
    user function 1 for each of its calls. *)
Definition registered (k : nat) : JsMap.t (list Value) :=
  match k with
  | 0 => [Some ("x", [VFun 0])]
  | S _ => [Some ("x", [VFun 0]); Some ("*", repeat (VFun 1) k)]
  end.

Definition registered_so_far (m : JsMap.t (list Value)) : Prop :=
  exists k, m = registered k.

End Scenario.

(* ================================================================== *)
(** * Properties *)
(* ================================================================== *)

(** ** PatternMatcher *)

Section MatcherFacts.

Import Matcher.

Lemma split_nonempty sep s : 1 <= length (Str.split sep s).
Proof.
  induction s as [|c s IH]; simpl; [lia|].
  destruct (Ascii.eqb c sep); simpl; [lia|].
  destruct (Str.split sep s); simpl in *; lia.
Qed.

Lemma skipn_nth_error {A} (l : list A) i x :
  nth_error l i = Some x -> skipn i l = x :: skipn (S i) l.
Proof.
  revert i; induction l as [|y l IH]; intros [|i] H; simpl in *;
    try discriminate.
  - now inversion H.
  - now apply IH.
Qed.

(** The indexed loop of the code and the walk over what is left of the
    pattern decide alike. *)
Lemma for_loop_walk ps es :
  forall steps i,
    length ps <= steps + i ->
    for_loop ps es steps i = verdict ps es (walk_spec (skipn i ps) es i).
Proof.
  induction steps as [|steps IH]; intros i Hlen.
  - rewrite skipn_all2 by lia. reflexivity.
  - simpl. destruct (nth_error ps i) as [p|] eqn:Hp.
    + rewrite (skipn_nth_error _ _ _ Hp). simpl.
      destruct (String.eqb p "**"); [reflexivity|].
      destruct (String.eqb p "*"); [apply IH; lia|].
      destruct (nth_error es i) as [e|]; simpl; [|reflexivity].
      destruct (String.eqb p e); simpl; [apply IH; lia|reflexivity].
    + apply nth_error_None in Hp.
      rewrite skipn_all2 by lia. reflexivity.
Qed.

Lemma matches_refines_spec P E : _matches P E = matches_spec P E.
Proof.
  unfold _matches, matches_spec.
  destruct (String.eqb P E); simpl; [reflexivity|].
  destruct (String.eqb P "*"); simpl; [reflexivity|].
  rewrite for_loop_walk by lia. reflexivity.
Qed.

Lemma walk_without_doublestar ps es :
  ~ In "**" ps -> forall i, walk_spec ps es i <> Accept.
Proof.
  induction ps as [|p ps IH]; intros Hno i; simpl; [discriminate|].
  destruct (String.eqb p "**") eqn:Hp.
  - apply String.eqb_eq in Hp. exfalso. apply Hno. now left.
  - assert (Hno' : ~ In "**" ps) by (intro; apply Hno; now right).
    destruct (String.eqb p "*"); [now apply IH|].
    destruct (nth_error es i); [|discriminate].
    destruct (String.eqb p s); [now apply IH|discriminate].
Qed.

Lemma longer_pattern_never_matches P E :
  length (Str.split Str.dot E) < length (Str.split Str.dot P) ->
  ~ In "**" (Str.split Str.dot P) ->
  _matches P E = false.
Proof.
  intros Hlen Hno. rewrite matches_refines_spec. unfold matches_spec.
  destruct (String.eqb P E) eqn:HPE.
  { apply String.eqb_eq in HPE. subst. lia. }
  destruct (String.eqb P "*") eqn:HP.
  { apply String.eqb_eq in HP. subst. simpl in Hlen.
    pose proof (split_nonempty Str.dot E). lia. }
  pose proof (walk_without_doublestar _ (Str.split Str.dot E) Hno 0) as Hw.
  destruct (walk_spec _ _ 0); [congruence|reflexivity|].
  apply Nat.eqb_neq. lia.
Qed.

(** Up to a [**] at index [k] the loop meets nothing that stops it. *)
Lemma for_loop_reaches_doublestar ps es k :
  nth_error ps k = Some "**" ->
  (forall i p, i < k -> nth_error ps i = Some p ->
               p = "*" \/ nth_error es i = Some p) ->
  forall steps i, i <= k -> k < steps + i ->
                  for_loop ps es steps i = true.
Proof.
  intros Hk Hpre. induction steps as [|steps IH]; intros i Hi Hs; [lia|].
  simpl. destruct (nth_error ps i) as [p|] eqn:Hp.
  - destruct (String.eqb p "**") eqn:H2; [reflexivity|].
    assert (Hik : i < k).
    { destruct (Nat.eq_dec i k) as [->|]; [|lia].
      rewrite Hk in Hp. inversion Hp; subst. discriminate. }
    destruct (String.eqb p "*") eqn:H1; [apply IH; lia|].
    destruct (Hpre i p Hik Hp) as [->|He]; [discriminate|].
    rewrite He. simpl. rewrite String.eqb_refl. simpl. apply IH; lia.
  - apply nth_error_None in Hp.
    assert (k < length ps) by (apply nth_error_Some; congruence). lia.
Qed.

End MatcherFacts.

Example split_ab : Str.split Str.dot "a.b" = ["a"; "b"].
Proof. reflexivity. Qed.

Example split_empty : Str.split Str.dot "" = [""].
Proof. reflexivity. Qed.

Example split_trailing : Str.split Str.dot "a." = ["a"; ""].
Proof. reflexivity. Qed.

Example matches_table :
  Matcher._matches "user.*" "user.created" = true /\
  Matcher._matches "user.*" "user.created.extra" = false /\
  Matcher._matches "**" "anything.at.all" = true /\
  Matcher._matches "*" "a.b.c" = true /\
  Matcher._matches "a.*" "a.b" = true /\
  Matcher._matches "a.**" "a.b.c" = true /\
  Matcher._matches "a.b.**" "a" = false.
Proof. repeat split; reflexivity. Qed.

(** C3.  [_matches] decides exactly as the segment walk of section 4.1:
    equal strings and the pattern ["*"] are accepted; otherwise the
    pattern's segments are walked by index, a ["**"] accepts at once, a
    ["*"] goes on, any other segment must equal the event's segment at
    that index, and a walk that uses up the pattern accepts only on equal
    segment counts.  Hence a pattern with more segments than the event
    and no ["**"] never matches, and ["a.*"] matches neither ["a"] nor
    ["a.b.c"]. *)
Theorem matches_segment_walk :
  (forall P E, Matcher._matches P E = Matcher.matches_spec P E) /\
  (forall P E,
      length (Str.split Str.dot E) < length (Str.split Str.dot P) ->
      ~ In "**" (Str.split Str.dot P) ->
      Matcher._matches P E = false) /\
  Matcher._matches "a.*" "a" = false /\
  Matcher._matches "a.*" "a.b.c" = false.
Proof.
  split; [exact matches_refines_spec|].
  split; [exact longer_pattern_never_matches|].
  split; reflexivity.
Qed.

Lemma matches_segment_walk_witness :
  Matcher._matches "a.b.c" "a.b" = false.
Proof.
  apply (proj1 (proj2 matches_segment_walk)).
  - simpl. lia.
  - simpl. intros [H|[H|[H|[]]]]; discriminate H.
Defined.

(** C10.  A ["**"] segment is accepted even when the event has run out:
    if every pattern segment before a ["**"] is ["*"] or equals the
    event's segment at the same index, [_matches] answers true, whatever
    the number of event segments; so ["a.**"] and ["a.*.**"] both match
    ["a"].  A segment before the ["**"] that is neither, such as the
    ["b"] of ["a.b.**"] against ["a"], still rejects. *)
Theorem doublestar_accepts_exhausted_event :
  (forall P E k,
      nth_error (Str.split Str.dot P) k = Some "**" ->
      (forall i p, i < k -> nth_error (Str.split Str.dot P) i = Some p ->
                   p = "*" \/ nth_error (Str.split Str.dot E) i = Some p) ->
      Matcher._matches P E = true) /\
  Matcher._matches "a.**" "a" = true /\
  Matcher._matches "a.*.**" "a" = true /\
  Matcher._matches "a.b.**" "a" = false.
Proof.
  split; [|repeat split; reflexivity].
  intros P E k Hk Hpre. unfold Matcher._matches.
  destruct (String.eqb P E || String.eqb P "*"); [reflexivity|].
  apply (for_loop_reaches_doublestar _ _ k Hk Hpre); [lia|].
  assert (k < length (Str.split Str.dot P))
    by (apply nth_error_Some; congruence).
  lia.
Qed.

Lemma doublestar_accepts_exhausted_event_witness :
  Matcher._matches "a.*.**" "a" = true.
Proof.
  apply (proj1 doublestar_accepts_exhausted_event "a.*.**" "a" 2).
  - reflexivity.
  - intros [|[|i]] p Hi Hp; simpl in Hp; inversion Hp; subst.
    + right. reflexivity.
    + left. reflexivity.
    + lia.
Defined.

(** ** The registry's [Map] *)

Section JsMapFacts.

Context {V : Type}.
Implicit Types (m : JsMap.t V) (k : string) (v : V).

Lemma get_set_same k v m : JsMap.get k (JsMap.set k v m) = Some v.
Proof.
  induction m as [|[[k' v']|] m IH]; simpl.
  - now rewrite String.eqb_refl.
  - destruct (String.eqb k k') eqn:E; simpl.
    + now rewrite String.eqb_refl.
    + now rewrite E.
  - exact IH.
Qed.

Lemma set_set k v v' m :
  JsMap.set k v (JsMap.set k v' m) = JsMap.set k v m.
Proof.
  induction m as [|[[k' u]|] m IH]; simpl.
  - now rewrite String.eqb_refl.
  - destruct (String.eqb k k') eqn:E; simpl.
    + now rewrite String.eqb_refl.
    + now rewrite E, IH.
  - now rewrite IH.
Qed.

Lemma set_get_id k v m : JsMap.get k m = Some v -> JsMap.set k v m = m.
Proof.
  induction m as [|[[k' u]|] m IH]; simpl; intros H.
  - discriminate.
  - destruct (String.eqb k k') eqn:E.
    + apply String.eqb_eq in E. inversion H. now subst.
    + now rewrite IH.
  - now rewrite IH.
Qed.

Lemma delete_absent k m : JsMap.get k m = None -> JsMap.delete k m = m.
Proof.
  induction m as [|[[k' u]|] m IH]; simpl; intros H.
  - reflexivity.
  - destruct (String.eqb k k'); [discriminate|]. now rewrite IH.
  - now rewrite IH.
Qed.

Lemma get_In_keys k v m : JsMap.get k m = Some v -> In k (JsMap.keys m).
Proof.
  unfold JsMap.keys.
  induction m as [|[[k' u]|] m IH]; simpl; intros H.
  - discriminate.
  - destruct (String.eqb k k') eqn:E.
    + apply String.eqb_eq in E. now left.
    + right. now apply IH.
  - now apply IH.
Qed.

Lemma get_In_values k v m : JsMap.get k m = Some v -> In v (JsMap.values m).
Proof.
  induction m as [|[[k' u]|] m IH]; simpl; intros H.
  - discriminate.
  - destruct (String.eqb k k').
    + inversion H. now left.
    + right. now apply IH.
  - now apply IH.
Qed.

Lemma get_not_in_keys k m : ~ In k (JsMap.keys m) -> JsMap.get k m = None.
Proof.
  intros H. destruct (JsMap.get k m) eqn:E; [|reflexivity].
  exfalso. eapply H, get_In_keys, E.
Qed.

Lemma get_delete_same k m :
  JsMap.wf m -> JsMap.get k (JsMap.delete k m) = None.
Proof.
  unfold JsMap.wf, JsMap.keys.
  induction m as [|[[k' u]|] m IH]; simpl; intros H.
  - reflexivity.
  - inversion H as [|? ? Hnot Hrest]; subst.
    destruct (String.eqb k k') eqn:E; simpl.
    + apply String.eqb_eq in E. subst. now apply get_not_in_keys.
    + rewrite E. now apply IH.
  - now apply IH.
Qed.

Lemma keys_set k v m :
  JsMap.keys (JsMap.set k v m) =
  if JsMap.has k m then JsMap.keys m else JsMap.keys m ++ [k].
Proof.
  unfold JsMap.has, JsMap.keys.
  induction m as [|[[k' u]|] m IH]; simpl.
  - reflexivity.
  - destruct (String.eqb k k') eqn:E; simpl.
    + apply String.eqb_eq in E. now subst.
    + rewrite IH. now destruct (JsMap.get k m).
  - exact IH.
Qed.

Lemma In_keys_get k m :
  In k (JsMap.keys m) -> exists v, JsMap.get k m = Some v.
Proof.
  unfold JsMap.keys.
  induction m as [|[[k' u]|] m IH]; simpl; intros H.
  - contradiction.
  - destruct (String.eqb k k') eqn:E; [now eexists|].
    destruct H as [H|H]; [|now apply IH].
    subst. now rewrite String.eqb_refl in E.
  - now apply IH.
Qed.

Lemma wf_set k v m : JsMap.wf m -> JsMap.wf (JsMap.set k v m).
Proof.
  unfold JsMap.wf. intros H. rewrite keys_set.
  unfold JsMap.has. destruct (JsMap.get k m) eqn:E; [exact H|].
  apply NoDup_app; [exact H | repeat constructor; intros [] | ].
  intros x Hx [Hk|[]]. subst x.
  destruct (In_keys_get _ _ Hx) as [u Hu]. congruence.
Qed.

End JsMapFacts.

(** ** ListenerRegistry *)

Section RegistryFacts.

Lemma strict_eq_refl v : strict_eq v v = true.
Proof.
  induction v as [| t n | i | i e o IH]; simpl.
  - reflexivity.
  - now rewrite Bool.eqb_reflx, Nat.eqb_refl.
  - apply Nat.eqb_refl.
  - now rewrite Nat.eqb_refl, String.eqb_refl, IH.
Qed.

Lemma strict_eq_eq a b : strict_eq a b = true -> a = b.
Proof.
  revert b. induction a as [| t n | i | i e o IH]; intros [| t' n' | j | j e' o'];
    simpl; try discriminate; intros H.
  - reflexivity.
  - apply andb_prop in H as [H1 H2].
    apply Bool.eqb_prop in H1. apply Nat.eqb_eq in H2. now subst.
  - apply Nat.eqb_eq in H. now subst.
  - apply andb_prop in H as [H12 H3]. apply andb_prop in H12 as [H1 H2].
    apply Nat.eqb_eq in H1. apply String.eqb_eq in H2.
    apply IH in H3. now subst.
Qed.

(** What [on] does, in one equation: the callback goes to the end of
    the pattern's list, the list taking its slot if it had none; the
    console hears about it when the list, before the [push], is as long
    as [maxListeners] or longer. *)
Lemma on_spec event cb w :
  on event cb w =
  (set_listeners
     (JsMap.set event (listeners_of event w ++ [cb]) (listeners w))
     (if Nat.leb (maxListeners w) (length (listeners_of event w))
      then log (Warn event (length (listeners_of event w))
                     (maxListeners w)) w
      else w),
   Normal (mkToken event cb)).
Proof.
  unfold on, listeners_of, JsMap.has.
  destruct (JsMap.get event (listeners w)) as [ls|] eqn:E.
  - rewrite E. destruct (Nat.leb _ _); reflexivity.
  - simpl. rewrite get_set_same. simpl.
    destruct (Nat.leb _ _); simpl; rewrite set_set; reflexivity.
Qed.

Lemma listeners_of_on event cb w :
  listeners_of event (fst (on event cb w)) = listeners_of event w ++ [cb].
Proof.
  rewrite on_spec. unfold listeners_of at 1. simpl.
  now rewrite get_set_same.
Qed.

Lemma console_on event cb w :
  console (fst (on event cb w)) =
  console w ++
  (if Nat.leb (maxListeners w) (length (listeners_of event w))
   then [Warn event (length (listeners_of event w)) (maxListeners w)]
   else []).
Proof.
  rewrite on_spec. simpl.
  destruct (Nat.leb _ _); simpl; [reflexivity|now rewrite app_nil_r].
Qed.

End RegistryFacts.

(** C6 (as stated, refuted).  On an emitter that holds nine listeners
    for ["x"], the registration that brings the list to exactly ten
    entries, the default [maxListeners], leaves the console silent. *)
Lemma tenth_registration_is_silent :
  ~ (maxListeners Scenario.nine <= length (listeners_of "x" Scenario.ten) <->
     console Scenario.ten <> console Scenario.nine).
Proof.
  vm_compute. intros [H _]. apply H; [repeat constructor|reflexivity].
Qed.

(** C6 (amended).  [on] always appends the callback to the pattern's
    list and returns normally, and it warns exactly when the list
    already held [maxListeners] entries or more before the append, that
    is when the resulting length exceeds [maxListeners]. *)
Theorem on_appends_and_warns_beyond_capacity event cb w :
  exists w',
    on event cb w = (w', Normal (mkToken event cb)) /\
    listeners_of event w' = listeners_of event w ++ [cb] /\
    console w' =
    console w ++
    (if Nat.ltb (maxListeners w) (length (listeners_of event w'))
     then [Warn event (length (listeners_of event w)) (maxListeners w)]
     else []).
Proof.
  exists (fst (on event cb w)). split; [|split].
  - now rewrite on_spec.
  - apply listeners_of_on.
  - rewrite console_on, listeners_of_on, length_app. simpl.
    replace (Nat.ltb (maxListeners w) (length (listeners_of event w) + 1))
      with (Nat.leb (maxListeners w) (length (listeners_of event w)));
      [reflexivity|].
    destruct (Nat.leb_spec (maxListeners w) (length (listeners_of event w)));
      symmetry; [apply Nat.ltb_lt|apply Nat.ltb_ge]; lia.
Qed.

Section CountFacts.

Lemma matches_refl e : Matcher._matches e e = true.
Proof. unfold Matcher._matches. now rewrite String.eqb_refl. Qed.

Lemma fold_count_shift (l : list (list Value)) n :
  fold_left (fun count ls => count + length ls) l n =
  n + fold_left (fun count ls => count + length ls) l 0.
Proof.
  revert n. induction l as [|x l IH]; intros n; simpl; [lia|].
  rewrite IH, (IH (length x)). lia.
Qed.

(** The loop of [listenerCount] adds up the lengths of the lists. *)
Lemma count_all_sum w :
  count_all w = list_sum (map (@length Value) (JsMap.values (listeners w))).
Proof.
  unfold count_all. induction (JsMap.values (listeners w)) as [|x l IH].
  - reflexivity.
  - simpl. rewrite fold_count_shift, IH. reflexivity.
Qed.

(** A pattern that is not the empty string is looked up. *)
Lemma listenerCount_named c p w :
  listenerCount (Some (String c p)) w =
  length (listeners_of (String c p) w).
Proof. reflexivity. Qed.

Lemma listenerCount_absent c p w :
  JsMap.get (String c p) (listeners w) = None ->
  listenerCount (Some (String c p)) w = 0.
Proof.
  intros H. rewrite listenerCount_named. unfold listeners_of.
  now rewrite H.
Qed.

Lemma listenerCount_total w :
  listenerCount None w =
  list_sum (map (@length Value) (JsMap.values (listeners w))).
Proof. apply count_all_sum. Qed.

Lemma listenerCount_new : listenerCount None constructor = 0.
Proof. reflexivity. Qed.

End CountFacts.

(** C7 (the code at the failing input).  [listenerCount("")] takes the
    branch of the call without argument: it returns the total over all
    patterns, here 2, where the list of the empty pattern holds one
    listener. *)
Theorem listenerCount_empty_pattern_counts_all :
  (forall w, listenerCount (Some "") w = listenerCount None w) /\
  listenerCount (Some "") Scenario.empty_and_x = 2 /\
  length (listeners_of "" Scenario.empty_and_x) = 1.
Proof. repeat split. Qed.


Section OffFacts.

Lemma occurrences_cons cb fn ls :
  occurrences cb (fn :: ls) =
  (if refers cb fn then 1 else 0) + occurrences cb ls.
Proof. unfold occurrences. simpl. now destruct (refers cb fn). Qed.

Lemma occurrences_app cb l1 l2 :
  occurrences cb (l1 ++ l2) = occurrences cb l1 + occurrences cb l2.
Proof. unfold occurrences. now rewrite filter_app, length_app. Qed.

(** [findIndex] stops at the first entry that refers to the callback;
    taking that entry out takes one occurrence away. *)
Lemma findIndex_found cb ls :
  forall k i,
    findIndex cb ls k = Normal (Some i) ->
    exists j, i = k + j /\
              S (occurrences cb (splice1 j ls)) = occurrences cb ls.
Proof.
  induction ls as [|fn ls IH]; intros k i H; simpl in H; [discriminate|].
  destruct (strict_eq fn cb) eqn:E1.
  { inversion H; subst. exists 0. split; [lia|].
    simpl. rewrite occurrences_cons. unfold refers. now rewrite E1. }
  destruct (get_original fn) as [o|e] eqn:E2; [|discriminate].
  destruct (strict_eq o cb) eqn:E3.
  { inversion H; subst. exists 0. split; [lia|].
    simpl. rewrite occurrences_cons. unfold refers.
    rewrite E1, E2, E3. reflexivity. }
  destruct (IH _ _ H) as [j [-> Hj]]. exists (S j). split; [lia|].
  simpl. rewrite !occurrences_cons. unfold refers.
  rewrite E1, E2, E3. simpl. exact Hj.
Qed.

Lemma findIndex_none_left cb ls :
  occurrences cb ls = 0 ->
  forall k i, findIndex cb ls k <> Normal (Some i).
Proof.
  induction ls as [|fn ls IH]; intros H k i; simpl; [discriminate|].
  rewrite occurrences_cons in H. unfold refers in H.
  destruct (strict_eq fn cb); [simpl in H; lia|].
  destruct (get_original fn) as [o|e]; [|discriminate].
  destruct (strict_eq o cb); [simpl in H; lia|].
  apply IH. simpl in H. exact H.
Qed.

Lemma set_listeners_twice m m' w :
  set_listeners m (set_listeners m' w) = set_listeners m w.
Proof. reflexivity. Qed.

Lemma set_listeners_same w : set_listeners (listeners w) w = w.
Proof. now destruct w. Qed.

(** A second [off] finds nothing left to do once at most one entry
    referred to the callback. *)
Lemma off_twice event cb w :
  JsMap.wf (listeners w) ->
  occurrences cb (listeners_of event w) <= 1 ->
  fst (off event cb (fst (off event cb w))) = fst (off event cb w).
Proof.
  intros Hwf Hocc. unfold off at 2 3.
  destruct (truthy_value cb) eqn:Ht; simpl.
  2:{ unfold off. rewrite Ht. simpl.
      rewrite (delete_absent event (JsMap.delete event (listeners w)))
        by now apply get_delete_same.
      reflexivity. }
  unfold listeners_of in Hocc.
  destruct (JsMap.get event (listeners w)) as [ls|] eqn:Hg.
  2:{ simpl. unfold off. now rewrite Ht, Hg. }
  destruct (findIndex cb ls 0) as [idx|e] eqn:Hf.
  2:{ simpl. unfold off. now rewrite Ht, Hg, Hf. }
  set (ls' := match idx with Some i => splice1 i ls | None => ls end).
  assert (Hleft : occurrences cb ls' = 0 \/ idx = None).
  { destruct idx as [i|]; [left|now right].
    destruct (findIndex_found _ _ _ _ Hf) as [j [-> Hj]].
    subst ls'. simpl in *. lia. }
  destruct (Nat.eqb (length ls') 0) eqn:Hlen; simpl.
  - unfold off. rewrite Ht. simpl.
    rewrite get_delete_same by now apply wf_set.
    reflexivity.
  - unfold off. rewrite Ht. simpl. rewrite get_set_same.
    destruct (findIndex cb ls' 0) as [idx'|e'] eqn:Hf'; [|reflexivity].
    assert (Hidx' : idx' = None).
    { destruct idx' as [i'|]; [exfalso|reflexivity].
      destruct Hleft as [H0| ->].
      - exact (findIndex_none_left _ _ H0 _ _ Hf').
      - subst ls'. congruence. }
    subst idx'. rewrite Hlen. simpl. now rewrite set_set.
Qed.

Lemma wf_on event cb w :
  JsMap.wf (listeners w) -> JsMap.wf (listeners (fst (on event cb w))).
Proof.
  intros H. rewrite on_spec. simpl. now apply wf_set.
Qed.

Lemma keys_delete_incl {V} k x (m : JsMap.t V) :
  In x (JsMap.keys (JsMap.delete k m)) -> In x (JsMap.keys m).
Proof.
  unfold JsMap.keys.
  induction m as [|[[k' u]|] m IH]; simpl; intros H.
  - contradiction.
  - destruct (String.eqb k k'); simpl in H.
    + now right.
    + destruct H as [H|H]; [now left|right; now apply IH].
  - now apply IH.
Qed.

Lemma wf_delete {V} k (m : JsMap.t V) :
  JsMap.wf m -> JsMap.wf (JsMap.delete k m).
Proof.
  unfold JsMap.wf.
  induction m as [|[[k' u]|] m IH]; simpl; intros H.
  - exact H.
  - unfold JsMap.keys in *. simpl in H.
    inversion H as [|? ? Hnot Hrest]; subst.
    destruct (String.eqb k k'); simpl; [exact Hrest|].
    constructor; [|now apply IH].
    intros Hin. apply Hnot. eapply keys_delete_incl, Hin.
  - now apply IH.
Qed.

(** [off] keeps every key in at most one slot. *)
Lemma wf_off event cb w :
  JsMap.wf (listeners w) -> JsMap.wf (listeners (fst (off event cb w))).
Proof.
  intros H. unfold off. destruct (negb (truthy_value cb)); simpl.
  { now apply wf_delete. }
  destruct (JsMap.get event (listeners w)); [|exact H].
  destruct (findIndex cb l 0); [|exact H].
  destruct (Nat.eqb _ 0); simpl; [apply wf_delete|]; now apply wf_set.
Qed.

Lemma refers_self cb : refers cb cb = true.
Proof. unfold refers. now rewrite strict_eq_refl. Qed.

(** No entry of a registry with [fresh_ids] refers to the wrapper that
    [once] is about to allocate. *)
Lemma fresh_wrapper_unreferred event cb e w :
  fresh_ids w ->
  occurrences (VOnce (nextId w) e cb) (listeners_of event w) = 0.
Proof.
  intros Hfresh. unfold listeners_of.
  destruct (JsMap.get event (listeners w)) as [ls|] eqn:Hg; [|reflexivity].
  assert (Hall : forall v, In v ls -> ids_below (nextId w) v).
  { intros v Hv. eapply Hfresh; [eapply get_In_values, Hg|exact Hv]. }
  clear Hg. induction ls as [|fn ls IH]; [reflexivity|].
  rewrite occurrences_cons, IH by (intros; apply Hall; now right).
  assert (Hfn := Hall fn (or_introl eq_refl)).
  unfold refers.
  destruct (strict_eq fn _) eqn:E1.
  { apply strict_eq_eq in E1. subst fn. simpl in Hfn. lia. }
  destruct fn as [| t n | i | i e' o]; simpl; try reflexivity.
  destruct (strict_eq o _) eqn:E2; [|reflexivity].
  apply strict_eq_eq in E2. subst o. simpl in Hfn. lia.
Qed.

End OffFacts.

(** C8 (as stated, refuted).  With the same function registered twice
    under ["x"], the second call of the unsubscribe closure removes the
    second registration: the registry after it differs from the one the
    first call left. *)
Lemma second_token_call_removes_again :
  listeners_of "x" Scenario.twice = [VFun 0; VFun 0] /\
  listeners_of "x" Scenario.twice_called_once = [VFun 0] /\
  listeners_of "x" Scenario.twice_called_twice = [] /\
  Scenario.twice_called_twice <> Scenario.twice_called_once.
Proof. vm_compute. repeat split. discriminate. Qed.

(** C8 (amended).  Calling the unsubscribe closure a second time leaves
    the registry as the first call left it, provided the pattern's list
    holds, at the first call, at most one entry that is the callback or
    wraps it.  This is so right after [on] for a callback the list did
    not refer to yet, and right after [once], whose wrapper is new. *)
Theorem token_idempotent_for_single_registration :
  (forall t w,
      JsMap.wf (listeners w) ->
      occurrences (tok_callback t) (listeners_of (tok_event t) w) <= 1 ->
      fst (invoke_token t (fst (invoke_token t w)))
      = fst (invoke_token t w)) /\
  (forall event cb w,
      JsMap.wf (listeners w) ->
      occurrences cb (listeners_of event w) = 0 ->
      let w1 := fst (on event cb w) in
      let t := mkToken event cb in
      fst (invoke_token t (fst (invoke_token t w1)))
      = fst (invoke_token t w1)) /\
  (forall event cb w,
      JsMap.wf (listeners w) ->
      fresh_ids w ->
      let w1 := fst (once event cb w) in
      let t := mkToken event (VOnce (nextId w) event cb) in
      once event cb w = (w1, Normal t) /\
      fst (invoke_token t (fst (invoke_token t w1)))
      = fst (invoke_token t w1)).
Proof.
  split; [|split].
  - intros t w Hwf Hocc. now apply off_twice.
  - intros event cb w Hwf Hocc w1 t. subst w1 t. unfold invoke_token.
    cbn [tok_event tok_callback].
    apply off_twice; [now apply wf_on|].
    rewrite listeners_of_on, occurrences_app, Hocc, occurrences_cons.
    rewrite refers_self. cbn. lia.
  - intros event cb w Hwf Hfresh w1 t. subst w1 t. unfold once.
    split; [now rewrite on_spec|].
    unfold invoke_token. cbn [tok_event tok_callback].
    apply off_twice; [now apply wf_on|].
    rewrite listeners_of_on, occurrences_app, occurrences_cons.
    rewrite refers_self.
    change (listeners_of event (fresh w)) with (listeners_of event w).
    rewrite fresh_wrapper_unreferred by exact Hfresh. cbn. lia.
Qed.

Lemma token_idempotent_for_single_registration_witness :
  fst (invoke_token Scenario.twice_token
         (fst (invoke_token Scenario.twice_token Scenario.twice_called_once)))
  = fst (invoke_token Scenario.twice_token Scenario.twice_called_once) /\
  fst (invoke_token (mkToken "x" (VFun 0))
         (fst (invoke_token (mkToken "x" (VFun 0))
                 (fst (on "x" (VFun 0) constructor)))))
  = fst (invoke_token (mkToken "x" (VFun 0))
           (fst (on "x" (VFun 0) constructor))) /\
  (once "x" (VFun 0) constructor
   = (fst (once "x" (VFun 0) constructor),
      Normal (mkToken "x" (VOnce 0 "x" (VFun 0)))) /\
   fst (invoke_token (mkToken "x" (VOnce 0 "x" (VFun 0)))
          (fst (invoke_token (mkToken "x" (VOnce 0 "x" (VFun 0)))
                  (fst (once "x" (VFun 0) constructor)))))
   = fst (invoke_token (mkToken "x" (VOnce 0 "x" (VFun 0)))
            (fst (once "x" (VFun 0) constructor)))).
Proof.
  split; [|split].
  - apply (proj1 token_idempotent_for_single_registration).
    + vm_compute. repeat constructor. intros [].
    + vm_compute. lia.
  - apply (proj1 (proj2 token_idempotent_for_single_registration)
                 "x" (VFun 0) constructor).
    + vm_compute. constructor.
    + reflexivity.
  - apply (proj2 (proj2 token_idempotent_for_single_registration)
                 "x" (VFun 0) constructor).
    + vm_compute. constructor.
    + intros ls v [].
Defined.

(** ** RateLimiters *)

Section ThrottleFacts.

Import Throttle.

Lemma clear_tidy s :
  tidy s -> Host.queue (Host.clearTimeout (timer s) (host s)) = [].
Proof.
  intros [Hq|[tm [Hq Ht]]]; unfold Host.clearTimeout.
  - destruct (timer s); simpl; [now rewrite Hq|exact Hq].
  - rewrite Ht. simpl. rewrite Hq. simpl. now rewrite Nat.eqb_refl.
Qed.

Lemma tidy_new limit now : tidy (throttle limit now).
Proof. now left. Qed.

(** Outside a cooldown the wrapper runs [fn] at once and restarts the
    cooldown; nothing stays scheduled. *)
Lemma invoke_leading args s :
  tidy s ->
  (limit s - (Host.clock (host s) - lastCall s) <= 0)%Z ->
  fn_calls (invoke args s) = fn_calls s ++ [(Host.clock (host s), args)] /\
  lastCall (invoke args s) = Host.clock (host s) /\
  Host.queue (host (invoke args s)) = [].
Proof.
  intros Ht Hr. unfold invoke.
  destruct (Z.leb_spec (limit s - (Host.clock (host s) - lastCall s)) 0);
    [|lia].
  simpl. repeat split. now apply clear_tidy.
Qed.

Lemma clock_clear tm h : Host.clock (Host.clearTimeout tm h) = Host.clock h.
Proof. now destruct tm. Qed.

(** Inside a cooldown the wrapper does not run [fn]; it leaves exactly
    one timer, due when the cooldown ends, holding this call's
    arguments. *)
Lemma invoke_trailing args s :
  tidy s ->
  (0 < limit s - (Host.clock (host s) - lastCall s))%Z ->
  fn_calls (invoke args s) = fn_calls s /\
  lastCall (invoke args s) = lastCall s /\
  (exists id,
      Host.queue (host (invoke args s))
      = [Host.mkTimer id (lastCall s + limit s) args] /\
      timer (invoke args s) = Some id).
Proof.
  intros Ht Hr. unfold invoke.
  destruct (Z.leb_spec (limit s - (Host.clock (host s) - lastCall s)) 0);
    [lia|].
  unfold Host.setTimeout. simpl. repeat split.
  eexists. rewrite clear_tidy by exact Ht. rewrite clock_clear. simpl.
  split; [|reflexivity]. do 2 f_equal. lia.
Qed.

Lemma tidy_invoke args s : tidy s -> tidy (invoke args s).
Proof.
  intros Ht.
  destruct (Z.leb_spec (limit s - (Host.clock (host s) - lastCall s)) 0)
    as [H|H].
  - left. now apply invoke_leading.
  - destruct (invoke_trailing args s Ht H) as (_ & _ & id & Hq & Hid).
    right. eexists. split; [exact Hq|exact Hid].
Qed.

(** When time passes over the end of the cooldown the pending timer
    fires there, once, with the arguments it holds. *)
Lemma advance_fires tm t s :
  Host.queue (host s) = [tm] ->
  (Host.due tm <= t)%Z ->
  fn_calls (advance t s) = fn_calls s ++ [(Host.due tm, Host.payload tm)] /\
  lastCall (advance t s) = Host.due tm /\
  Host.queue (host (advance t s)) = [] /\
  Host.clock (host (advance t s)) = t.
Proof.
  intros Hq Hd. unfold advance. rewrite Hq. simpl.
  destruct (Z.leb_spec (Host.due tm) t); [|lia].
  simpl. rewrite Hq. simpl. rewrite Nat.eqb_refl. repeat split.
Qed.

Lemma advance_waits tm t s :
  Host.queue (host s) = [tm] ->
  (t < Host.due tm)%Z ->
  fn_calls (advance t s) = fn_calls s /\
  lastCall (advance t s) = lastCall s /\
  Host.queue (host (advance t s)) = [tm] /\
  timer (advance t s) = timer s.
Proof.
  intros Hq Hd. unfold advance. rewrite Hq. simpl.
  destruct (Z.leb_spec (Host.due tm) t); [lia|].
  simpl. repeat split. exact Hq.
Qed.

(** With nothing scheduled, the passing of time runs nothing. *)
Lemma advance_idle t s :
  Host.queue (host s) = [] ->
  fn_calls (advance t s) = fn_calls s /\
  lastCall (advance t s) = lastCall s /\
  Host.queue (host (advance t s)) = [].
Proof.
  intros Hq. unfold advance. rewrite Hq. simpl. repeat split. exact Hq.
Qed.

Lemma tidy_advance t s : tidy s -> tidy (advance t s).
Proof.
  intros [Hq|[tm [Hq Ht]]].
  - left. now apply advance_idle.
  - destruct (Z.leb_spec (Host.due tm) t) as [H|H].
    + left. now apply (advance_fires tm).
    + destruct (advance_waits tm t s Hq H) as (_ & _ & Hq' & Ht').
      right. exists tm. split; [exact Hq'|congruence].
Qed.

End ThrottleFacts.

(** With a limit that is not positive, and a clock that never reads
    less than at the call before, no call finds itself inside a
    cooldown. *)
Lemma throttle_without_cooldown calls :
  forall s last,
    (Throttle.limit s <= 0)%Z ->
    Host.queue (Throttle.host s) = [] ->
    (Throttle.lastCall s <= last)%Z ->
    in_order last calls ->
    Throttle.fn_calls (throttle_calls calls s) = Throttle.fn_calls s ++ calls /\
    Host.queue (Throttle.host (throttle_calls calls s)) = [].
Proof.
  induction calls as [|[t a] calls IH]; intros s last Hl Hq Hlast Hin.
  - simpl. now rewrite app_nil_r.
  - destruct Hin as [Ht Hin]. simpl in Ht, Hin.
    change (throttle_calls ((t, a) :: calls) s)
      with (throttle_calls calls (Throttle.invoke_at t a s)).
    unfold Throttle.invoke_at.
    destruct (advance_idle t s Hq) as (Hc & Hlc & Hq').
    assert (Hclock : Host.clock (Throttle.host (Throttle.advance t s)) = t)
      by reflexivity.
    assert (Hlim : Throttle.limit (Throttle.advance t s) = Throttle.limit s).
    { unfold Throttle.advance. now rewrite Hq. }
    destruct (invoke_leading a (Throttle.advance t s)) as (Hc2 & Hl2 & Hq2).
    { now left. }
    { rewrite Hclock, Hlc, Hlim. lia. }
    destruct (IH (Throttle.invoke a (Throttle.advance t s)) t) as (Hc3 & Hq3).
    + replace (Throttle.limit (Throttle.invoke a (Throttle.advance t s)))
        with (Throttle.limit (Throttle.advance t s)).
      * rewrite Hlim. exact Hl.
      * unfold Throttle.invoke. now destruct (_ <=? 0)%Z.
    + exact Hq2.
    + rewrite Hl2, Hclock. lia.
    + exact Hin.
    + split; [|exact Hq3].
      rewrite Hc3, Hc2, Hc, Hclock, <- app_assoc. reflexivity.
Qed.



Example throttle_burst :
  Throttle.fn_calls Scenario.burst = [(1000%Z, [VData true 1])] /\
  Throttle.fn_calls (Throttle.advance 1099 Scenario.burst)
  = [(1000%Z, [VData true 1])] /\
  Throttle.fn_calls (Throttle.advance 5000 Scenario.burst)
  = [(1000%Z, [VData true 1]); (1100%Z, [VData true 3])].
Proof. repeat split. Qed.

Example debounce_burst :
  Debounce.fn_calls Scenario.debounced_burst = [] /\
  Debounce.fn_calls (Debounce.advance 1139 Scenario.debounced_burst) = [] /\
  Debounce.fn_calls (Debounce.advance 5000 Scenario.debounced_burst)
  = [(1140%Z, [VData true 5])].
Proof. repeat split. Qed.

(** C9 (the code at the failing input).  [lastCall] starts at 0, so a
    wrapper whose limit is longer than the clock reading takes its very
    first call for one inside a cooldown: [fn] is not run by the call,
    which leaves it to a timer that holds the call's arguments.  (When
    that timer fires is the platform's affair: the delay asked for at
    the input below is beyond what timers honour.)  With a limit up to
    the clock reading the first call does run [fn] at once. *)
Theorem throttle_first_call_is_deferred :
  (forall limit now args,
      (now < limit)%Z ->
      let s := Throttle.invoke args (Throttle.throttle (Some limit) now) in
      Throttle.fn_calls s = [] /\
      Throttle.lastCall s = 0%Z /\
      exists tm, Host.queue (Throttle.host s) = [tm] /\
                 Host.payload tm = args /\
                 Throttle.timer s = Some (Host.handle tm)) /\
  Throttle.fn_calls
    (Throttle.invoke [VData true 1]
       (Throttle.throttle (Some Scenario.long_limit) Scenario.in_2027)) = [] /\
  (forall limit now args,
      (limit <= now)%Z ->
      Throttle.fn_calls (Throttle.invoke args (Throttle.throttle (Some limit) now))
      = [(now, args)]).
Proof.
  split; [|split; [reflexivity|]].
  - intros limit now args H s. subst s.
    destruct (invoke_trailing args (Throttle.throttle (Some limit) now))
      as (Hc & Hl & id & Hq & Hid); [apply tidy_new|simpl; lia|].
    split; [exact Hc|]. split; [exact Hl|].
    eexists. split; [exact Hq|]. split; [reflexivity|exact Hid].
  - intros limit now args H.
    destruct (invoke_leading args (Throttle.throttle (Some limit) now))
      as (Hc & _); [apply tidy_new|simpl; lia|exact Hc].
Qed.

Lemma throttle_first_call_is_deferred_witness :
  Throttle.fn_calls
    (Throttle.invoke [VData true 1]
       (Throttle.throttle (Some Scenario.long_limit) Scenario.in_2027)) = [] /\
  Throttle.lastCall
    (Throttle.invoke [VData true 1]
       (Throttle.throttle (Some Scenario.long_limit) Scenario.in_2027)) = 0%Z /\
  Throttle.fn_calls
    (Throttle.invoke [VData true 1] (Throttle.throttle (Some 100%Z) 1000))
  = [(1000%Z, [VData true 1])].
Proof.
  split.
  - apply (proj1 throttle_first_call_is_deferred
                 Scenario.long_limit Scenario.in_2027 [VData true 1]).
    unfold Scenario.long_limit, Scenario.in_2027. lia.
  - split.
    + apply (proj1 throttle_first_call_is_deferred
                   Scenario.long_limit Scenario.in_2027 [VData true 1]).
      unfold Scenario.long_limit, Scenario.in_2027. lia.
    + apply (proj2 (proj2 throttle_first_call_is_deferred)
                   100%Z 1000%Z [VData true 1]).
      lia.
Defined.

(** Once [limit] ms have passed since [lastCall], a call of the
    throttled wrapper runs [fn] at once with its arguments and starts a
    cooldown of [limit] ms.  A call inside the cooldown never runs [fn]
    at once: it replaces whatever was scheduled by one timer that holds
    its own arguments; for a remaining time that timers honour, that
    timer is due when the cooldown ends, and when that moment passes it
    fires once with those arguments.  With no call inside the cooldown
    nothing is scheduled and nothing fires. *)
Lemma throttle_cooldown :
  (forall s args,
      Throttle.tidy s ->
      (Throttle.limit s <= Host.clock (Throttle.host s) - Throttle.lastCall s)%Z ->
      Throttle.fn_calls (Throttle.invoke args s)
      = Throttle.fn_calls s ++ [(Host.clock (Throttle.host s), args)] /\
      Throttle.lastCall (Throttle.invoke args s) = Host.clock (Throttle.host s) /\
      Host.queue (Throttle.host (Throttle.invoke args s)) = [] /\
      forall t, Throttle.fn_calls (Throttle.advance t (Throttle.invoke args s))
                = Throttle.fn_calls (Throttle.invoke args s)) /\
  (forall s args,
      Throttle.tidy s ->
      Host.honoured (Throttle.limit s
                     - (Host.clock (Throttle.host s) - Throttle.lastCall s)) ->
      Throttle.fn_calls (Throttle.invoke args s) = Throttle.fn_calls s /\
      exists id,
        Host.queue (Throttle.host (Throttle.invoke args s))
        = [Host.mkTimer id (Throttle.lastCall s + Throttle.limit s) args] /\
        forall t,
          (Throttle.lastCall s + Throttle.limit s <= t)%Z ->
          Throttle.fn_calls (Throttle.advance t (Throttle.invoke args s))
          = Throttle.fn_calls s
            ++ [((Throttle.lastCall s + Throttle.limit s)%Z, args)]) /\
  (forall s, Throttle.tidy s ->
             (forall args, Throttle.tidy (Throttle.invoke args s)) /\
             (forall t, Throttle.tidy (Throttle.advance t s))) /\
  (forall limit now, Throttle.tidy (Throttle.throttle limit now)).
Proof.
  split; [|split; [|split; [|exact tidy_new]]].
  - intros s args Ht H.
    destruct (invoke_leading args s Ht) as (Hc & Hl & Hq); [lia|].
    repeat split; try assumption.
    intros t. now apply advance_idle.
  - intros s args Ht H. unfold Host.honoured in H.
    destruct (invoke_trailing args s Ht) as (Hc & Hl & id & Hq & Hid); [lia|].
    split; [exact Hc|]. exists id. split; [exact Hq|].
    intros t Hdue.
    destruct (advance_fires _ t _ Hq Hdue) as (Hf & _).
    rewrite Hf, Hc. reflexivity.
  - intros s Ht. split; intros; [now apply tidy_invoke|now apply tidy_advance].
Qed.

(** ** Dispatcher *)

Section GrowthFacts.

Lemma grows_refl w : grows w w.
Proof. split; exists []; now rewrite app_nil_r. Qed.

Lemma grows_trans w1 w2 w3 : grows w1 w2 -> grows w2 w3 -> grows w1 w3.
Proof.
  intros [[t1 Ht1] [d1 Hd1]] [[t2 Ht2] [d2 Hd2]]. split.
  - exists (t1 ++ t2). now rewrite Ht2, Ht1, app_assoc.
  - exists (d1 ++ d2). now rewrite Hd2, Hd1, app_assoc.
Qed.

Lemma grows_record e w : grows w (record e w).
Proof. split; [now exists [e]|exists []; simpl; now rewrite app_nil_r]. Qed.

Lemma grows_log d w : grows w (log d w).
Proof. split; [exists []; simpl; now rewrite app_nil_r|now exists [d]]. Qed.

Lemma grows_set_listeners m w : grows w (set_listeners m w).
Proof. split; exists []; simpl; now rewrite app_nil_r. Qed.

Lemma grows_fresh w : grows w (fresh w).
Proof. split; exists []; simpl; now rewrite app_nil_r. Qed.

Lemma grows_on event cb w : grows w (fst (on event cb w)).
Proof.
  rewrite on_spec. simpl. destruct (Nat.leb _ _).
  - eapply grows_trans; [apply grows_log|apply grows_set_listeners].
  - apply grows_set_listeners.
Qed.

Lemma grows_once event cb w : grows w (fst (once event cb w)).
Proof.
  unfold once. eapply grows_trans; [apply grows_fresh|apply grows_on].
Qed.

Lemma grows_off event cb w : grows w (fst (off event cb w)).
Proof.
  unfold off. destruct (negb (truthy_value cb)); simpl.
  { apply grows_set_listeners. }
  destruct (JsMap.get event (listeners w)); [|apply grows_refl].
  destruct (findIndex cb l 0); [|apply grows_refl].
  destruct (Nat.eqb _ 0); apply grows_set_listeners.
Qed.

Section Loops.

Variable call : Caller.
Hypothesis call_grows :
  forall l a w w' c, call l a w = Some (w', c) -> grows w w'.
Variable event : string.
Variable args : list Value.

Lemma dispatch_grows :
  forall ls called w w' called',
    dispatch call event args ls called w = Some (w', called') ->
    grows w w'.
Proof.
  induction ls as [|l ls IH]; intros called w w' called' H; simpl in H.
  - inversion H; subst. apply grows_refl.
  - destruct (call l args (record (Dispatched event l) w))
      as [[w1 [u|e]]|] eqn:Hc; [| |discriminate].
    + eapply grows_trans; [apply grows_record|].
      eapply grows_trans; [eapply call_grows, Hc|]. eapply IH, H.
    + eapply grows_trans; [apply grows_record|].
      eapply grows_trans; [eapply call_grows, Hc|].
      eapply grows_trans; [apply grows_log|]. eapply IH, H.
Qed.

Lemma emit_loop_grows :
  forall budget i called w w' c,
    emit_loop call event args budget i called w = Some (w', c) ->
    grows w w'.
Proof.
  induction budget as [|budget IH]; intros i called w w' c H;
    simpl in H; [discriminate|].
  destruct (nth_error (listeners w) i) as [[[p ls]|]|].
  - destruct (Matcher._matches p event); [|eapply IH, H].
    destruct (dispatch call event args ls called w) as [[w1 b1]|] eqn:Hd;
      [|discriminate].
    eapply grows_trans; [eapply dispatch_grows, Hd|eapply IH, H].
  - eapply IH, H.
  - inversion H; subst. apply grows_refl.
Qed.

(** [emit] hands no error on: whatever the listeners do, its own
    completion is normal. *)
Lemma emit_loop_normal :
  forall budget i called w w' c,
    emit_loop call event args budget i called w = Some (w', c) ->
    exists b, c = Normal b.
Proof.
  induction budget as [|budget IH]; intros i called w w' c H;
    simpl in H; [discriminate|].
  destruct (nth_error (listeners w) i) as [[[p ls]|]|].
  - destruct (Matcher._matches p event); [|eapply IH, H].
    destruct (dispatch call event args ls called w) as [[w1 b1]|];
      [eapply IH, H|discriminate].
  - eapply IH, H.
  - inversion H; subst. now eexists.
Qed.

End Loops.

Lemma run_grows emit_fn :
  (forall ev a w w' c, emit_fn ev a w = Some (w', c) -> grows w w') ->
  forall cmd w w' c, run emit_fn cmd w = Some (w', c) -> grows w w'.
Proof.
  intros Hemit.
  induction cmd as [| n | ev cb k IH | ev cb k IH | ev cb k IH
                    | ev a k IH | ev k IH]; intros w w' c H; simpl in H.
  - inversion H; subst. apply grows_refl.
  - inversion H; subst. apply grows_refl.
  - pose proof (grows_on ev cb w) as G.
    destruct (on ev cb w) as [w1 [tok|e]]; simpl in G.
    + eapply grows_trans; [exact G|eapply IH, H].
    + inversion H; subst. exact G.
  - pose proof (grows_once ev cb w) as G.
    destruct (once ev cb w) as [w1 [tok|e]]; simpl in G.
    + eapply grows_trans; [exact G|eapply IH, H].
    + inversion H; subst. exact G.
  - pose proof (grows_off ev cb w) as G.
    destruct (off ev cb w) as [w1 [u|e]]; simpl in G.
    + eapply grows_trans; [exact G|eapply IH, H].
    + inversion H; subst. exact G.
  - destruct (emit_fn ev a w) as [[w1 [b|e]]|] eqn:He; [| |discriminate].
    + eapply grows_trans; [eapply Hemit, He|eapply IH, H].
    + inversion H; subst. eapply Hemit, He.
  - eapply IH, H.
Qed.

Lemma call_grows code :
  forall fuel l a w w' c,
    call code fuel l a w = Some (w', c) -> grows w w'.
Proof.
  induction fuel as [|n IH]; intros l a w w' c H; simpl in H;
    [discriminate|].
  destruct l as [| t tag | id | id ev cb].
  - inversion H; subst. apply grows_refl.
  - inversion H; subst. apply grows_refl.
  - eapply grows_trans; [apply grows_record|].
    eapply run_grows; [|exact H].
    intros ev a' w0 w0' c0 He. eapply emit_loop_grows; [|exact He].
    exact IH.
  - pose proof (grows_off ev (VOnce id ev cb) w) as G.
    destruct (off ev (VOnce id ev cb) w) as [w1 [u|e]]; simpl in G.
    + eapply grows_trans; [exact G|eapply IH, H].
    + inversion H; subst. exact G.
Qed.

End GrowthFacts.

Section PassFacts.

Lemma pass_trace_cons event l ls o outs :
  pass_trace event (l :: ls) (o :: outs) =
  Dispatched event l :: o_trace o ++ pass_trace event ls outs.
Proof. reflexivity. Qed.

Lemma pass_trace_app event ls1 ls2 outs1 outs2 :
  length outs1 = length ls1 ->
  pass_trace event (ls1 ++ ls2) (outs1 ++ outs2) =
  pass_trace event ls1 outs1 ++ pass_trace event ls2 outs2.
Proof.
  revert outs1. induction ls1 as [|l ls1 IH]; intros [|o outs1] Hlen;
    simpl in Hlen; try discriminate.
  - reflexivity.
  - simpl app. rewrite !pass_trace_cons, IH by lia.
    now rewrite <- app_assoc.
Qed.

Lemma pass_console_app event outs1 outs2 :
  pass_console event (outs1 ++ outs2) =
  pass_console event outs1 ++ pass_console event outs2.
Proof. apply flat_map_app. Qed.

Variable code : Code.
Variable fuel : nat.
Variable event : string.
Variable args : list Value.

(** One pass over a snapshot calls every listener of the snapshot, in
    order and whatever the completions of the calls before it; every
    throw is followed by its report; the flag is raised by the calls
    that completed normally, and only by them. *)
Lemma dispatch_outcomes :
  forall ls called w w' called',
    dispatch (call code fuel) event args ls called w = Some (w', called') ->
    exists outs,
      length outs = length ls /\
      trace w' = trace w ++ pass_trace event ls outs /\
      console w' = console w ++ pass_console event outs /\
      called' = called || existsb completed outs.
Proof.
  induction ls as [|l ls IH]; intros called w w' called' H; simpl in H.
  - inversion H; subst. exists []. simpl.
    now rewrite !app_nil_r, orb_false_r.
  - destruct (call code fuel l args (record (Dispatched event l) w))
      as [[w1 c]|] eqn:Hc; [|discriminate].
    destruct (call_grows _ _ _ _ _ _ _ Hc) as [[t Ht] [d Hd]].
    simpl in Ht, Hd.
    destruct c as [u|e].
    + destruct (IH _ _ _ _ H) as (outs & Hlen & Htr & Hco & Hb).
      exists (mkOutcome t d (Normal u) :: outs).
      rewrite pass_trace_cons. simpl.
      split; [lia|]. split; [|split].
      * rewrite Htr, Ht, <- !app_assoc. reflexivity.
      * rewrite Hco, Hd, app_nil_r, <- !app_assoc. reflexivity.
      * rewrite Hb. simpl. now rewrite orb_true_r.
    + destruct (IH _ _ _ _ H) as (outs & Hlen & Htr & Hco & Hb).
      exists (mkOutcome t d (Throw e) :: outs).
      rewrite pass_trace_cons. simpl.
      split; [lia|]. split; [|split].
      * rewrite Htr. simpl. rewrite Ht, <- !app_assoc. reflexivity.
      * rewrite Hco. simpl. rewrite Hd, <- !app_assoc. reflexivity.
      * exact Hb.
Qed.

Lemma targets_cons_live p ls m :
  targets event (Some (p, ls) :: m) =
  (if Matcher._matches p event then ls else []) ++ targets event m.
Proof.
  unfold targets. simpl. now destruct (Matcher._matches p event).
Qed.

Lemma targets_cons_deleted m : targets event (None :: m) = targets event m.
Proof. reflexivity. Qed.

Lemma targets_incl p ls m :
  In (Some (p, ls)) m -> Matcher._matches p event = true ->
  incl ls (targets event m).
Proof.
  induction m as [|[[q qs]|] m IH]; intros Hin Hm l Hl.
  - contradiction.
  - rewrite targets_cons_live. apply in_or_app.
    destruct Hin as [Heq|Hin].
    + inversion Heq; subst. rewrite Hm. now left.
    + right. now apply IH.
  - rewrite targets_cons_deleted. destruct Hin as [Heq|Hin];
      [discriminate|]. now apply IH.
Qed.

(** The pass of [emit] over a snapshot is a pass that isolates
    failures. *)
Lemma dispatch_pass :
  forall ls called w w' called',
    dispatch (call code fuel) event args ls called w = Some (w', called') ->
    exists outs,
      Pass (call code fuel) event args ls outs w w' /\
      called' = called || existsb completed outs.
Proof.
  induction ls as [|l ls IH]; intros called w w' called' H; simpl in H.
  - inversion H; subst. exists []. split; [constructor|].
    simpl. now rewrite orb_false_r.
  - destruct (call code fuel l args (record (Dispatched event l) w))
      as [[w1 c]|] eqn:Hc; [|discriminate].
    destruct (call_grows _ _ _ _ _ _ _ Hc) as [[t Ht] [d Hd]].
    simpl in Ht, Hd. rewrite <- app_assoc in Ht. simpl in Ht.
    destruct c as [u|e].
    + destruct (IH _ _ _ _ H) as (outs & Hp & Hb).
      exists (mkOutcome t d (Normal u) :: outs). split.
      * econstructor; [exact Hc|exact Ht|exact Hd|exact Hp].
      * rewrite Hb. simpl. now rewrite orb_true_r.
    + destruct (IH _ _ _ _ H) as (outs & Hp & Hb).
      exists (mkOutcome t d (Throw e) :: outs). split.
      * econstructor; [exact Hc|exact Ht|exact Hd|exact Hp].
      * exact Hb.
Qed.

(** What such a pass leaves on the trace and on the console. *)
Lemma pass_account (callee : Caller) :
  forall ls outs w w',
    Pass callee event args ls outs w w' ->
    length outs = length ls /\
    trace w' = trace w ++ pass_trace event ls outs /\
    console w' = console w ++ pass_console event outs.
Proof.
  intros ls outs w w' H.
  induction H as [w|l ls o outs w w1 w' Hc Ht Hd Hp (Hlen & Htr & Hco)].
  - simpl. now rewrite !app_nil_r.
  - split; [simpl; lia|]. rewrite pass_trace_cons. split.
    + rewrite Htr. unfold reported. destruct (o_result o); simpl;
        rewrite Ht, <- !app_assoc; reflexivity.
    + rewrite Hco. unfold reported. simpl.
      destruct (o_result o); simpl; rewrite Hd, <- !app_assoc;
        reflexivity.
Qed.

(** The loop of [emit] over the registry is a walk that goes on after
    every pass. *)
Lemma emit_loop_visits :
  forall budget i called w w' c,
    emit_loop (call code fuel) event args budget i called w = Some (w', c) ->
    exists passes,
      Visits (call code fuel) event args i w passes w' /\
      c = Normal (called || existsb completed (flat_map snd passes)).
Proof.
  induction budget as [|budget IH]; intros i called w w' c H;
    simpl in H; [discriminate|].
  destruct (nth_error (listeners w) i) as [[[p ls]|]|] eqn:Hn.
  - destruct (Matcher._matches p event) eqn:Hm.
    + destruct (dispatch (call code fuel) event args ls called w)
        as [[w1 b1]|] eqn:Hd; [|discriminate].
      destruct (dispatch_pass _ _ _ _ _ Hd) as (outs & Hp & Hb).
      destruct (IH _ _ _ _ _ H) as (passes & Hv & Hc).
      exists ((ls, outs) :: passes). split.
      * eapply Visits_match; eassumption.
      * rewrite Hc, Hb. simpl. now rewrite existsb_app, orb_assoc.
    + destruct (IH _ _ _ _ _ H) as (passes & Hv & Hc).
      exists passes. split; [|exact Hc].
      eapply Visits_other; eassumption.
  - destruct (IH _ _ _ _ _ H) as (passes & Hv & Hc).
    exists passes. split; [|exact Hc].
    eapply Visits_deleted; eassumption.
  - inversion H; subst. exists []. split; [now constructor|].
    simpl. now rewrite orb_false_r.
Qed.

Lemma visits_account (callee : Caller) :
  forall i w passes w',
    Visits callee event args i w passes w' ->
    trace w' = trace w ++ walk_trace event passes /\
    console w' = console w ++ walk_console event passes.
Proof.
  intros i w passes w' H.
  induction H as [i w Hn
                 |i w passes w' Hn Hv IH
                 |i w p ls passes w' Hn Hm Hv IH
                 |i w p ls outs w1 passes w' Hn Hm Hp Hv (Htr & Hco)];
    try exact IH.
  - simpl. now rewrite !app_nil_r.
  - destruct (pass_account _ _ _ _ _ Hp) as (_ & Htr1 & Hco1).
    unfold walk_trace, walk_console. simpl.
    fold (walk_trace event passes). fold (walk_console event passes).
    rewrite Htr, Hco, Htr1, Hco1, <- !app_assoc. now split.
Qed.

(** Listeners that may change the registry, but keep it within a set
    [inv] of registries of at most [bound] slots, and return: [emit]
    then comes to an end. *)
Section Bounded.

Variable inv : JsMap.t (list Value) -> Prop.
Variable bound : nat.

Hypothesis inv_bound : forall m, inv m -> length m <= bound.

Hypothesis inv_kept :
  forall m p ls l w1,
    inv m -> In (Some (p, ls)) m -> Matcher._matches p event = true ->
    In l ls -> inv (listeners w1) ->
    exists w2 c, call code fuel l args w1 = Some (w2, c) /\ inv (listeners w2).

Lemma dispatch_bounded m p ls0 :
  inv m -> In (Some (p, ls0)) m -> Matcher._matches p event = true ->
  forall ls called w,
    incl ls ls0 -> inv (listeners w) ->
    exists w' called',
      dispatch (call code fuel) event args ls called w = Some (w', called') /\
      inv (listeners w').
Proof.
  intros Hm Hin Hp.
  induction ls as [|l ls IH]; intros called w Hincl Hw; simpl.
  - now do 2 eexists.
  - destruct (inv_kept m p ls0 l (record (Dispatched event l) w))
      as (w2 & c & Hc & Hw2); try assumption; [apply Hincl; now left|].
    rewrite Hc.
    assert (Hincl' : incl ls ls0) by (intros x Hx; apply Hincl; now right).
    destruct c as [u|e]; apply IH; assumption.
Qed.

Lemma emit_loop_bounded :
  forall budget i called w,
    inv (listeners w) -> bound - i < budget ->
    exists w' b,
      emit_loop (call code fuel) event args budget i called w
      = Some (w', Normal b) /\
      inv (listeners w').
Proof.
  induction budget as [|budget IH]; intros i called w Hw Hb; [lia|].
  simpl.
  destruct (nth_error (listeners w) i) as [[[p ls]|]|] eqn:Hn.
  - assert (Hi : i < length (listeners w))
      by (apply nth_error_Some; congruence).
    pose proof (inv_bound _ Hw) as Hlen.
    destruct (Matcher._matches p event) eqn:Hm.
    + destruct (dispatch_bounded (listeners w) p ls Hw
                  (nth_error_In _ _ Hn) Hm ls called w)
        as (w1 & c1 & Hd & Hw1); [apply incl_refl|exact Hw|].
      rewrite Hd. apply IH; [exact Hw1|lia].
    + apply IH; [exact Hw|lia].
  - assert (Hi : i < length (listeners w))
      by (apply nth_error_Some; congruence).
    pose proof (inv_bound _ Hw) as Hlen.
    apply IH; [exact Hw|lia].
  - now do 2 eexists.
Qed.

End Bounded.

Variable m : JsMap.t (list Value).

(** The listeners of the matching patterns return and leave the
    registry as they found it. *)
Hypothesis settled :
  forall l w1,
    In l (targets event m) -> listeners w1 = m ->
    exists w2 c, call code fuel l args w1 = Some (w2, c) /\ listeners w2 = m.

Lemma dispatch_settled :
  forall ls called w,
    incl ls (targets event m) -> listeners w = m ->
    exists w' called',
      dispatch (call code fuel) event args ls called w = Some (w', called') /\
      listeners w' = m.
Proof.
  induction ls as [|l ls IH]; intros called w Hincl Hw; simpl.
  - now do 2 eexists.
  - destruct (settled l (record (Dispatched event l) w))
      as (w2 & c & Hc & Hw2); [apply Hincl; now left|exact Hw|].
    rewrite Hc.
    assert (Hincl' : incl ls (targets event m))
      by (intros x Hx; apply Hincl; now right).
    destruct c as [u|e]; apply IH; assumption.
Qed.

Lemma emit_loop_settled :
  forall budget i called w,
    listeners w = m -> length m - i < budget ->
    exists w' outs,
      emit_loop (call code fuel) event args budget i called w
      = Some (w', Normal (called || existsb completed outs)) /\
      listeners w' = m /\
      length outs = length (targets event (skipn i m)) /\
      trace w' = trace w ++ pass_trace event (targets event (skipn i m)) outs /\
      console w' = console w ++ pass_console event outs.
Proof.
  induction budget as [|budget IH]; intros i called w Hw Hb; [lia|].
  simpl. rewrite Hw.
  destruct (nth_error m i) as [[[p ls]|]|] eqn:Hn.
  - assert (Hi : i < length m) by (apply nth_error_Some; congruence).
    rewrite (skipn_nth_error _ _ _ Hn), targets_cons_live.
    destruct (Matcher._matches p event) eqn:Hm.
    + destruct (dispatch_settled ls called w) as (w1 & c1 & Hd & Hw1);
        [eapply targets_incl; [eapply nth_error_In, Hn|exact Hm]
        |exact Hw|].
      rewrite Hd.
      destruct (dispatch_outcomes _ _ _ _ _ Hd)
        as (outs1 & Hl1 & Ht1 & Hc1 & Hb1).
      destruct (IH (S i) c1 w1 Hw1) as (w' & outs2 & He & Hw' & Hl2 & Ht2 & Hc2);
        [lia|].
      exists w', (outs1 ++ outs2).
      rewrite He, Hb1, existsb_app, orb_assoc.
      split; [reflexivity|]. split; [exact Hw'|].
      split; [rewrite !length_app; lia|]. split.
      * rewrite Ht2, Ht1, pass_trace_app, <- app_assoc by exact Hl1.
        reflexivity.
      * rewrite Hc2, Hc1, pass_console_app, <- app_assoc. reflexivity.
    + simpl. apply IH; [exact Hw|lia].
  - assert (Hi : i < length m) by (apply nth_error_Some; congruence).
    rewrite (skipn_nth_error _ _ _ Hn), targets_cons_deleted.
    apply IH; [exact Hw|lia].
  - apply nth_error_None in Hn. rewrite skipn_all2 by lia.
    exists w, []. simpl. rewrite !app_nil_r, orb_false_r.
    repeat split. exact Hw.
Qed.

End PassFacts.

Example emit_three :
  exists w',
    emit Scenario.thrower 3 "x" [] Scenario.three = Some (w', Normal true) /\
    trace w' = [Dispatched "x" (VFun 0); Entered 0 [];
                Dispatched "x" (VFun 1); Entered 1 [];
                Dispatched "x" (VFun 2); Entered 2 []] /\
    console w' = [ErrorReport "x" (UserError 7)].
Proof. eexists. repeat split. Qed.

(** The iterator of [emit] is live: a pattern registered by a listener
    during the dispatch is visited by the same [emit]. *)
Example emit_visits_new_pattern :
  exists w',
    emit Scenario.registrar 4 "x" [] Scenario.sole = Some (w', Normal true) /\
    trace w' = [Dispatched "x" (VFun 0); Entered 0 [];
                Dispatched "x" (VFun 1); Entered 1 []] /\
    JsMap.entries (listeners w') = [("x", [VFun 0]); ("*", [VFun 1])].
Proof. eexists. repeat split. Qed.

(** C1 (the code at the failing input).  A listener that throws is
    called, and reported, but does not raise the flag [emit] returns:
    with the thrower as the sole listener under the emitted event,
    [emit] returns false. *)
Theorem emit_sole_thrower_returns_false :
  (forall event n args,
      exists w',
        emit (fun _ _ => Raise n) 2 event args
             (fst (on event (VFun 0) constructor))
        = Some (w', Normal false) /\
        trace w' = [Dispatched event (VFun 0); Entered 0 args] /\
        console w' = [ErrorReport event (UserError n)]) /\
  (exists w',
      emit Scenario.thrower 2 "x" [] Scenario.sole = Some (w', Normal false) /\
      entered 0 (trace w') = 1 /\
      console w' = [ErrorReport "x" (UserError 7)]).
Proof.
  split.
  - intros event n args. rewrite on_spec. unfold emit, emit_with. simpl.
    rewrite matches_refl. simpl. eexists. repeat split.
  - eexists. repeat split.
Qed.

(** C2.  An error raised by a listener stops at the [try] of the
    dispatch loop, is reported, and stops nothing else.
    (1) Whatever the listeners do, a finished [emit] completes normally.
    (2) The pass over the snapshot of a matching pattern calls every
    listener of the snapshot, in order, whatever the calls before it
    did; for each call that threw, the report of that error is on the
    console before the next listener is called; the flag is raised by
    the calls that completed normally.
    (3) A finished [emit] has walked over every slot of the registry,
    with such a pass for each slot whose pattern matches, whatever
    happened during the passes before; its result, its console and its
    trace are those of the passes.
    (4) When the listeners return and keep the registry, which they may
    change, within a bounded set, [emit] does finish.
    (5) When they leave the registry as it was, [emit] has called every
    listener of every matching pattern, in registry order. *)
Theorem emit_isolates_listener_failures :
  (forall call event args budget w w' c,
      emit_with call event args budget w = Some (w', c) ->
      exists b, c = Normal b) /\
  (forall code fuel event args ls called w w' called',
      dispatch (call code fuel) event args ls called w = Some (w', called') ->
      exists outs,
        Pass (call code fuel) event args ls outs w w' /\
        called' = called || existsb completed outs /\
        length outs = length ls /\
        trace w' = trace w ++ pass_trace event ls outs /\
        console w' = console w ++ pass_console event outs /\
        (forall o e, In o outs -> o_result o = Throw e ->
                     In (ErrorReport event e) (console w'))) /\
  (forall code fuel event args w w' c,
      emit code fuel event args w = Some (w', c) ->
      exists passes,
        Visits (call code fuel) event args 0 w passes w' /\
        c = Normal (existsb completed (flat_map snd passes)) /\
        trace w' = trace w ++ walk_trace event passes /\
        console w' = console w ++ walk_console event passes) /\
  (forall code fuel event args (inv : JsMap.t (list Value) -> Prop) w,
      (forall m, inv m -> length m < fuel) ->
      (forall m p ls l w1,
          inv m -> In (Some (p, ls)) m -> Matcher._matches p event = true ->
          In l ls -> inv (listeners w1) ->
          exists w2 c,
            call code fuel l args w1 = Some (w2, c) /\ inv (listeners w2)) ->
      inv (listeners w) ->
      exists w' b,
        emit code fuel event args w = Some (w', Normal b) /\
        inv (listeners w')) /\
  (forall code fuel event args w,
      length (listeners w) < fuel ->
      (forall l w1,
          In l (targets event (listeners w)) -> listeners w1 = listeners w ->
          exists w2 c,
            call code fuel l args w1 = Some (w2, c) /\
            listeners w2 = listeners w) ->
      exists w' outs,
        emit code fuel event args w
        = Some (w', Normal (existsb completed outs)) /\
        listeners w' = listeners w /\
        length outs = length (targets event (listeners w)) /\
        trace w' = trace w
                   ++ pass_trace event (targets event (listeners w)) outs /\
        console w' = console w ++ pass_console event outs).
Proof.
  split; [|split; [|split; [|split]]].
  - intros call event args budget w w' c H.
    eapply emit_loop_normal, H.
  - intros code fuel event args ls called w w' called' H.
    destruct (dispatch_pass _ _ _ _ _ _ _ _ _ H) as (outs & Hp & Hb).
    destruct (pass_account _ _ _ _ _ _ _ Hp) as (Hlen & Htr & Hco).
    exists outs. repeat (split; [assumption|]).
    intros o e Hin Ho. rewrite Hco. apply in_or_app. right.
    unfold pass_console. apply in_flat_map. exists o. split; [exact Hin|].
    apply in_or_app. right. rewrite Ho. now left.
  - intros code fuel event args w w' c H.
    destruct (emit_loop_visits _ _ _ _ _ _ _ _ _ _ H) as (passes & Hv & Hc).
    destruct (visits_account _ _ _ _ _ _ _ Hv) as (Htr & Hco).
    exists passes. now repeat split.
  - intros code fuel event args inv w Hbound Hkept Hw.
    apply (emit_loop_bounded code fuel event args inv (fuel - 1));
      [intros m Hm; specialize (Hbound m Hm); lia
      |exact Hkept|exact Hw|specialize (Hbound _ Hw); lia].
  - intros code fuel event args w Hfuel Hsettled.
    destruct (emit_loop_settled code fuel event args (listeners w) Hsettled
                                fuel 0 false w eq_refl)
      as (w' & outs & He & Hrest); [lia|].
    exists w', outs. split; [exact He|exact Hrest].
Qed.

Lemma registrar_keeps k k1 p ls l w1 :
  In (Some (p, ls)) (Scenario.registered k) -> In l ls ->
  listeners w1 = Scenario.registered k1 ->
  exists w2 c,
    call Scenario.registrar 4 l [] w1 = Some (w2, c) /\
    Scenario.registered_so_far (listeners w2).
Proof.
  intros Hin Hl Hw1.
  assert (Hcase : l = VFun 0 \/ l = VFun 1).
  { destruct k as [|k]; simpl in Hin.
    - destruct Hin as [Heq|[]]. inversion Heq; subst.
      destruct Hl as [<-|[]]. now left.
    - destruct Hin as [Heq|[Heq|[]]]; inversion Heq; subst.
      + destruct Hl as [<-|[]]. now left.
      + apply (repeat_spec (S k)) in Hl. now right. }
  destruct Hcase as [->| ->].
  - change (call Scenario.registrar 4 (VFun 0) [] w1)
      with (run (fun ev a => emit_with (call Scenario.registrar 3) ev a 3)
                (CallOn "*" (VFun 1) (fun _ => Ret))
                (record (Entered 0 []) w1)).
    cbn [run]. rewrite on_spec. cbn [run].
    do 2 eexists. split; [reflexivity|].
    exists (S k1). cbn [set_listeners listeners].
    unfold listeners_of. cbn [record listeners]. rewrite Hw1.
    destruct k1 as [|k1]; [reflexivity|].
    change (Scenario.registered (S k1))
      with [Some ("x", [VFun 0]); Some ("*", repeat (VFun 1) (S k1))].
    change (Scenario.registered (S (S k1)))
      with [Some ("x", [VFun 0]); Some ("*", VFun 1 :: repeat (VFun 1) (S k1))].
    rewrite repeat_cons. reflexivity.
  - do 2 eexists. split; [reflexivity|]. now exists k1.
Qed.

Lemma emit_isolates_listener_failures_witness :
  (exists b, @Normal bool true = Normal b) /\
  (exists outs,
      Pass (call Scenario.thrower 3) "x" [] [VFun 0; VFun 1] outs
           Scenario.three Scenario.after_pass /\
      true = false || existsb completed outs /\
      length outs = length [VFun 0; VFun 1] /\
      trace Scenario.after_pass
      = trace Scenario.three ++ pass_trace "x" [VFun 0; VFun 1] outs /\
      console Scenario.after_pass
      = console Scenario.three ++ pass_console "x" outs /\
      (forall o e, In o outs -> o_result o = Throw e ->
                   In (ErrorReport "x" e) (console Scenario.after_pass))) /\
  (exists passes,
      Visits (call Scenario.thrower 3) "x" [] 0 Scenario.three passes
             Scenario.after_emit /\
      @Normal bool true = Normal (existsb completed (flat_map snd passes)) /\
      trace Scenario.after_emit
      = trace Scenario.three ++ walk_trace "x" passes /\
      console Scenario.after_emit
      = console Scenario.three ++ walk_console "x" passes) /\
  (exists w' b,
      emit Scenario.registrar 4 "x" [] Scenario.sole = Some (w', Normal b) /\
      Scenario.registered_so_far (listeners w')) /\
  (exists w' outs,
      emit Scenario.thrower 3 "x" [] Scenario.three
      = Some (w', Normal (existsb completed outs)) /\
      listeners w' = listeners Scenario.three /\
      length outs = length (targets "x" (listeners Scenario.three)) /\
      trace w' = trace Scenario.three
                 ++ pass_trace "x" (targets "x" (listeners Scenario.three)) outs /\
      console w' = console Scenario.three ++ pass_console "x" outs).
Proof.
  split; [|split; [|split; [|split]]].
  - apply (proj1 emit_isolates_listener_failures
                 (call Scenario.thrower 3) "x" [] 3 Scenario.three
                 Scenario.after_emit (Normal true)).
    reflexivity.
  - apply (proj1 (proj2 emit_isolates_listener_failures)
                 Scenario.thrower 3 "x" [] [VFun 0; VFun 1] false
                 Scenario.three Scenario.after_pass true).
    reflexivity.
  - apply (proj1 (proj2 (proj2 emit_isolates_listener_failures))
                 Scenario.thrower 3 "x" [] Scenario.three
                 Scenario.after_emit (Normal true)).
    reflexivity.
  - apply (proj1 (proj2 (proj2 (proj2 emit_isolates_listener_failures)))
                 Scenario.registrar 4 "x" [] Scenario.registered_so_far
                 Scenario.sole).
    + intros m [k ->]. destruct k; simpl; lia.
    + intros m p ls l w1 [k ->] Hin Hm Hl [k1 Hw1].
      exact (registrar_keeps k k1 p ls l w1 Hin Hl Hw1).
    + now exists 0.
  - apply (proj2 (proj2 (proj2 (proj2 emit_isolates_listener_failures)))).
    + vm_compute. lia.
    + intros l w1 Hl Hw1.
      cbv in Hl. destruct Hl as [<-|[<-|[<-|[]]]];
        simpl; do 2 eexists; (split; [reflexivity|exact Hw1]).
Defined.

(** ** Fire-once listeners *)

Section OnceFacts.

Lemma findIndex_overlooked cb pre :
  Forall (overlooked cb) pre ->
  forall rest k,
    findIndex cb (pre ++ rest) k = findIndex cb rest (k + length pre).
Proof.
  induction 1 as [|fn pre [Hdef Hrf] _ IH]; intros rest k; simpl.
  - now rewrite Nat.add_0_r.
  - unfold refers in Hrf. apply orb_false_elim in Hrf as [H1 H2].
    rewrite H1. destruct fn as [| t n | i | i e o]; simpl in *;
      try contradiction; try rewrite H2; rewrite IH; f_equal; lia.
Qed.

Lemma findIndex_hit cb fn post k :
  refers cb fn = true -> findIndex cb (fn :: post) k = Normal (Some k).
Proof.
  unfold refers. intros H. simpl.
  destruct (strict_eq fn cb); [reflexivity|]. simpl in H.
  destruct (get_original fn) as [o|e]; [|discriminate].
  now rewrite H.
Qed.

Lemma findIndex_undefined cb post k :
  truthy_value cb = true ->
  findIndex cb (VUndefined :: post) k = Throw TypeError.
Proof.
  intros Ht. destruct cb; try discriminate Ht; reflexivity.
Qed.

Lemma splice1_middle (pre : list Value) fn post :
  splice1 (length pre) (pre ++ fn :: post) = pre ++ post.
Proof. induction pre as [|x pre IH]; simpl; [reflexivity|now rewrite IH]. Qed.

(** The world [off] leaves when the first entry that refers to the
    callback is [fn], between [pre] and [post]. *)
Lemma off_first_referring event cb w pre fn post :
  truthy_value cb = true ->
  JsMap.get event (listeners w) = Some (pre ++ fn :: post) ->
  Forall (overlooked cb) pre ->
  refers cb fn = true ->
  off event cb w =
  (set_listeners
     (if Nat.eqb (length (pre ++ post)) 0
      then JsMap.delete event (JsMap.set event (pre ++ post) (listeners w))
      else JsMap.set event (pre ++ post) (listeners w)) w,
   Normal tt).
Proof.
  intros Ht Hg Hpre Hfn. unfold off. rewrite Ht, Hg. simpl negb. cbv iota.
  rewrite (findIndex_overlooked _ _ Hpre), (findIndex_hit _ _ _ _ Hfn).
  simpl Nat.add. rewrite splice1_middle.
  now destruct (Nat.eqb (length (pre ++ post)) 0).
Qed.

Lemma get_In_slot {V} k (v : V) m :
  JsMap.get k m = Some v -> In (Some (k, v)) m.
Proof.
  induction m as [|[[k' u]|] m IH]; simpl; intros H.
  - discriminate.
  - destruct (String.eqb k k') eqn:E.
    + apply String.eqb_eq in E. inversion H. subst. now left.
    + right. now apply IH.
  - right. now apply IH.
Qed.

Lemma set_absent {V} k (v : V) m :
  JsMap.get k m = None -> JsMap.set k v m = m ++ [Some (k, v)].
Proof.
  induction m as [|[[k' u]|] m IH]; simpl; intros H.
  - reflexivity.
  - destruct (String.eqb k k'); [discriminate|]. now rewrite IH.
  - now rewrite IH.
Qed.

Lemma get_last {V} k (v : V) m :
  JsMap.get k m = None -> JsMap.get k (m ++ [Some (k, v)]) = Some v.
Proof.
  intros H. rewrite <- (set_absent k v m H). apply get_set_same.
Qed.

Lemma set_last {V} k (v v' : V) m :
  JsMap.get k m = None ->
  JsMap.set k v' (m ++ [Some (k, v)]) = m ++ [Some (k, v')].
Proof.
  intros H. rewrite <- (set_absent k v m H), set_set.
  now apply set_absent.
Qed.

Lemma delete_last {V} k (v : V) m :
  JsMap.get k m = None ->
  JsMap.delete k (m ++ [Some (k, v)]) = m ++ [None].
Proof.
  induction m as [|[[k' u]|] m IH]; simpl; intros H.
  - now rewrite String.eqb_refl.
  - destruct (String.eqb k k'); [discriminate|]. now rewrite IH.
  - now rewrite IH.
Qed.

Lemma unheard_get event p m :
  unheard event m -> Matcher._matches p event = true ->
  JsMap.get p m = None.
Proof.
  intros Hu Hm. destruct (JsMap.get p m) as [ls|] eqn:Hg; [|reflexivity].
  apply get_In_slot, Hu in Hg. congruence.
Qed.

Lemma unheard_deleted event m : unheard event m -> unheard event (m ++ [None]).
Proof.
  intros Hu p ls Hin. apply in_app_or in Hin as [Hin|[Hin|[]]].
  - eapply Hu, Hin.
  - discriminate.
Qed.

Lemma entered_app id t1 t2 :
  entered id (t1 ++ t2) = entered id t1 + entered id t2.
Proof.
  induction t1 as [|[e l|j a] t1 IH]; simpl; [reflexivity|exact IH|].
  rewrite IH. lia.
Qed.

Variable call : Caller.

Section OneEvent.

Variable event : string.

(** [emit] of an event no registered pattern matches visits the slots
    and returns false, having changed nothing. *)
Lemma emit_loop_unheard args w :
  unheard event (listeners w) ->
  forall budget i called,
    length (listeners w) - i < budget ->
    emit_loop call event args budget i called w = Some (w, Normal called).
Proof.
  intros Hu. induction budget as [|budget IH]; intros i called Hb; [lia|].
  simpl. destruct (nth_error (listeners w) i) as [[[p ls]|]|] eqn:Hn.
  - assert (Hi : i < length (listeners w))
      by (apply nth_error_Some; congruence).
    rewrite (Hu p ls) by (eapply nth_error_In, Hn). apply IH. lia.
  - assert (Hi : i < length (listeners w))
      by (apply nth_error_Some; congruence).
    apply IH. lia.
  - reflexivity.
Qed.

(** The iterator walks over a prefix of slots that do not match. *)
Lemma emit_loop_skip args m rest w called :
  listeners w = m ++ rest ->
  unheard event m ->
  forall d budget i,
    i + d = length m ->
    emit_loop call event args (d + budget) i called w
    = emit_loop call event args budget (length m) called w.
Proof.
  intros Hw Hu. induction d as [|d IH]; intros budget i Hi.
  - simpl. replace i with (length m) by lia. reflexivity.
  - simpl. rewrite Hw.
    assert (Hlt : i < length m) by lia.
    rewrite nth_error_app1 by exact Hlt.
    destruct (nth_error m i) as [[[p ls]|]|] eqn:Hn.
    + rewrite (Hu p ls) by (eapply nth_error_In, Hn). apply IH. lia.
    + apply IH. lia.
    + apply nth_error_None in Hn. lia.
Qed.

End OneEvent.

(** A callback that only emits events nobody listens to finds the world
    as it left it. *)
Lemma run_quiet (quiet : string -> Prop) budget cmd :
  OnlyEmits quiet cmd ->
  forall w,
    (forall e, quiet e -> unheard e (listeners w)) ->
    length (listeners w) < budget ->
    exists c, run (fun ev a => emit_with call ev a budget) cmd w = Some (w, c).
Proof.
  induction 1 as [| n | e a k He Hk IH]; intros w Hu Hb; simpl.
  - now eexists.
  - now eexists.
  - unfold emit_with at 1.
    rewrite emit_loop_unheard by (lia || now apply Hu).
    now apply IH.
Qed.

End OnceFacts.

(** Arithmetic on the length of a registry. *)
Ltac slots_lia := unfold JsMap.t, JsMap.Slot in *; lia.

Section OnceBeside.

Lemma get_middle {V} k (v : V) pre post :
  JsMap.get k pre = None ->
  JsMap.get k (pre ++ Some (k, v) :: post) = Some v.
Proof.
  induction pre as [|[[k' u]|] pre IH]; simpl; intros H.
  - now rewrite String.eqb_refl.
  - destruct (String.eqb k k'); [discriminate|]. now apply IH.
  - now apply IH.
Qed.

Lemma set_middle {V} k (v v' : V) pre post :
  JsMap.get k pre = None ->
  JsMap.set k v' (pre ++ Some (k, v) :: post) = pre ++ Some (k, v') :: post.
Proof.
  induction pre as [|[[k' u]|] pre IH]; simpl; intros H.
  - now rewrite String.eqb_refl.
  - destruct (String.eqb k k'); [discriminate|]. now rewrite IH.
  - now rewrite IH.
Qed.

Lemma delete_middle {V} k (v : V) pre post :
  JsMap.get k pre = None ->
  JsMap.delete k (pre ++ Some (k, v) :: post) = pre ++ None :: post.
Proof.
  induction pre as [|[[k' u]|] pre IH]; simpl; intros H.
  - now rewrite String.eqb_refl.
  - destruct (String.eqb k k'); [discriminate|]. now rewrite IH.
  - now rewrite IH.
Qed.

Lemma get_split {V} k (v : V) m :
  JsMap.get k m = Some v ->
  exists pre post, m = pre ++ Some (k, v) :: post /\ JsMap.get k pre = None.
Proof.
  induction m as [|[[k' u]|] m IH]; simpl; intros H.
  - discriminate.
  - destruct (String.eqb k k') eqn:E.
    + apply String.eqb_eq in E. inversion H; subst.
      now exists [], m.
    + destruct (IH H) as (pre & post & -> & Hg).
      exists (Some (k', u) :: pre), post. split; [reflexivity|].
      simpl. now rewrite E.
  - destruct (IH H) as (pre & post & -> & Hg).
    now exists (None :: pre), post.
Qed.

Lemma targets_app event m1 m2 :
  targets event (m1 ++ m2) = targets event m1 ++ targets event m2.
Proof.
  induction m1 as [|[[p ls]|] m1 IH]; simpl app.
  - reflexivity.
  - now rewrite !targets_cons_live, IH, app_assoc.
  - now rewrite !targets_cons_deleted.
Qed.

Lemma targets_remaining event p ls m :
  targets event (remaining_slot p ls :: m) = targets event (Some (p, ls) :: m).
Proof.
  destruct ls as [|l ls]; [|reflexivity].
  simpl remaining_slot. rewrite targets_cons_deleted, targets_cons_live.
  now destruct (Matcher._matches p event).
Qed.

Lemma call_fun code k id args w :
  call code (S k) (VFun id) args w
  = run (fun ev a => emit_with (call code k) ev a k)
        (code id args) (record (Entered id args) w).
Proof. reflexivity. Qed.

Lemma call_wrapper code k i ev cb args w :
  call code (S k) (VOnce i ev cb) args w
  = match off ev (VOnce i ev cb) w with
    | (w', Throw e) => Some (w', Throw e)
    | (w', Normal _) => call code k cb args w'
    end.
Proof. reflexivity. Qed.

(** What [once] makes of the registry: the wrapper is the last entry of
    the list of its pattern, whose slot stays where it was or is
    appended; without the wrapper the registry reaches the listeners it
    reached before. *)
Lemma once_arms P cb w0 :
  exists pre ls post,
    listeners (fst (once P cb w0))
    = pre ++ Some (P, ls ++ [VOnce (nextId w0) P cb]) :: post /\
    JsMap.get P pre = None /\
    listeners_of P w0 = ls /\
    (forall s, In (Some s) (pre ++ remaining_slot P ls :: post) ->
               In (Some s) (listeners w0)) /\
    (forall event,
        targets event (pre ++ remaining_slot P ls :: post)
        = targets event (listeners w0)) /\
    length (pre ++ remaining_slot P ls :: post) <= S (length (listeners w0)).
Proof.
  unfold once. rewrite on_spec. cbn [fst listeners set_listeners].
  unfold listeners_of. cbn [fresh listeners nextId].
  destruct (JsMap.get P (listeners w0)) as [ls|] eqn:Hg.
  - destruct (get_split _ _ _ Hg) as (pre & post & Hm & Hpre).
    exists pre, ls, post. rewrite Hm at 1.
    split; [now apply set_middle|]. split; [exact Hpre|].
    split; [reflexivity|].
    split; [|split].
    + intros s Hin. rewrite Hm. apply in_or_app.
      apply in_app_or in Hin as [Hin|[Hin|Hin]];
        [now left| |right; now right].
      right. left. destruct ls; [discriminate|exact Hin].
    + intros event. rewrite Hm, !targets_app. f_equal.
      apply targets_remaining.
    + rewrite Hm, !length_app. simpl. unfold JsMap.Slot. lia.
  - exists (listeners w0), [], []. rewrite set_absent by exact Hg.
    split; [reflexivity|]. split; [exact Hg|]. split; [reflexivity|].
    split; [|split].
    + intros s Hin. apply in_app_or in Hin as [Hin|[Hin|[]]];
        [exact Hin|discriminate].
    + intros event. rewrite targets_app. simpl remaining_slot.
      rewrite targets_cons_deleted. unfold targets at 2. simpl.
      now rewrite app_nil_r.
    + rewrite length_app. simpl. unfold JsMap.Slot. lia.
Qed.

Lemma In_splice1 (x : Value) ls : forall i, In x (splice1 i ls) -> In x ls.
Proof.
  induction ls as [|y ls IH]; intros [|i] H; simpl in H.
  - contradiction.
  - contradiction.
  - now right.
  - destruct H as [H|H]; [now left|right; eapply IH, H].
Qed.

Lemma splice1_app (l r : list Value) :
  forall i, i < length l -> splice1 i (l ++ r) = splice1 i l ++ r.
Proof.
  induction l as [|x l IH]; intros [|i] H; simpl in *; try lia.
  - reflexivity.
  - rewrite IH by lia. reflexivity.
Qed.

Lemma findIndex_app cb l r :
  forall k,
    findIndex cb (l ++ r) k =
    match findIndex cb l k with
    | Normal None => findIndex cb r (k + length l)
    | Normal (Some i) => Normal (Some i)
    | Throw e => Throw e
    end.
Proof.
  induction l as [|fn l IH]; intros k; simpl.
  - now rewrite Nat.add_0_r.
  - destruct (strict_eq fn cb); [reflexivity|].
    destruct (get_original fn) as [o|e]; [|reflexivity].
    destruct (strict_eq o cb); [reflexivity|].
    rewrite IH. now replace (S k + length l) with (k + S (length l)) by lia.
Qed.

Lemma findIndex_last_overlooked cb fn k :
  overlooked cb fn -> findIndex cb [fn] k = Normal None.
Proof.
  intros H. change [fn] with ([fn] ++ []).
  rewrite findIndex_overlooked; [reflexivity|now constructor].
Qed.

Lemma findIndex_range cb l :
  forall k i, findIndex cb l k = Normal (Some i) -> k <= i < k + length l.
Proof.
  induction l as [|fn l IH]; intros k i H; simpl in H; [discriminate|].
  destruct (strict_eq fn cb); [inversion H; subst; simpl; lia|].
  destruct (get_original fn) as [o|e]; [|discriminate].
  destruct (strict_eq o cb); [inversion H; subst; simpl; lia|].
  apply IH in H. simpl. lia.
Qed.

(** Shortening the list of one slot, or emptying the slot, takes
    listeners away and adds none. *)
Lemma targets_shrunk_slot event p ls ls' a b :
  incl ls' ls ->
  incl (targets event (a ++ remaining_slot p ls' :: b))
       (targets event (a ++ Some (p, ls) :: b)).
Proof.
  intros Hi. rewrite !targets_app, targets_remaining, !targets_cons_live.
  apply incl_app; [now apply incl_appl, incl_refl|].
  apply incl_appr, incl_app; [|now apply incl_appr, incl_refl].
  apply incl_appl. destruct (Matcher._matches p event); [exact Hi|].
  apply incl_refl.
Qed.

Lemma within_trans m1 m2 m3 : within m1 m2 -> within m2 m3 -> within m1 m3.
Proof. intros H1 H2 e. eapply incl_tran; [apply H2|apply H1]. Qed.

(** What [off] with a truthy callback does to the registry: nothing, or
    it shortens the list of the first slot of the pattern by one entry
    that [findIndex] found, and empties the slot when nothing is left
    of the list. *)
Lemma off_cases ev v w :
  truthy_value v = true ->
  fst (off ev v w) = w \/
  exists a ls b ls',
    listeners w = a ++ Some (ev, ls) :: b /\
    JsMap.get ev a = None /\
    (ls' = ls \/
     exists i, findIndex v ls 0 = Normal (Some i) /\ ls' = splice1 i ls) /\
    fst (off ev v w)
    = set_listeners (a ++ remaining_slot ev ls' :: b) w.
Proof.
  intros Ht. unfold off. rewrite Ht. cbn [negb].
  destruct (JsMap.get ev (listeners w)) as [ls|] eqn:Hg; [|now left].
  destruct (findIndex v ls 0) as [idx|e] eqn:Hf; [|now left].
  right. destruct (get_split _ _ _ Hg) as (a & b & Hm & Ha).
  exists a, ls, b, (match idx with Some i => splice1 i ls | None => ls end).
  split; [exact Hm|]. split; [exact Ha|]. split.
  - destruct idx as [i|]; [right; now exists i|now left].
  - assert (Hset : JsMap.set ev
                     (match idx with Some i => splice1 i ls | None => ls end)
                     (listeners w)
                   = a ++ Some (ev, match idx with
                                    | Some i => splice1 i ls
                                    | None => ls
                                    end) :: b).
    { rewrite Hm. now apply set_middle. }
    rewrite Hset.
    destruct (match idx with Some i => splice1 i ls | None => ls end)
      as [|x rest]; cbn [length Nat.eqb fst remaining_slot].
    + f_equal. now apply delete_middle.
    + reflexivity.
Qed.

(** [off] adds no listener, keeps the number of slots, and records
    nothing. *)
Lemma off_within ev v w m0 :
  truthy_value v = true ->
  within m0 (listeners w) ->
  within m0 (listeners (fst (off ev v w))) /\
  length (listeners (fst (off ev v w))) = length (listeners w) /\
  trace (fst (off ev v w)) = trace w.
Proof.
  intros Ht Hw.
  destruct (off_cases ev v w Ht)
    as [->|(a & ls & b & ls' & Hm & Ha & Hls & ->)]; [now repeat split|].
  cbn [set_listeners listeners trace]. split; [|split; [|reflexivity]].
  - eapply within_trans; [exact Hw|]. intros e. rewrite Hm.
    apply targets_shrunk_slot.
    destruct Hls as [->|(i & _ & ->)]; [apply incl_refl|].
    intros x. apply In_splice1.
  - rewrite Hm, !length_app. reflexivity.
Qed.

Lemma bystanders_targets code c event m :
  bystanders_for code c event m ->
  Forall (bystander code c) (targets event m).
Proof.
  intros H. induction m as [|[[p ls]|] m IH].
  - constructor.
  - rewrite targets_cons_live. apply Forall_app. split.
    + destruct (Matcher._matches p event) eqn:Hm; [|constructor].
      apply (H p ls); [now left|exact Hm].
    + apply IH. intros q l Hin. apply H. now right.
  - rewrite targets_cons_deleted. apply IH.
    intros q l Hin. apply H. now right.
Qed.

Lemma get_shrunk_slot {V} p ev (x : V) (s : JsMap.Slot V) a b :
  s = None \/ (exists y, s = Some (ev, y)) ->
  JsMap.get p (a ++ Some (ev, x) :: b) = None ->
  JsMap.get p (a ++ s :: b) = None.
Proof.
  intros Hs. induction a as [|[[q u]|] a IH]; simpl.
  - destruct (String.eqb p ev) eqn:E; [discriminate|].
    intros H. destruct Hs as [->|[y ->]]; [exact H|].
    now rewrite E.
  - destruct (String.eqb p q); [discriminate|]. exact IH.
  - exact IH.
Qed.

Lemma emit_no_targets call event args :
  forall budget i called w,
    targets event (listeners w) = [] ->
    length (listeners w) - i < budget ->
    emit_loop call event args budget i called w = Some (w, Normal called).
Proof.
  induction budget as [|budget IH]; intros i called w Ht Hb; [lia|].
  cbn [emit_loop].
  destruct (nth_error (listeners w) i) as [[[p ls]|]|] eqn:Hn.
  - assert (Hi : i < length (listeners w))
      by (apply nth_error_Some; congruence).
    destruct (Matcher._matches p event) eqn:Hm; [|apply IH; [exact Ht|lia]].
    pose proof (targets_incl event p ls (listeners w)
                  (nth_error_In _ _ Hn) Hm) as Hincl.
    rewrite Ht in Hincl. destruct ls as [|v ls].
    + cbn [dispatch]. apply IH; [exact Ht|lia].
    + exfalso. apply (Hincl v). now left.
  - assert (Hi : i < length (listeners w))
      by (apply nth_error_Some; congruence).
    apply IH; [exact Ht|lia].
  - reflexivity.
Qed.

Variable code : Code.
Variable c : nat.

Lemma entered_record_other id args w :
  id <> c ->
  entered c (trace (record (Entered id args) w)) = entered c (trace w).
Proof.
  intros H. simpl. rewrite entered_app. simpl.
  destruct (Nat.eqb_spec c id); [congruence|lia].
Qed.

Lemma entered_record_dispatched e l w :
  entered c (trace (record (Dispatched e l) w)) = entered c (trace w).
Proof. simpl. rewrite entered_app. simpl. lia. Qed.

(** [findIndex] looking for the wrapper of [c] passes over a
    bystander, and looking for a bystander passes over the wrapper
    of [c]. *)
Lemma bystander_overlooked i ev v :
  bystander code c v -> overlooked (VOnce i ev (VFun c)) v.
Proof.
  destruct v as [| t tag | id | id' ev' o]; simpl; try contradiction.
  - intros _. split; [discriminate|reflexivity].
  - intros _. split; [discriminate|reflexivity].
  - destruct o as [| t tag | id |]; try contradiction.
    intros [Hne _]. split; [discriminate|].
    unfold refers. simpl.
    destruct (Nat.eqb_spec id c) as [->|_]; [contradiction|].
    now rewrite andb_false_r.
Qed.

Lemma wrapper_overlooked i ev v :
  bystander code c v -> overlooked v (VOnce i ev (VFun c)).
Proof.
  intros Hv. split; [discriminate|].
  destruct v as [| t tag | j | j ev' o]; simpl in Hv; try contradiction.
  - reflexivity.
  - destruct Hv as [Hne _]. unfold refers. simpl.
    destruct (Nat.eqb_spec c j) as [->|_]; [contradiction|reflexivity].
  - destruct o as [| t tag | j' |]; try contradiction.
    destruct Hv as [Hne _]. unfold refers. simpl.
    destruct (Nat.eqb_spec c j') as [->|_]; [contradiction|].
    now rewrite andb_false_r.
Qed.

(** A bystander returns or throws, adds no listener, and does not
    enter [c]. *)
Lemma call_bystander k v args w m0 :
  1 < k ->
  bystander code c v ->
  within m0 (listeners w) ->
  exists w' r,
    call code k v args w = Some (w', r) /\
    within m0 (listeners w') /\
    length (listeners w') = length (listeners w) /\
    entered c (trace w') = entered c (trace w).
Proof.
  intros Hk Hv Hw. destruct k as [|[|k]]; try lia.
  destruct v as [| t tag | id | i ev o]; simpl in Hv; try contradiction.
  - exists w, (Throw TypeError). now repeat split.
  - destruct Hv as [Hne Hbody]. rewrite call_fun.
    destruct (Hbody args) as [-> | [n ->]]; cbn [run]; do 2 eexists;
      (split; [reflexivity|]); (split; [exact Hw|]);
      (split; [reflexivity|]); now apply entered_record_other.
  - destruct o as [| t tag | id |]; try contradiction.
    destruct Hv as [Hne Hbody]. rewrite call_wrapper.
    destruct (off_within ev (VOnce i ev (VFun id)) w m0 eq_refl Hw)
      as (Hw1 & Hl1 & Ht1).
    destruct (off ev (VOnce i ev (VFun id)) w) as [w1 [u|e]];
      cbn [fst] in Hw1, Hl1, Ht1.
    + rewrite call_fun.
      destruct (Hbody args) as [-> | [n ->]]; cbn [run]; do 2 eexists;
        (split; [reflexivity|]); (split; [exact Hw1|]);
        (split; [exact Hl1|]);
        rewrite entered_record_other by exact Hne; now rewrite Ht1.
    + exists w1, (Throw e). split; [reflexivity|]. split; [exact Hw1|].
      split; [exact Hl1|]. now rewrite Ht1.
Qed.

(** A pass over bystanders keeps whatever the calls of bystanders
    keep. *)
Lemma dispatch_keeps (inv : JsMap.t (list Value) -> Prop) k E args ls :
  (forall v w,
      bystander code c v -> inv (listeners w) ->
      exists w' r,
        call code k v args w = Some (w', r) /\
        inv (listeners w') /\
        length (listeners w') = length (listeners w) /\
        entered c (trace w') = entered c (trace w)) ->
  Forall (bystander code c) ls ->
  forall rest called w,
    inv (listeners w) ->
    exists w' b,
      dispatch (call code k) E args (ls ++ rest) called w
      = dispatch (call code k) E args rest b w' /\
      inv (listeners w') /\
      length (listeners w') = length (listeners w) /\
      entered c (trace w') = entered c (trace w).
Proof.
  intros Hcall. induction 1 as [|l ls Hl _ IH]; intros rest called w Hw.
  - exists w, called. now repeat split.
  - cbn [app dispatch].
    destruct (Hcall l (record (Dispatched E l) w) Hl Hw)
      as (w1 & r & Hc & Hw1 & Hl1 & He1).
    rewrite Hc. rewrite entered_record_dispatched in He1.
    cbn [record listeners] in Hl1.
    destruct r as [u|e].
    + destruct (IH rest true w1 Hw1) as (w' & b & Hd & Hw' & Hl' & He').
      exists w', b. split; [exact Hd|]. split; [exact Hw'|].
      split; congruence.
    + destruct (IH rest called (log (ErrorReport E e) w1) Hw1)
        as (w' & b & Hd & Hw' & Hl' & He').
      cbn [log listeners trace] in Hl', He'.
      exists w', b. split; [exact Hd|]. split; [exact Hw'|].
      split; congruence.
Qed.

(** [emit] on a registry whose listeners for the event are bystanders
    comes to an end, adds no listener and does not enter [c]. *)
Lemma emit_loop_within k E args m0 :
  1 < k ->
  Forall (bystander code c) (targets E m0) ->
  forall budget i called w,
    within m0 (listeners w) ->
    length (listeners w) - i < budget ->
    exists w' b,
      emit_loop (call code k) E args budget i called w
      = Some (w', Normal b) /\
      within m0 (listeners w') /\
      length (listeners w') = length (listeners w) /\
      entered c (trace w') = entered c (trace w).
Proof.
  intros Hk Hm0.
  induction budget as [|budget IH]; intros i called w Hw Hb; [lia|].
  cbn [emit_loop].
  destruct (nth_error (listeners w) i) as [[[p ls]|]|] eqn:Hn.
  - assert (Hi : i < length (listeners w))
      by (apply nth_error_Some; congruence).
    destruct (Matcher._matches p E) eqn:Hm.
    + assert (Hls : Forall (bystander code c) ls).
      { apply Forall_forall. intros x Hx.
        eapply Forall_forall; [exact Hm0|]. apply Hw.
        eapply targets_incl; [eapply nth_error_In, Hn|exact Hm|exact Hx]. }
      destruct (dispatch_keeps (within m0) k E args ls
                  (fun v w0 Hv Hw0 => call_bystander k v args w0 m0 Hk Hv Hw0)
                  Hls [] called w Hw)
        as (w1 & b1 & Hd & Hw1 & Hl1 & He1).
      rewrite app_nil_r in Hd. rewrite Hd. cbn [dispatch].
      destruct (IH (S i) b1 w1 Hw1) as (w' & b & Hl & Hw' & Hl' & He');
        [rewrite Hl1; lia|].
      exists w', b. split; [exact Hl|]. split; [exact Hw'|].
      split; congruence.
    + apply IH; [exact Hw|lia].
  - assert (Hi : i < length (listeners w))
      by (apply nth_error_Some; congruence).
    apply IH; [exact Hw|lia].
  - exists w, called. now repeat split.
Qed.

Variable reach : string -> Prop.
Variable m0 : JsMap.t (list Value).

Hypothesis m0_bystanders :
  forall e, reach e -> Forall (bystander code c) (targets e m0).

(** A callback that emits events that only bystanders hear adds no
    listener, and is not entered through them. *)
Lemma run_within k budget cmd :
  1 < k ->
  OnlyEmits reach cmd ->
  forall w,
    within m0 (listeners w) ->
    length (listeners w) < budget ->
    exists w' r,
      run (fun ev a => emit_with (call code k) ev a budget) cmd w
      = Some (w', r) /\
      within m0 (listeners w') /\
      length (listeners w') = length (listeners w) /\
      entered c (trace w') = entered c (trace w).
Proof.
  intros Hk.
  induction 1 as [| n | e a kont He Hk' IH]; intros w Hw Hb; cbn [run].
  - exists w, (Normal tt). now repeat split.
  - exists w, (Throw (UserError n)). now repeat split.
  - unfold emit_with.
    destruct (emit_loop_within k e a m0 Hk (m0_bystanders e He)
                budget 0 false w Hw)
      as (w1 & b & Hl & Hw1 & Hl1 & He1); [lia|].
    rewrite Hl.
    destruct (IH b w1 Hw1) as (w' & r & Hr & Hw' & Hl' & He');
      [rewrite Hl1; exact Hb|].
    exists w', r. split; [exact Hr|]. split; [exact Hw'|].
    split; congruence.
Qed.

Variable P E : string.
Variable id : nat.

Hypothesis P_matches : Matcher._matches P E = true.
Hypothesis cb_only_emits : forall a, OnlyEmits reach (code c a).
Hypothesis reach_E : reach E.

(** The bystanders that share the list of [P] with the wrapper. *)
Lemma armed_list pre l post :
  within m0 (pre ++ remaining_slot P l :: post) ->
  Forall (bystander code c) l.
Proof.
  intros Hw. destruct l as [|x l]; [constructor|].
  apply Forall_forall. intros y Hy.
  eapply Forall_forall; [exact (m0_bystanders E reach_E)|].
  apply Hw.
  eapply (targets_incl E P (x :: l)); [|exact P_matches|exact Hy].
  apply in_or_app. right. now left.
Qed.

Lemma armed_prefix pre l post p l0 :
  within m0 (pre ++ remaining_slot P l :: post) ->
  In (Some (p, l0)) pre -> Matcher._matches p E = true ->
  Forall (bystander code c) l0.
Proof.
  intros Hw Hin Hm. apply Forall_forall. intros y Hy.
  eapply Forall_forall; [exact (m0_bystanders E reach_E)|].
  apply Hw.
  eapply (targets_incl E p l0); [|exact Hm|exact Hy].
  apply in_or_app. now left.
Qed.

(** The wrapper finds itself, behind the bystanders of its list, and
    takes itself out. *)
Lemma off_armed w pre l post :
  listeners w = pre ++ Some (P, l ++ [VOnce id P (VFun c)]) :: post ->
  JsMap.get P pre = None ->
  Forall (bystander code c) l ->
  off P (VOnce id P (VFun c)) w
  = (set_listeners (pre ++ remaining_slot P l :: post) w, Normal tt).
Proof.
  intros Hw Hpre Hl.
  rewrite (off_first_referring P (VOnce id P (VFun c)) w l
             (VOnce id P (VFun c)) []).
  - assert (Hset : JsMap.set P (l ++ []) (listeners w)
                   = pre ++ Some (P, l ++ []) :: post)
      by (rewrite Hw; now apply set_middle).
    rewrite Hset, app_nil_r.
    destruct l as [|x l']; cbn [length Nat.eqb remaining_slot].
    + f_equal. f_equal. now apply delete_middle.
    + reflexivity.
  - reflexivity.
  - rewrite Hw. now apply get_middle.
  - eapply Forall_impl; [|exact Hl].
    intros v. apply bystander_overlooked.
  - apply refers_self.
Qed.

(** The wrapper takes itself out of the registry, then runs the
    callback, which finds the registry without it. *)
Lemma call_armed k kk args w :
  1 < k ->
  armed m0 P (VOnce id P (VFun c)) kk (listeners w) ->
  length (listeners w) < k ->
  exists w' r,
    call code (S (S k)) (VOnce id P (VFun c)) args w = Some (w', r) /\
    within m0 (listeners w') /\
    length (listeners w') = length (listeners w) /\
    entered c (trace w') = S (entered c (trace w)).
Proof.
  intros Hk (pre & l & post & Hw & Hlen & Hpre & Hin) Hb.
  rewrite call_wrapper,
    (off_armed w pre l post Hw Hpre (armed_list pre l post Hin)).
  rewrite call_fun.
  assert (Hlen' : length (pre ++ remaining_slot P l :: post)
                  = length (listeners w))
    by (rewrite Hw, !length_app; reflexivity).
  destruct (run_within k k (code c args) Hk (cb_only_emits args)
              (record (Entered c args)
                 (set_listeners (pre ++ remaining_slot P l :: post) w)))
    as (w' & r & Hr & Hw' & Hl' & He').
  - exact Hin.
  - cbn [record set_listeners listeners]. slots_lia.
  - exists w', r. split; [exact Hr|]. split; [exact Hw'|].
    cbn [record set_listeners listeners trace] in Hl', He'.
    split; [slots_lia|].
    rewrite He', entered_app. simpl. rewrite Nat.eqb_refl. lia.
Qed.

(** The [off] of another fire-once listener leaves the wrapper where
    it is. *)
Lemma off_keeps_armed kk ev v w :
  bystander code c v ->
  truthy_value v = true ->
  armed m0 P (VOnce id P (VFun c)) kk (listeners w) ->
  armed m0 P (VOnce id P (VFun c)) kk (listeners (fst (off ev v w))) /\
  length (listeners (fst (off ev v w))) = length (listeners w) /\
  trace (fst (off ev v w)) = trace w.
Proof.
  intros Hv Ht Harmed.
  destruct (off_cases ev v w Ht)
    as [->|(a & ls & b & ls' & Hm & Ha & Hls' & ->)]; [now repeat split|].
  cbn [set_listeners listeners trace].
  split; [|split; [rewrite Hm, !length_app; reflexivity|reflexivity]].
  destruct Harmed as (pre & l & post & Hw & Hlen & Hpre & Hin).
  assert (Hincl : incl ls' ls).
  { destruct Hls' as [->|(i & _ & ->)]; [apply incl_refl|].
    intros x. apply In_splice1. }
  rewrite Hm in Hw.
  destruct (app_eq_app _ _ _ _ Hw) as [rest [[Ha' Hb']|[Hp' Hb']]].
  - (* the slot of [ev] is the wrapper's, or comes after it *)
    destruct rest as [|s rest].
    + rewrite app_nil_r in Ha'. subst a. simpl in Hb'.
      inversion Hb' as [[Hev Hls Hb]]. subst ev ls b. clear Hb'.
      assert (Hsame : ls' = l ++ [VOnce id P (VFun c)] \/
                      exists l', ls' = l' ++ [VOnce id P (VFun c)] /\
                                 incl l' l).
      { destruct Hls' as [->|(i & Hf & ->)]; [now left|]. right.
        rewrite findIndex_app in Hf.
        destruct (findIndex v l 0) as [[j|]|e] eqn:Hfl;
          [| |discriminate].
        - inversion Hf; subst j. apply findIndex_range in Hfl.
          exists (splice1 i l). split; [apply splice1_app; lia|].
          intros x. apply In_splice1.
        - rewrite findIndex_last_overlooked in Hf
            by (apply wrapper_overlooked, Hv).
          discriminate. }
      destruct Hsame as [->|(l' & -> & Hl')].
      * exists pre, l, post. repeat split; try assumption.
        destruct l; reflexivity.
      * exists pre, l', post. split; [destruct l'; reflexivity|].
        split; [exact Hlen|]. split; [exact Hpre|].
        eapply within_trans; [exact Hin|]. intros e.
        eapply incl_tran; [apply targets_shrunk_slot, Hl'|].
        rewrite !targets_app, targets_remaining. apply incl_refl.
    + simpl in Hb'. inversion Hb' as [[Hs Hpost]]. subst s. clear Hb'.
      subst a.
      exists pre, l, (rest ++ remaining_slot ev ls' :: b).
      split; [now rewrite <- app_assoc|].
      split; [exact Hlen|]. split; [exact Hpre|].
      eapply within_trans; [exact Hin|]. intros e.
      rewrite Hpost.
      change (pre ++ remaining_slot P l :: rest ++ remaining_slot ev ls' :: b)
        with (pre ++ (remaining_slot P l :: rest)
                  ++ remaining_slot ev ls' :: b).
      change (pre ++ remaining_slot P l :: rest ++ Some (ev, ls) :: b)
        with (pre ++ (remaining_slot P l :: rest) ++ Some (ev, ls) :: b).
      rewrite !app_assoc. now apply targets_shrunk_slot.
  - (* the slot of [ev] comes before the wrapper's *)
    destruct rest as [|s rest].
    + rewrite app_nil_r in Hp'. subst a. simpl in Hb'.
      inversion Hb' as [[Hev Hls Hb]]. subst ev ls b. clear Hb'.
      assert (Hsame : ls' = l ++ [VOnce id P (VFun c)] \/
                      exists l', ls' = l' ++ [VOnce id P (VFun c)] /\
                                 incl l' l).
      { destruct Hls' as [->|(i & Hf & ->)]; [now left|]. right.
        rewrite findIndex_app in Hf.
        destruct (findIndex v l 0) as [[j|]|e] eqn:Hfl;
          [| |discriminate].
        - inversion Hf; subst j. apply findIndex_range in Hfl.
          exists (splice1 i l). split; [apply splice1_app; lia|].
          intros x. apply In_splice1.
        - rewrite findIndex_last_overlooked in Hf
            by (apply wrapper_overlooked, Hv).
          discriminate. }
      destruct Hsame as [->|(l' & -> & Hl')].
      * exists pre, l, post. repeat split; try assumption.
        destruct l; reflexivity.
      * exists pre, l', post. split; [destruct l'; reflexivity|].
        split; [exact Hlen|]. split; [exact Hpre|].
        eapply within_trans; [exact Hin|]. intros e.
        eapply incl_tran; [apply targets_shrunk_slot, Hl'|].
        rewrite !targets_app, targets_remaining. apply incl_refl.
    + simpl in Hb'. inversion Hb' as [[Hs Hb]]. subst s. clear Hb'.
      subst pre b.
      exists (a ++ remaining_slot ev ls' :: rest), l, post.
      split; [now rewrite <- app_assoc|].
      split; [rewrite <- Hlen, !length_app; reflexivity|].
      split.
      { apply (get_shrunk_slot P ev ls); [|exact Hpre].
        destruct ls'; [now left|right; now eexists]. }
      eapply within_trans; [exact Hin|]. intros e.
      rewrite <- !app_assoc. cbn [app].
      now apply targets_shrunk_slot.
Qed.

(** A bystander called while the wrapper is in the registry leaves it
    there. *)
Lemma call_bystander_armed k kk v args w :
  1 < k ->
  bystander code c v ->
  armed m0 P (VOnce id P (VFun c)) kk (listeners w) ->
  exists w' r,
    call code k v args w = Some (w', r) /\
    armed m0 P (VOnce id P (VFun c)) kk (listeners w') /\
    length (listeners w') = length (listeners w) /\
    entered c (trace w') = entered c (trace w).
Proof.
  intros Hk Hv Hw. destruct k as [|[|k]]; try lia.
  destruct v as [| t tag | i | i ev o] eqn:Ev; simpl in Hv;
    try contradiction.
  - exists w, (Throw TypeError). now repeat split.
  - destruct Hv as [Hne Hbody]. rewrite call_fun.
    destruct (Hbody args) as [-> | [n ->]]; cbn [run]; do 2 eexists;
      (split; [reflexivity|]); (split; [exact Hw|]);
      (split; [reflexivity|]); now apply entered_record_other.
  - destruct o as [| t tag | j |] eqn:Eo; try contradiction.
    destruct Hv as [Hne Hbody]. rewrite call_wrapper.
    destruct (off_keeps_armed kk ev (VOnce i ev (VFun j)) w
                (conj Hne Hbody) eq_refl Hw)
      as (Hw1 & Hl1 & Ht1).
    destruct (off ev (VOnce i ev (VFun j)) w) as [w1 [u|e]];
      cbn [fst] in Hw1, Hl1, Ht1.
    + rewrite call_fun.
      destruct (Hbody args) as [-> | [n ->]]; cbn [run]; do 2 eexists;
        (split; [reflexivity|]); (split; [exact Hw1|]);
        (split; [exact Hl1|]);
        rewrite entered_record_other by exact Hne; now rewrite Ht1.
    + exists w1, (Throw e). split; [reflexivity|]. split; [exact Hw1|].
      split; [exact Hl1|]. now rewrite Ht1.
Qed.

(** The pass over the list that ends with the wrapper enters the
    callback once. *)
Lemma dispatch_armed k kk args called w pre l post :
  1 < k ->
  listeners w = pre ++ Some (P, l ++ [VOnce id P (VFun c)]) :: post ->
  armed m0 P (VOnce id P (VFun c)) kk (listeners w) ->
  within m0 (pre ++ remaining_slot P l :: post) ->
  length (listeners w) < k ->
  exists w' b,
    dispatch (call code (S (S k))) E args
             (l ++ [VOnce id P (VFun c)]) called w
    = Some (w', b) /\
    within m0 (listeners w') /\
    length (listeners w') = length (listeners w) /\
    entered c (trace w') = S (entered c (trace w)).
Proof.
  intros Hk Hw Harmed Hin Hb.
  destruct (dispatch_keeps (armed m0 P (VOnce id P (VFun c)) kk)
              (S (S k)) E args l
              (fun v w0 Hv Hw0 =>
                 call_bystander_armed (S (S k)) kk v args w0
                   ltac:(lia) Hv Hw0)
              (armed_list pre l post Hin)
              [VOnce id P (VFun c)] called w Harmed)
    as (w1 & b1 & Hd & Hw1 & Hl1 & He1).
  rewrite Hd. cbn [dispatch].
  destruct (call_armed k kk args
              (record (Dispatched E (VOnce id P (VFun c))) w1) Hk Hw1)
    as (w2 & r & Hc & Hw2 & Hl2 & He2).
  - cbn [record listeners]. now rewrite Hl1.
  - rewrite Hc. rewrite entered_record_dispatched in He2.
    cbn [record listeners] in Hl2.
    destruct r as [u|e]; do 2 eexists; (split; [reflexivity|]);
      cbn [log listeners trace]; (split; [exact Hw2|]); split; congruence.
Qed.

(** [emit] on the registry that holds the wrapper: bystanders before
    it, the wrapper and the callback, bystanders after it. *)
Lemma emit_loop_armed k kk args :
  1 < k ->
  forall budget i called w,
    armed m0 P (VOnce id P (VFun c)) kk (listeners w) ->
    length (listeners w) < k ->
    i <= kk ->
    length (listeners w) - i < budget ->
    exists w' b,
      emit_loop (call code (S (S k))) E args budget i called w
      = Some (w', Normal b) /\
      within m0 (listeners w') /\
      length (listeners w') = length (listeners w) /\
      entered c (trace w') = S (entered c (trace w)).
Proof.
  intros Hk.
  induction budget as [|budget IH]; intros i called w Harmed Hlen Hi Hb;
    [lia|].
  cbn [emit_loop].
  pose proof Harmed as (pre & l & post & Hw & Hkk & Hpre & Hin).
  assert (Hlong : kk < length (listeners w))
    by (rewrite Hw, length_app; simpl; slots_lia).
  destruct (Nat.eq_dec i kk) as [->|Hne].
  - assert (Hnth : nth_error (listeners w) kk
                   = Some (Some (P, l ++ [VOnce id P (VFun c)]))).
    { rewrite Hw, nth_error_app2 by slots_lia.
      replace (kk - length pre) with 0 by slots_lia. reflexivity. }
    rewrite Hnth, P_matches.
    destruct (dispatch_armed k kk args called w pre l post Hk Hw Harmed
                Hin Hlen)
      as (w1 & b1 & Hd & Hw1 & Hl1 & He1).
    rewrite Hd.
    destruct (emit_loop_within (S (S k)) E args m0 ltac:(lia)
                (m0_bystanders E reach_E) budget (S kk) b1 w1 Hw1)
      as (w' & b & Hl & Hw' & Hl' & He'); [rewrite Hl1; lia|].
    exists w', b. split; [exact Hl|]. split; [exact Hw'|].
    split; congruence.
  - assert (Hlt : i < length pre) by slots_lia.
    assert (Hnth : nth_error (listeners w) i = nth_error pre i)
      by (rewrite Hw; now apply nth_error_app1).
    rewrite Hnth.
    destruct (nth_error pre i) as [[[p l0]|]|] eqn:Hn.
    + destruct (Matcher._matches p E) eqn:Hm.
      * assert (Hl0 : Forall (bystander code c) l0)
          by (eapply armed_prefix;
              [exact Hin|eapply nth_error_In, Hn|exact Hm]).
        destruct (dispatch_keeps (armed m0 P (VOnce id P (VFun c)) kk)
                    (S (S k)) E args l0
                    (fun v w0 Hv Hw0 =>
                       call_bystander_armed (S (S k)) kk v args w0
                         ltac:(lia) Hv Hw0)
                    Hl0 [] called w Harmed)
          as (w1 & b1 & Hd & Hw1 & Hl1 & He1).
        rewrite app_nil_r in Hd. rewrite Hd. cbn [dispatch].
        destruct (IH (S i) b1 w1 Hw1) as (w' & b & Hl & Hw' & Hl' & He');
          [rewrite Hl1; exact Hlen|lia|rewrite Hl1; lia|].
        exists w', b. split; [exact Hl|]. split; [exact Hw'|].
        split; congruence.
      * apply IH; [exact Harmed|exact Hlen|lia|lia].
    + apply IH; [exact Harmed|exact Hlen|lia|lia].
    + apply nth_error_None in Hn. lia.
Qed.

End OnceBeside.

Example once_then_emit_twice :
  exists w2,
    emit Scenario.reemitter 4 "x" [VData true 1]
         (fst (once "x" (VFun 0) constructor))
    = Some (w2, Normal true) /\
    trace w2 = [Dispatched "x" (VOnce 0 "x" (VFun 0));
                Entered 0 [VData true 1]] /\
    emit Scenario.reemitter 4 "x" [VData true 1] w2 = Some (w2, Normal false).
Proof. eexists. repeat split. Qed.




(* ================================================================== *)
(** * Further properties *)
(* ================================================================== *)

(** ** What a pattern matches *)

Section PatternFacts.

Import Matcher.

(** Gluing the segments back with the separator gives the string. *)
Lemma concat_split s : String.concat "." (Str.split Str.dot s) = s.
Proof.
  induction s as [|c s IH]; [reflexivity|].
  simpl. destruct (Ascii.eqb c Str.dot) eqn:Ec.
  - apply Ascii.eqb_eq in Ec. subst c.
    pose proof (split_nonempty Str.dot s) as Hn.
    destruct (Str.split Str.dot s) as [|seg segs]; [simpl in Hn; lia|].
    change (String.concat "." ("" :: seg :: segs))
      with ("." ++ String.concat "." (seg :: segs))%string.
    now rewrite IH.
  - pose proof (split_nonempty Str.dot s) as Hn.
    destruct (Str.split Str.dot s) as [|seg segs]; [simpl in Hn; lia|].
    rewrite <- IH. destruct segs as [|seg' segs]; reflexivity.
Qed.

Lemma split_injective s t :
  Str.split Str.dot s = Str.split Str.dot t -> s = t.
Proof.
  intros H. rewrite <- (concat_split s), <- (concat_split t). now rewrite H.
Qed.

(** A walk over segments none of which is ["**"] uses up the pattern,
    on the right number of segments, exactly when the segments agree
    one by one. *)
Lemma walk_exhausted_iff es :
  forall ps i,
    ~ In "**" ps -> i <= length es ->
    (walk_spec ps es i = Exhausted /\ i + length ps = length es) <->
    Forall2 seg_ok ps (skipn i es).
Proof.
  induction ps as [|p ps IH]; intros i Hno Hi.
  - simpl. split.
    + intros [_ Hlen]. rewrite skipn_all2 by lia. constructor.
    + intros H. split; [reflexivity|].
      assert (Hl : length (skipn i es) = 0) by (now inversion H).
      rewrite length_skipn in Hl. lia.
  - assert (Hp : String.eqb p "**" = false).
    { apply String.eqb_neq. intros ->. apply Hno. now left. }
    assert (Hno' : ~ In "**" ps) by (intro; apply Hno; now right).
    simpl. rewrite Hp.
    destruct (nth_error es i) as [e|] eqn:He.
    + assert (Hlt : i < length es) by (apply nth_error_Some; congruence).
      rewrite (skipn_nth_error _ _ _ He).
      specialize (IH (S i) Hno' Hlt).
      destruct (String.eqb p "*") eqn:Hs.
      * apply String.eqb_eq in Hs. split.
        -- intros [Hw Hlen]. constructor; [now left|].
           apply IH. split; [exact Hw|lia].
        -- intros H. inversion H; subst.
           match goal with H' : Forall2 _ ps _ |- _ => apply IH in H' as [Hw Hlen] end.
           split; [exact Hw|lia].
      * destruct (String.eqb p e) eqn:Hpe.
        -- apply String.eqb_eq in Hpe. split.
           ++ intros [Hw Hlen]. constructor; [now right|].
              apply IH. split; [exact Hw|lia].
           ++ intros H. inversion H; subst.
              match goal with H' : Forall2 _ ps _ |- _ => apply IH in H' as [Hw Hlen] end.
              split; [exact Hw|lia].
        -- apply String.eqb_neq in Hpe. apply String.eqb_neq in Hs. split.
           ++ intros [Hw _]. discriminate.
           ++ intros H. inversion H as [|? ? ? ? [Hstar|Heq] _]; subst;
                contradiction.
    + apply nth_error_None in He.
      rewrite skipn_all2 by lia. split.
      * intros [_ Hlen]. lia.
      * intros H. inversion H.
Qed.

Lemma seg_ok_refl ps : Forall2 seg_ok ps ps.
Proof. induction ps; constructor; [now right|assumption]. Qed.

Lemma literal_segments_equal ps es :
  Forall literal ps -> Forall2 seg_ok ps es -> ps = es.
Proof.
  intros Hl H. induction H as [|p e ps es [Hs|He] _ IH].
  - reflexivity.
  - inversion Hl as [|? ? [Hns _] _]; subst. contradiction.
  - inversion Hl; subst. f_equal. now apply IH.
Qed.

(** Before the first ["**"], a match leaves no segment unexplained. *)
Lemma for_loop_true_before_doublestar ps es k :
  nth_error ps k = Some "**" ->
  (forall i, i < k -> nth_error ps i <> Some "**") ->
  forall steps i,
    i <= k -> k < steps + i ->
    for_loop ps es steps i = true ->
    forall j p, i <= j < k -> nth_error ps j = Some p ->
                p = "*" \/ nth_error es j = Some p.
Proof.
  intros Hk Hfirst. induction steps as [|steps IH]; intros i Hi Hs Hloop j p Hj Hp;
    [lia|].
  simpl in Hloop.
  destruct (nth_error ps i) as [q|] eqn:Hq.
  2:{ apply nth_error_None in Hq.
      assert (k < length ps) by (apply nth_error_Some; congruence). lia. }
  assert (Hik : i < k) by lia.
  assert (Hq2 : String.eqb q "**" = false).
  { apply String.eqb_neq. intros ->. exact (Hfirst i Hik Hq). }
  rewrite Hq2 in Hloop.
  destruct (Nat.eq_dec j i) as [->|Hne].
  - rewrite Hq in Hp. inversion Hp; subst q.
    destruct (String.eqb p "*") eqn:Hs1; [left; now apply String.eqb_eq|].
    right. unfold strict_neq in Hloop.
    destruct (nth_error es i) as [e|]; [|discriminate].
    destruct (String.eqb p e) eqn:Hpe; [|discriminate].
    apply String.eqb_eq in Hpe. now subst.
  - apply (IH (S i)); try lia; [|exact Hp].
    destruct (String.eqb q "*"); [exact Hloop|].
    destruct (strict_neq q (nth_error es i)); [discriminate|exact Hloop].
Qed.

End PatternFacts.

(** X1.  A pattern that is not the bare ["*"] and has no ["**"] segment
    matches exactly the events with as many segments as it has, each of
    which equals the pattern's segment at its place unless that one is
    ["*"]. *)
Theorem matches_without_doublestar P E :
  P <> "*" ->
  ~ In "**" (Str.split Str.dot P) ->
  (Matcher._matches P E = true <->
   Forall2 seg_ok (Str.split Str.dot P) (Str.split Str.dot E)).
Proof.
  intros Hstar Hno. rewrite matches_refines_spec. unfold Matcher.matches_spec.
  destruct (String.eqb P E) eqn:HPE.
  { apply String.eqb_eq in HPE. subst E. split; [|reflexivity].
    intros _. apply seg_ok_refl. }
  apply String.eqb_neq in Hstar. rewrite Hstar.
  pose proof (walk_exhausted_iff (Str.split Str.dot E) (Str.split Str.dot P) 0
                                 Hno (Nat.le_0_l _)) as Hw.
  simpl skipn in Hw. rewrite <- Hw.
  pose proof (walk_without_doublestar _ (Str.split Str.dot E) Hno 0) as Hacc.
  destruct (Matcher.walk_spec _ _ 0); simpl.
  - congruence.
  - split; [discriminate|intros [Hx _]; discriminate].
  - rewrite Nat.eqb_eq. simpl. tauto.
Qed.

Lemma matches_without_doublestar_witness :
  Matcher._matches "user.*" "user.created" = true <->
  Forall2 seg_ok (Str.split Str.dot "user.*") (Str.split Str.dot "user.created").
Proof.
  apply matches_without_doublestar.
  - discriminate.
  - simpl. intros [H|[H|[]]]; discriminate H.
Defined.

(** X2.  A pattern without wildcard segments matches its own name and
    no other event. *)
Theorem literal_pattern_matches_itself_only P E :
  Forall literal (Str.split Str.dot P) ->
  (Matcher._matches P E = true <-> P = E).
Proof.
  intros Hlit. split.
  - intros Hm.
    unfold Matcher._matches in Hm.
    destruct (String.eqb P E) eqn:HPE; [now apply String.eqb_eq|].
    destruct (String.eqb P "*") eqn:HP.
    { apply String.eqb_eq in HP. subst P. simpl in Hlit.
      inversion Hlit as [|? ? [Hns _] _]. contradiction. }
    simpl in Hm. rewrite for_loop_walk in Hm by lia. simpl in Hm.
    assert (Hno : ~ In "**" (Str.split Str.dot P)).
    { intros Hin. rewrite Forall_forall in Hlit.
      destruct (Hlit _ Hin) as [_ Hn]. contradiction. }
    pose proof (walk_exhausted_iff (Str.split Str.dot E) (Str.split Str.dot P) 0
                                   Hno (Nat.le_0_l _)) as Hw.
    pose proof (walk_without_doublestar _ (Str.split Str.dot E) Hno 0) as Hacc.
    destruct (Matcher.walk_spec (Str.split Str.dot P) (Str.split Str.dot E) 0);
      simpl in Hm; [congruence|discriminate|].
    apply Nat.eqb_eq in Hm.
    apply split_injective, (literal_segments_equal _ _ Hlit).
    apply Hw. split; [reflexivity|exact Hm].
  - intros <-. apply matches_refl.
Qed.

Lemma literal_pattern_matches_itself_only_witness :
  Matcher._matches "user.created" "user.created" = true <->
  "user.created" = "user.created".
Proof.
  apply literal_pattern_matches_itself_only.
  simpl. repeat constructor; discriminate.
Defined.

(** X3.  For a pattern whose first ["**"] is segment [k], a match is
    decided by the segments before it alone: the pattern matches exactly
    when each of them is ["*"] or equals the event's segment at its
    place. *)
Theorem matches_with_doublestar P E k :
  nth_error (Str.split Str.dot P) k = Some "**" ->
  (forall i, i < k -> nth_error (Str.split Str.dot P) i <> Some "**") ->
  (Matcher._matches P E = true <->
   forall i p, i < k -> nth_error (Str.split Str.dot P) i = Some p ->
               p = "*" \/ nth_error (Str.split Str.dot E) i = Some p).
Proof.
  intros Hk Hfirst.
  assert (Hlen : k < length (Str.split Str.dot P))
    by (apply nth_error_Some; congruence).
  split.
  - intros Hm i p Hi Hp. unfold Matcher._matches in Hm.
    destruct (String.eqb P E) eqn:HPE.
    { apply String.eqb_eq in HPE. subst E. now right. }
    destruct (String.eqb P "*") eqn:HP.
    { apply String.eqb_eq in HP. subst P. simpl in Hk.
      destruct k as [|[|k]]; discriminate. }
    simpl in Hm.
    apply (for_loop_true_before_doublestar _ _ k Hk Hfirst _ 0 (Nat.le_0_l _))
      with (j := i) (p := p) in Hm; [exact Hm|lia|lia|exact Hp].
  - intros Hpre. unfold Matcher._matches.
    destruct (String.eqb P E || String.eqb P "*"); [reflexivity|].
    apply (for_loop_reaches_doublestar _ _ k Hk Hpre); lia.
Qed.

Lemma matches_with_doublestar_witness :
  Matcher._matches "a.*.**.z" "a.b.c" = true <->
  forall i p, i < 2 -> nth_error (Str.split Str.dot "a.*.**.z") i = Some p ->
              p = "*" \/ nth_error (Str.split Str.dot "a.b.c") i = Some p.
Proof.
  apply matches_with_doublestar.
  - reflexivity.
  - intros [|[|i]] Hi; simpl; try discriminate. lia.
Defined.

(** ** Unregistering *)

Section UnregisterFacts.

Lemma get_set_other {V} k k' (v : V) m :
  k' <> k -> JsMap.get k' (JsMap.set k v m) = JsMap.get k' m.
Proof.
  intros Hne. induction m as [|[[q u]|] m IH]; simpl.
  - destruct (String.eqb k' k) eqn:E; [|reflexivity].
    apply String.eqb_eq in E. contradiction.
  - destruct (String.eqb k q) eqn:E; simpl.
    + apply String.eqb_eq in E. subst q.
      destruct (String.eqb k' k) eqn:E'; [|reflexivity].
      apply String.eqb_eq in E'. contradiction.
    + now rewrite IH.
  - exact IH.
Qed.

Lemma get_delete_other {V} k k' (m : JsMap.t V) :
  k' <> k -> JsMap.get k' (JsMap.delete k m) = JsMap.get k' m.
Proof.
  intros Hne. induction m as [|[[q u]|] m IH]; simpl.
  - reflexivity.
  - destruct (String.eqb k q) eqn:E; simpl.
    + apply String.eqb_eq in E. subst q.
      destruct (String.eqb k' k) eqn:E'; [|reflexivity].
      apply String.eqb_eq in E'. contradiction.
    + now rewrite IH.
  - exact IH.
Qed.

Lemma truthy_not_undefined cb :
  truthy_value cb = true -> strict_eq VUndefined cb = false.
Proof. now destruct cb. Qed.

Lemma listeners_of_set_same event ls w :
  listeners_of event (set_listeners (JsMap.set event ls (listeners w)) w) = ls.
Proof. unfold listeners_of. simpl. now rewrite get_set_same. Qed.

Lemma listeners_of_other event k ls w :
  k <> event ->
  listeners_of k (set_listeners (JsMap.set event ls (listeners w)) w)
  = listeners_of k w.
Proof. intros H. unfold listeners_of. simpl. now rewrite get_set_other. Qed.

Lemma listeners_of_after_off event cb w pre fn post :
  JsMap.wf (listeners w) ->
  truthy_value cb = true ->
  JsMap.get event (listeners w) = Some (pre ++ fn :: post) ->
  Forall (overlooked cb) pre ->
  refers cb fn = true ->
  forall k,
    listeners_of k (fst (off event cb w)) =
    if String.eqb k event then pre ++ post else listeners_of k w.
Proof.
  intros Hwf Ht Hg Hpre Hfn k.
  rewrite (off_first_referring _ _ _ _ _ _ Ht Hg Hpre Hfn). simpl fst.
  destruct (String.eqb k event) eqn:Ek.
  - apply String.eqb_eq in Ek. subst k.
    destruct (Nat.eqb (length (pre ++ post)) 0) eqn:El.
    + unfold listeners_of. simpl.
      rewrite get_delete_same by now apply wf_set.
      apply Nat.eqb_eq in El. symmetry. now apply length_zero_iff_nil.
    + apply listeners_of_set_same.
  - apply String.eqb_neq in Ek.
    destruct (Nat.eqb (length (pre ++ post)) 0).
    + unfold listeners_of. simpl.
      now rewrite get_delete_other, get_set_other.
    + now apply listeners_of_other.
Qed.

End UnregisterFacts.

Section RegistryInvariantFacts.

Lemma values_set_In k (v : list Value) m ls :
  In ls (JsMap.values (JsMap.set k v m)) -> ls = v \/ In ls (JsMap.values m).
Proof.
  induction m as [|[[q u]|] m IH]; simpl.
  - intros [H|[]]. now left.
  - destruct (String.eqb k q); simpl.
    + intros [H|H]; [now left|right; now right].
    + intros [H|H]; [right; now left|].
      destruct (IH H); [now left|right; now right].
  - exact IH.
Qed.

Lemma values_delete_In {V} k (m : JsMap.t V) x :
  In x (JsMap.values (JsMap.delete k m)) -> In x (JsMap.values m).
Proof.
  induction m as [|[[q u]|] m IH]; simpl.
  - intros [].
  - destruct (String.eqb k q); simpl.
    + intros H. now right.
    + intros [H|H]; [now left|right; now apply IH].
  - exact IH.
Qed.

Lemma values_delete_set_In {V} k (v : V) m x :
  In x (JsMap.values (JsMap.delete k (JsMap.set k v m))) ->
  In x (JsMap.values m).
Proof.
  induction m as [|[[q u]|] m IH]; simpl.
  - rewrite String.eqb_refl. intros [].
  - destruct (String.eqb k q) eqn:E; simpl.
    + rewrite String.eqb_refl. simpl. intros H. now right.
    + rewrite E. simpl. intros [H|H]; [now left|right; now apply IH].
  - exact IH.
Qed.

Lemma no_empty_on event cb w :
  no_empty_lists w -> no_empty_lists (fst (on event cb w)).
Proof.
  intros H ls Hin. rewrite on_spec in Hin. simpl in Hin.
  apply values_set_In in Hin as [->|Hin].
  - now destruct (listeners_of event w).
  - now apply H.
Qed.

Lemma no_empty_off event cb w :
  no_empty_lists w -> no_empty_lists (fst (off event cb w)).
Proof.
  intros H ls Hin. unfold off in Hin.
  destruct (negb (truthy_value cb)); simpl in Hin.
  { apply values_delete_In in Hin. now apply H. }
  destruct (JsMap.get event (listeners w)) as [l0|]; [|now apply H].
  destruct (findIndex cb l0 0) as [idx|e]; [|now apply H].
  destruct (Nat.eqb (length _) 0) eqn:El; simpl in Hin.
  - apply values_delete_set_In in Hin. now apply H.
  - apply values_set_In in Hin as [->|Hin]; [|now apply H].
    intros Hnil. rewrite Hnil in El. discriminate.
Qed.

Lemma total_set_present k v old m :
  JsMap.get k m = Some old ->
  total (JsMap.set k v m) + length old = total m + length v.
Proof.
  unfold total. induction m as [|[[q u]|] m IH]; simpl; intros H.
  - discriminate.
  - destruct (String.eqb k q); simpl.
    + inversion H; subst. lia.
    + specialize (IH H). lia.
  - now apply IH.
Qed.

Lemma total_set_absent k v m :
  JsMap.get k m = None -> total (JsMap.set k v m) = total m + length v.
Proof.
  unfold total. induction m as [|[[q u]|] m IH]; simpl; intros H.
  - lia.
  - destruct (String.eqb k q); [discriminate|]. simpl.
    specialize (IH H). lia.
  - now apply IH.
Qed.

Lemma total_delete k old m :
  JsMap.get k m = Some old -> total (JsMap.delete k m) + length old = total m.
Proof.
  unfold total. induction m as [|[[q u]|] m IH]; simpl; intros H.
  - discriminate.
  - destruct (String.eqb k q); simpl.
    + inversion H; subst. lia.
    + specialize (IH H). lia.
  - now apply IH.
Qed.

Lemma total_on event cb w :
  total (listeners (fst (on event cb w))) = S (total (listeners w)).
Proof.
  rewrite on_spec. simpl. unfold listeners_of.
  destruct (JsMap.get event (listeners w)) as [ls|] eqn:Hg.
  - pose proof (total_set_present event (ls ++ [cb]) ls _ Hg) as Ht.
    rewrite length_app in Ht. simpl in Ht. lia.
  - rewrite (total_set_absent _ _ _ Hg). simpl. lia.
Qed.

End RegistryInvariantFacts.

Lemma off_absent_noop_lemma event cb w :
  truthy_value cb = true ->
  (JsMap.get event (listeners w) = None \/
   exists ls, JsMap.get event (listeners w) = Some ls /\ ls <> [] /\
              Forall (overlooked cb) ls) ->
  off event cb w = (w, Normal tt).
Proof.
  intros Ht [Hg|(ls & Hg & Hne & Hall)]; unfold off; rewrite Ht, Hg; simpl.
  - reflexivity.
  - pose proof (findIndex_overlooked cb ls Hall [] 0) as Hf.
    rewrite app_nil_r in Hf. rewrite Hf. simpl.
    rewrite (set_get_id _ _ _ Hg).
    destruct ls as [|x ls]; [contradiction|]. simpl.
    now rewrite set_listeners_same.
Qed.

(** X4.  Unregistering what is not there changes nothing and raises
    nothing: [off] with a callback returns the emitter as it was when
    the pattern has no list, or when its list holds no entry that is the
    callback or wraps it. *)
Theorem off_absent_is_noop event cb w :
  truthy_value cb = true ->
  (JsMap.get event (listeners w) = None \/
   exists ls, JsMap.get event (listeners w) = Some ls /\ ls <> [] /\
              Forall (overlooked cb) ls) ->
  off event cb w = (w, Normal tt).
Proof.
  intros Ht Habsent. destruct Habsent as [Hg|Hlist].
  - apply off_absent_noop_lemma; [exact Ht|now left].
  - apply off_absent_noop_lemma; [exact Ht|now right].
Qed.

Lemma off_absent_is_noop_witness :
  off "y" (VFun 0) Scenario.sole = (Scenario.sole, Normal tt) /\
  off "x" (VFun 5) Scenario.sole = (Scenario.sole, Normal tt).
Proof.
  split; apply off_absent_is_noop; try reflexivity.
  - now left.
  - right. exists [VFun 0]. split; [reflexivity|]. split; [discriminate|].
    repeat constructor. discriminate.
Defined.

(** X5.  [off] without a callback (or with a falsy one) drops the
    pattern with all its listeners, whatever they are, and touches no
    other pattern. *)
Theorem off_without_callback_drops_pattern event cb w :
  truthy_value cb = false ->
  JsMap.wf (listeners w) ->
  snd (off event cb w) = Normal tt /\
  JsMap.get event (listeners (fst (off event cb w))) = None /\
  (forall k, k <> event ->
             JsMap.get k (listeners (fst (off event cb w)))
             = JsMap.get k (listeners w)) /\
  console (fst (off event cb w)) = console w.
Proof.
  intros Ht Hwf. unfold off. rewrite Ht. simpl.
  split; [reflexivity|]. split; [now apply get_delete_same|].
  split; [|reflexivity].
  intros k Hk. now apply get_delete_other.
Qed.

Lemma off_without_callback_drops_pattern_witness :
  snd (off "x" VUndefined Scenario.three) = Normal tt /\
  JsMap.get "x" (listeners (fst (off "x" VUndefined Scenario.three))) = None /\
  (forall k, k <> "x" ->
             JsMap.get k (listeners (fst (off "x" VUndefined Scenario.three)))
             = JsMap.get k (listeners Scenario.three)) /\
  console (fst (off "x" VUndefined Scenario.three)) = console Scenario.three.
Proof.
  apply off_without_callback_drops_pattern.
  - reflexivity.
  - vm_compute. repeat constructor; simpl; intuition discriminate.
Defined.

(** X6.  [off] with a callback removes one entry, the first that is the
    callback or wraps it, keeps the others in their order, and leaves
    the lists of all other patterns alone. *)
Theorem off_removes_first_referring_entry event cb w pre fn post :
  JsMap.wf (listeners w) ->
  truthy_value cb = true ->
  JsMap.get event (listeners w) = Some (pre ++ fn :: post) ->
  Forall (overlooked cb) pre ->
  refers cb fn = true ->
  snd (off event cb w) = Normal tt /\
  listeners_of event (fst (off event cb w)) = pre ++ post /\
  forall k, k <> event ->
            listeners_of k (fst (off event cb w)) = listeners_of k w.
Proof.
  intros Hwf Ht Hg Hpre Hfn.
  pose proof (listeners_of_after_off _ _ _ _ _ _ Hwf Ht Hg Hpre Hfn) as Hl.
  split; [now rewrite (off_first_referring _ _ _ _ _ _ Ht Hg Hpre Hfn)|].
  split.
  - rewrite Hl. now rewrite String.eqb_refl.
  - intros k Hk. rewrite Hl. apply String.eqb_neq in Hk. now rewrite Hk.
Qed.

Lemma off_removes_first_referring_entry_witness :
  snd (off "x" (VFun 1) Scenario.three) = Normal tt /\
  listeners_of "x" (fst (off "x" (VFun 1) Scenario.three)) = [VFun 0] ++ [] /\
  forall k, k <> "x" ->
            listeners_of k (fst (off "x" (VFun 1) Scenario.three))
            = listeners_of k Scenario.three.
Proof.
  apply (off_removes_first_referring_entry "x" (VFun 1) Scenario.three
                                           [VFun 0] (VFun 1) []).
  - vm_compute. repeat constructor; simpl; intuition discriminate.
  - reflexivity.
  - reflexivity.
  - repeat constructor. discriminate.
  - reflexivity.
Defined.

(** X7.  An [undefined] entry that [findIndex] meets before any entry
    that refers to the callback makes [off] throw a [TypeError], on
    reading [_original]; the registry is left as it was. *)
Theorem off_throws_on_undefined_entry event cb w pre post :
  truthy_value cb = true ->
  JsMap.get event (listeners w) = Some (pre ++ VUndefined :: post) ->
  Forall (overlooked cb) pre ->
  off event cb w = (w, Throw TypeError).
Proof.
  intros Ht Hg Hpre. unfold off. rewrite Ht, Hg. simpl negb. cbv iota.
  rewrite (findIndex_overlooked _ _ Hpre), findIndex_undefined by exact Ht.
  reflexivity.
Qed.

Lemma off_throws_on_undefined_entry_witness :
  off "x" (VFun 1)
      (fst (on "x" (VFun 1) (fst (on "x" VUndefined Scenario.sole))))
  = (fst (on "x" (VFun 1) (fst (on "x" VUndefined Scenario.sole))),
     Throw TypeError).
Proof.
  apply (off_throws_on_undefined_entry "x" (VFun 1) _ [VFun 0] [VFun 1]).
  - reflexivity.
  - reflexivity.
  - repeat constructor. discriminate.
Defined.

(** X8.  Registering a callback and then calling the returned closure
    gives back, for every pattern, the list it had before, provided the
    list of the pattern held no [undefined] and no entry referring to
    the callback. *)
Theorem register_then_unsubscribe_restores event cb w :
  JsMap.wf (listeners w) ->
  truthy_value cb = true ->
  Forall (overlooked cb) (listeners_of event w) ->
  exists w1 t w2,
    on event cb w = (w1, Normal t) /\
    invoke_token t w1 = (w2, Normal tt) /\
    forall k, listeners_of k w2 = listeners_of k w.
Proof.
  intros Hwf Ht Hall.
  assert (Hg1 : JsMap.get event (listeners (fst (on event cb w)))
                = Some (listeners_of event w ++ cb :: [])).
  { rewrite on_spec. simpl. apply get_set_same. }
  pose proof (wf_on event cb w Hwf) as Hwf1.
  pose proof (refers_self cb) as Hself.
  exists (fst (on event cb w)), (mkToken event cb),
         (fst (off event cb (fst (on event cb w)))).
  split; [now rewrite on_spec|]. split.
  - unfold invoke_token. simpl.
    now rewrite (off_first_referring _ _ _ _ _ _ Ht Hg1 Hall Hself).
  - intros k.
    rewrite (listeners_of_after_off _ _ _ _ _ _ Hwf1 Ht Hg1 Hall Hself).
    destruct (String.eqb k event) eqn:Ek.
    + apply String.eqb_eq in Ek. subst. apply app_nil_r.
    + apply String.eqb_neq in Ek. rewrite on_spec. simpl.
      unfold listeners_of at 1. simpl. now rewrite get_set_other.
Qed.

Lemma register_then_unsubscribe_restores_witness :
  exists w1 t w2,
    on "x" (VFun 3) Scenario.three = (w1, Normal t) /\
    invoke_token t w1 = (w2, Normal tt) /\
    forall k, listeners_of k w2 = listeners_of k Scenario.three.
Proof.
  apply register_then_unsubscribe_restores.
  - vm_compute. repeat constructor; simpl; intuition discriminate.
  - reflexivity.
  - vm_compute. repeat constructor; discriminate.
Defined.

(** X9.  A fire-once registration can be taken back with the callback
    it was made for: after [once(event, cb)], [off(event, cb)] finds the
    wrapper through [_original], removes it, and every pattern has the
    list it had before. *)
Theorem once_removed_by_original_callback event cb w :
  JsMap.wf (listeners w) ->
  truthy_value cb = true ->
  Forall (overlooked cb) (listeners_of event w) ->
  listeners_of event (fst (once event cb w))
  = listeners_of event w ++ [VOnce (nextId w) event cb] /\
  snd (off event cb (fst (once event cb w))) = Normal tt /\
  forall k, listeners_of k (fst (off event cb (fst (once event cb w))))
            = listeners_of k w.
Proof.
  intros Hwf Ht Hall. unfold once.
  assert (Hg1 : JsMap.get event
                  (listeners (fst (on event (VOnce (nextId w) event cb) (fresh w))))
                = Some (listeners_of event w ++ VOnce (nextId w) event cb :: [])).
  { rewrite on_spec. simpl. apply get_set_same. }
  assert (Hwf1 := wf_on event (VOnce (nextId w) event cb) (fresh w) Hwf).
  assert (Hrf : refers cb (VOnce (nextId w) event cb) = true).
  { unfold refers. simpl. rewrite strict_eq_refl. apply orb_true_r. }
  split; [apply (listeners_of_on event _ (fresh w))|]. split.
  - now rewrite (off_first_referring _ _ _ _ _ _ Ht Hg1 Hall Hrf).
  - intros k.
    rewrite (listeners_of_after_off _ _ _ _ _ _ Hwf1 Ht Hg1 Hall Hrf).
    destruct (String.eqb k event) eqn:Ek.
    + apply String.eqb_eq in Ek. subst. apply app_nil_r.
    + apply String.eqb_neq in Ek. rewrite on_spec. simpl.
      unfold listeners_of at 1. simpl. now rewrite get_set_other.
Qed.

Lemma once_removed_by_original_callback_witness :
  listeners_of "x" (fst (once "x" (VFun 3) Scenario.three))
  = listeners_of "x" Scenario.three ++ [VOnce (nextId Scenario.three) "x" (VFun 3)] /\
  snd (off "x" (VFun 3) (fst (once "x" (VFun 3) Scenario.three))) = Normal tt /\
  forall k, listeners_of k (fst (off "x" (VFun 3)
                                     (fst (once "x" (VFun 3) Scenario.three))))
            = listeners_of k Scenario.three.
Proof.
  apply once_removed_by_original_callback.
  - vm_compute. repeat constructor; simpl; intuition discriminate.
  - reflexivity.
  - vm_compute. repeat constructor; discriminate.
Defined.

(** X10.  No pattern stays registered with an empty list: a new emitter
    has none, and [on], [once] and [off] keep it so. *)
Theorem registry_never_keeps_an_empty_list :
  no_empty_lists constructor /\
  forall w,
    no_empty_lists w ->
    forall event cb,
      no_empty_lists (fst (on event cb w)) /\
      no_empty_lists (fst (once event cb w)) /\
      no_empty_lists (fst (off event cb w)).
Proof.
  split; [intros ls []|].
  intros w H event cb. split; [|split].
  - now apply no_empty_on.
  - unfold once. now apply no_empty_on.
  - now apply no_empty_off.
Qed.

Lemma registry_never_keeps_an_empty_list_witness :
  no_empty_lists (fst (on "x" (VFun 0) constructor)) /\
  no_empty_lists (fst (once "x" (VFun 0) constructor)) /\
  no_empty_lists (fst (off "x" (VFun 0) constructor)).
Proof.
  apply (proj2 registry_never_keeps_an_empty_list constructor).
  apply (proj1 registry_never_keeps_an_empty_list).
Defined.

(** Every pattern occupies at most one slot of the registry: this holds
    for a new emitter and is kept by [on], [once] and [off]. *)
Lemma registry_keys_stay_unique :
  JsMap.wf (listeners constructor) /\
  forall w,
    JsMap.wf (listeners w) ->
    forall event cb,
      JsMap.wf (listeners (fst (on event cb w))) /\
      JsMap.wf (listeners (fst (once event cb w))) /\
      JsMap.wf (listeners (fst (off event cb w))).
Proof.
  split; [constructor|].
  intros w H event cb. split; [|split].
  - now apply wf_on.
  - unfold once. now apply (wf_on event _ (fresh w)).
  - now apply wf_off.
Qed.

(** X11.  [listenerCount()] counts registrations: every [on] and every
    [once] raises the total by one, and an [off] that finds an entry for
    its callback lowers it by one. *)
Theorem listenerCount_counts_registrations :
  (forall event cb w,
      listenerCount None (fst (on event cb w)) = S (listenerCount None w) /\
      listenerCount None (fst (once event cb w)) = S (listenerCount None w)) /\
  (forall event cb w pre fn post,
      truthy_value cb = true ->
      JsMap.get event (listeners w) = Some (pre ++ fn :: post) ->
      Forall (overlooked cb) pre ->
      refers cb fn = true ->
      S (listenerCount None (fst (off event cb w))) = listenerCount None w).
Proof.
  split.
  - intros event cb w. unfold listenerCount. cbn [truthy_string].
    rewrite !count_all_sum. split.
    + apply total_on.
    + unfold once. apply (total_on event _ (fresh w)).
  - intros event cb w pre fn post Ht Hg Hpre Hfn.
    unfold listenerCount. cbn [truthy_string]. rewrite !count_all_sum.
    rewrite (off_first_referring _ _ _ _ _ _ Ht Hg Hpre Hfn).
    cbn [fst listeners set_listeners].
    pose proof (total_set_present event (pre ++ post) _ _ Hg) as Hs.
    rewrite !length_app in Hs. cbn [length] in Hs.
    destruct (Nat.eqb (length (pre ++ post)) 0) eqn:El.
    + pose proof (total_delete event (pre ++ post)
                    (JsMap.set event (pre ++ post) (listeners w))
                    (get_set_same _ _ _)) as Hd.
      rewrite length_app in Hd. unfold total in Hs, Hd.
      apply Nat.eqb_eq in El. rewrite length_app in El. lia.
    + unfold total in Hs. lia.
Qed.

Lemma listenerCount_counts_registrations_witness :
  S (listenerCount None (fst (off "x" (VFun 1) Scenario.three)))
  = listenerCount None Scenario.three.
Proof.
  apply (proj2 listenerCount_counts_registrations
               "x" (VFun 1) Scenario.three [VFun 0] (VFun 1) []).
  - reflexivity.
  - reflexivity.
  - repeat constructor. discriminate.
  - reflexivity.
Defined.

(** X12.  When no registered pattern matches the event, [emit] calls
    nothing, prints nothing, leaves the emitter as it was and returns
    false, whatever the listeners would do; so does every [emit] on a
    new emitter. *)
Theorem emit_without_match_is_silent :
  (forall code fuel event args w,
      unheard event (listeners w) ->
      length (listeners w) < fuel ->
      emit code fuel event args w = Some (w, Normal false)) /\
  (forall code fuel event args,
      emit code (S fuel) event args constructor
      = Some (constructor, Normal false)).
Proof.
  split.
  - intros code fuel event args w Hu Hf. unfold emit, emit_with.
    apply emit_loop_unheard; [exact Hu|lia].
  - intros code fuel event args. reflexivity.
Qed.

Lemma emit_without_match_is_silent_witness :
  emit Scenario.thrower 3 "user.created" [] Scenario.twice
  = Some (Scenario.twice, Normal false).
Proof.
  apply (proj1 emit_without_match_is_silent).
  - intros p ls Hin. vm_compute in Hin.
    destruct Hin as [H|[]]; inversion H; subst; reflexivity.
  - vm_compute. lia.
Defined.

(** ** Bursts of calls *)

Section DebounceFacts.

Import Debounce.

Lemma debounce_clear_tidy s :
  debounce_tidy s -> Host.queue (Host.clearTimeout (timer s) (host s)) = [].
Proof.
  intros [Hq|[tm [Hq Ht]]]; unfold Host.clearTimeout.
  - destruct (timer s); simpl; [now rewrite Hq|exact Hq].
  - rewrite Ht. simpl. rewrite Hq. simpl. now rewrite Nat.eqb_refl.
Qed.

(** A call of the debounced wrapper never runs [fn]; whatever was
    scheduled is dropped, and the call's own timer is the only one
    left. *)
Lemma debounce_invoke args s :
  debounce_tidy s ->
  fn_calls (invoke args s) = fn_calls s /\
  delay (invoke args s) = delay s /\
  Host.clock (host (invoke args s)) = Host.clock (host s) /\
  exists id,
    Host.queue (host (invoke args s))
    = [Host.mkTimer id (Host.clock (host s) + Z.max 0 (delay s)) args] /\
    timer (invoke args s) = Some id.
Proof.
  intros Ht. unfold invoke, Host.setTimeout. simpl.
  rewrite debounce_clear_tidy by exact Ht. rewrite clock_clear.
  repeat split. eexists. split; reflexivity.
Qed.

Lemma debounce_advance_idle t s :
  Host.queue (host s) = [] ->
  fn_calls (advance t s) = fn_calls s /\
  delay (advance t s) = delay s /\
  Host.queue (host (advance t s)) = [] /\
  Host.clock (host (advance t s)) = t.
Proof. intros Hq. unfold advance. rewrite Hq. simpl. now rewrite Hq. Qed.

Lemma debounce_advance_waits tm t s :
  Host.queue (host s) = [tm] ->
  (t < Host.due tm)%Z ->
  fn_calls (advance t s) = fn_calls s /\
  delay (advance t s) = delay s /\
  Host.queue (host (advance t s)) = [tm] /\
  timer (advance t s) = timer s /\
  Host.clock (host (advance t s)) = t.
Proof.
  intros Hq Hd. unfold advance. rewrite Hq. simpl.
  destruct (Z.leb_spec (Host.due tm) t); [lia|].
  simpl. now rewrite Hq.
Qed.

Lemma debounce_advance_fires tm t s :
  Host.queue (host s) = [tm] ->
  (Host.due tm <= t)%Z ->
  fn_calls (advance t s) = fn_calls s ++ [(Host.due tm, Host.payload tm)] /\
  delay (advance t s) = delay s /\
  Host.queue (host (advance t s)) = [] /\
  Host.clock (host (advance t s)) = t.
Proof.
  intros Hq Hd. unfold advance. rewrite Hq. simpl.
  destruct (Z.leb_spec (Host.due tm) t); [|lia].
  simpl. rewrite Hq. simpl. now rewrite Nat.eqb_refl.
Qed.

Lemma debounce_advance_clock t s : Host.clock (host (advance t s)) = t.
Proof. reflexivity. Qed.

Lemma debounce_tidy_advance t s : debounce_tidy s -> debounce_tidy (advance t s).
Proof.
  intros [Hq|[tm [Hq Ht]]].
  - left. now apply debounce_advance_idle.
  - destruct (Z.leb_spec (Host.due tm) t) as [H|H].
    + left. now apply (debounce_advance_fires tm).
    + destruct (debounce_advance_waits tm t s Hq H) as (_ & _ & Hq' & Ht' & _).
      right. exists tm. split; [exact Hq'|congruence].
Qed.

Lemma last_cons_default {A} (l : list A) :
  forall x d, List.last (x :: l) d = List.last l x.
Proof.
  induction l as [|y l IH]; intros x d; [reflexivity|].
  change (List.last (x :: y :: l) d) with (List.last (y :: l) d).
  now rewrite !IH.
Qed.

(** A burst that starts while the timer of the call [(t0, a0)] is
    pending runs nothing, and leaves the timer of its last call. *)
Lemma debounce_burst_pending :
  forall calls s t0 a0 id0,
    Host.queue (host s) = [Host.mkTimer id0 (t0 + Z.max 0 (delay s)) a0] ->
    timer s = Some id0 ->
    rapid (delay s) t0 calls ->
    let s' := debounce_calls calls s in
    let c := List.last calls (t0, a0) in
    fn_calls s' = fn_calls s /\
    delay s' = delay s /\
    exists id,
      Host.queue (host s')
      = [Host.mkTimer id (fst c + Z.max 0 (delay s)) (snd c)] /\
      timer s' = Some id.
Proof.
  induction calls as [|[t a] calls IH]; intros s t0 a0 id0 Hq Ht Hr.
  - simpl. repeat split. now exists id0.
  - destruct Hr as [Hlt Hr]. simpl in Hlt.
    set (s1 := invoke_at t a s).
    destruct (debounce_advance_waits _ t s Hq Hlt) as (Hc & Hd & Hq' & Ht' & Hk).
    assert (Htidy : debounce_tidy (advance t s)).
    { right. eexists. split; [exact Hq'|]. rewrite Ht'. exact Ht. }
    destruct (debounce_invoke a (advance t s) Htidy)
      as (Hc1 & Hd1 & Hk1 & id1 & Hq1 & Ht1).
    fold (invoke_at t a s) in Hc1, Hd1, Hk1, Hq1, Ht1. fold s1 in Hc1, Hd1, Hk1, Hq1, Ht1.
    rewrite Hk, Hd in Hq1.
    assert (Hds : delay s = delay s1) by congruence.
    rewrite Hds in Hq1, Hr.
    specialize (IH s1 t a id1 Hq1 Ht1 Hr).
    change (debounce_calls ((t, a) :: calls) s) with (debounce_calls calls s1).
    destruct IH as (Hf & Hdl & id & Hqf & Htf).
    cbv zeta. rewrite last_cons_default.
    split; [congruence|]. split; [congruence|].
    exists id. rewrite Hds. split; assumption.
Qed.

End DebounceFacts.

Section DebounceSoundness.

Import Debounce.

Lemma stems_from_more d seen c t a :
  stems_from d seen t a -> stems_from d (seen ++ [c]) t a.
Proof.
  intros [t0 [Hin Heq]]. exists t0. split; [|exact Heq].
  apply in_or_app. now left.
Qed.

Lemma debounce_sound_advance seen t s :
  debounce_sound seen s -> debounce_sound seen (advance t s).
Proof.
  intros (Htidy & Hf & Hq). split; [now apply debounce_tidy_advance|].
  destruct Htidy as [Hq0|[tm [Hq1 Ht]]].
  - destruct (debounce_advance_idle t s Hq0) as (Hc & Hd & Hq' & _).
    rewrite Hc, Hd, Hq'. split; [exact Hf|intros tm []].
  - destruct (Z.leb_spec (Host.due tm) t) as [H|H].
    + destruct (debounce_advance_fires tm t s Hq1 H) as (Hc & Hd & Hq' & _).
      rewrite Hc, Hd, Hq'. split; [|intros x []].
      intros t' a Hin. apply in_app_or in Hin as [Hin|[Hin|[]]].
      * now apply Hf.
      * inversion Hin; subst. apply Hq. rewrite Hq1. now left.
    + destruct (debounce_advance_waits tm t s Hq1 H) as (Hc & Hd & Hq' & _ & _).
      rewrite Hc, Hd, Hq'. rewrite Hq1 in Hq. now split.
Qed.

Lemma debounce_sound_invoke_at seen t a s :
  debounce_sound seen s -> debounce_sound (seen ++ [(t, a)]) (invoke_at t a s).
Proof.
  intros Hs. apply (debounce_sound_advance seen t) in Hs.
  destruct Hs as (Htidy & Hf & Hq).
  destruct (debounce_invoke a (advance t s) Htidy)
    as (Hc & Hd & _ & id & Hq' & Ht').
  unfold invoke_at. split; [|split].
  - right. eexists. split; [exact Hq'|exact Ht'].
  - rewrite Hc, Hd. intros t' a' Hin. now apply stems_from_more, Hf.
  - rewrite Hq', Hd. intros tm [<-|[]]. simpl.
    exists t. split; [apply in_or_app; right; now left|].
    reflexivity.
Qed.

Lemma debounce_sound_calls :
  forall calls seen s,
    debounce_sound seen s ->
    debounce_sound (seen ++ calls) (debounce_calls calls s).
Proof.
  induction calls as [|[t a] calls IH]; intros seen s Hs.
  - now rewrite app_nil_r.
  - change (seen ++ (t, a) :: calls) with (seen ++ [(t, a)] ++ calls).
    rewrite app_assoc. apply IH. now apply debounce_sound_invoke_at.
Qed.

Lemma debounce_delay_fold t q :
  forall s,
    delay (fold_left
             (fun acc tm =>
                if (Host.due tm <=? t)%Z then fire tm (Host.due tm) acc else acc)
             q s) = delay s.
Proof.
  induction q as [|tm q IH]; intros s; simpl; [reflexivity|].
  rewrite IH. now destruct (Host.due tm <=? t)%Z.
Qed.

Lemma debounce_delay_advance t s : delay (advance t s) = delay s.
Proof. unfold advance. simpl. apply debounce_delay_fold. Qed.

Lemma debounce_delay_calls calls :
  forall s, delay (debounce_calls calls s) = delay s.
Proof.
  induction calls as [|[t a] calls IH]; intros s; [reflexivity|].
  change (debounce_calls ((t, a) :: calls) s)
    with (debounce_calls calls (invoke_at t a s)).
  rewrite IH. unfold invoke_at, invoke. simpl. apply debounce_delay_advance.
Qed.

End DebounceSoundness.

(** X13.  For a delay that timers honour (1 ms to 2^31-1 ms), timers
    firing when due: a burst of calls of a debounced wrapper, each
    arriving before the delay since the one before it has run out, runs
    [fn] exactly once: not during the burst, not before the delay after
    the last call is over, and then with the arguments of the last
    call. *)
Theorem debounce_burst_runs_once delay now t1 a1 calls :
  Host.honoured delay ->
  rapid delay t1 calls ->
  let s := debounce_calls ((t1, a1) :: calls)
                          (Debounce.debounce (Some delay) now) in
  let c := List.last calls (t1, a1) in
  Debounce.fn_calls s = [] /\
  forall T,
    ((T < fst c + delay)%Z ->
     Debounce.fn_calls (Debounce.advance T s) = []) /\
    ((fst c + delay <= T)%Z ->
     Debounce.fn_calls (Debounce.advance T s)
     = [((fst c + delay)%Z, snd c)] /\
     Host.queue (Debounce.host (Debounce.advance T s)) = []).
Proof.
  intros Hh Hr s c.
  assert (Hmax : Z.max 0 delay = delay) by (unfold Host.honoured in Hh; lia).
  set (s0 := Debounce.debounce (Some delay) now).
  set (s1 := Debounce.invoke_at t1 a1 s0).
  assert (H1 : Debounce.fn_calls s1 = [] /\ Debounce.delay s1 = delay /\
               Host.queue (Debounce.host s1)
               = [Host.mkTimer 1 (t1 + Z.max 0 delay) a1] /\
               Debounce.timer s1 = Some 1).
  { repeat split. }
  destruct H1 as (Hc1 & Hd1 & Hq1 & Ht1).
  rewrite <- Hd1 in Hq1, Hr.
  destruct (debounce_burst_pending calls s1 t1 a1 1 Hq1 Ht1 Hr)
    as (Hf & Hd & id & Hq & Ht).
  change (debounce_calls calls s1) with s in Hf, Hd, Hq, Ht.
  fold c in Hq. rewrite Hd1, Hmax in Hq.
  split; [congruence|]. intros T. split; intros HT.
  - destruct (debounce_advance_waits _ T s Hq HT) as (Hc & _). congruence.
  - destruct (debounce_advance_fires _ T s Hq HT) as (Hc & _ & Hq' & _).
    rewrite Hc, Hf, Hc1. split; [reflexivity|exact Hq'].
Qed.

Lemma debounce_burst_runs_once_witness :
  Debounce.fn_calls Scenario.debounced_burst = [] /\
  forall T,
    ((T < 1040 + 100)%Z ->
     Debounce.fn_calls (Debounce.advance T Scenario.debounced_burst) = []) /\
    ((1040 + 100 <= T)%Z ->
     Debounce.fn_calls (Debounce.advance T Scenario.debounced_burst)
     = [((1040 + 100)%Z, [VData true 5])] /\
     Host.queue (Debounce.host (Debounce.advance T Scenario.debounced_burst)) = []).
Proof.
  apply (debounce_burst_runs_once
           100 1000 1000 [VData true 1]
           [(1010%Z, [VData true 2]); (1020%Z, [VData true 3]);
            (1030%Z, [VData true 4]); (1040%Z, [VData true 5])]).
  - unfold Host.honoured. lia.
  - simpl. lia.
Defined.

(** X14.  For a delay that timers honour (1 ms to 2^31-1 ms, the
    default of 300 ms among them), timers firing when due: a debounced
    wrapper runs [fn] only as the deferred execution of a call it
    received: every execution happens the delay after some call and
    with that call's arguments, and at no time is more than one
    execution pending. *)
Theorem debounce_runs_only_deferred_calls delay now calls T :
  Host.honoured (Debounce.delay (Debounce.debounce delay now)) ->
  let s := Debounce.advance T
             (debounce_calls calls (Debounce.debounce delay now)) in
  (forall t a,
      In (t, a) (Debounce.fn_calls s) ->
      exists t0, In (t0, a) calls /\ t = (t0 + Debounce.delay s)%Z) /\
  length (Host.queue (Debounce.host s)) <= 1.
Proof.
  intros Hh s.
  assert (H0 : debounce_sound [] (Debounce.debounce delay now)).
  { split; [now left|]. split; [intros t a []|intros tm []]. }
  apply (debounce_sound_calls calls) in H0. simpl in H0.
  apply (debounce_sound_advance _ T) in H0. fold s in H0.
  assert (Hd : Debounce.delay s = Debounce.delay (Debounce.debounce delay now)).
  { subst s. now rewrite debounce_delay_advance, debounce_delay_calls. }
  destruct H0 as (Htidy & Hf & _). split.
  - intros t a Hin. destruct (Hf t a Hin) as (t0 & Hin0 & Ht).
    exists t0. split; [exact Hin0|].
    rewrite Ht. unfold Host.honoured in Hh. rewrite <- Hd in Hh. lia.
  - destruct Htidy as [->|[tm [-> _]]]; simpl; lia.
Qed.

Lemma debounce_runs_only_deferred_calls_witness :
  length (Host.queue
            (Debounce.host (Debounce.advance 5000 Scenario.debounced_burst)))
  <= 1.
Proof.
  apply (debounce_runs_only_deferred_calls
           (Some 100%Z) 1000
           [(1000%Z, [VData true 1]); (1010%Z, [VData true 2]);
            (1020%Z, [VData true 3]); (1030%Z, [VData true 4]);
            (1040%Z, [VData true 5])] 5000).
  unfold Host.honoured. simpl. lia.
Defined.

Section ThrottlePacing.

Import Throttle.

Lemma spaced_snoc gap ts l t :
  spaced gap (ts ++ [l]) -> (gap <= t - l)%Z -> spaced gap ((ts ++ [l]) ++ [t]).
Proof.
  intros Hs Hg. induction ts as [|x ts IH]; simpl in *; [now split|].
  destruct (ts ++ [l]) as [|y rest] eqn:E.
  - destruct ts; discriminate.
  - destruct Hs as [Hxy Hrest]. simpl. split; [exact Hxy|]. now apply IH.
Qed.

Lemma paced_tidy s : throttle_paced s -> tidy s.
Proof.
  intros ([Hq|(tm & Hq & Ht & _)] & _); [now left|].
  right. now exists tm.
Qed.

Lemma limit_fold t q :
  forall s,
    limit (fold_left
             (fun acc tm =>
                if (Host.due tm <=? t)%Z then fire tm (Host.due tm) acc else acc)
             q s) = limit s.
Proof.
  induction q as [|tm q IH]; intros s; simpl; [reflexivity|].
  rewrite IH. now destruct (Host.due tm <=? t)%Z.
Qed.

Lemma limit_advance t s : limit (advance t s) = limit s.
Proof. unfold advance. simpl. apply limit_fold. Qed.

Lemma limit_invoke args s : limit (invoke args s) = limit s.
Proof.
  unfold invoke. destruct (_ <=? 0)%Z; [reflexivity|].
  now destruct (Host.setTimeout _ _ _).
Qed.

Lemma spaced_after s t a :
  spaced (limit s) (map fst (fn_calls s)) ->
  (fn_calls s = [] \/ exists pre b, fn_calls s = pre ++ [(lastCall s, b)]) ->
  (limit s <= t - lastCall s)%Z ->
  spaced (limit s) (map fst (fn_calls s ++ [(t, a)])).
Proof.
  intros Hs [He|(pre & b & He)] Hg; rewrite He in *.
  - exact I.
  - rewrite !map_app in *. simpl in *. now apply spaced_snoc.
Qed.

Lemma paced_advance t s : throttle_paced s -> throttle_paced (advance t s).
Proof.
  intros (Hq & Hs & Hl). unfold throttle_paced. rewrite limit_advance.
  destruct Hq as [Hq|(tm & Hq & Ht & Hd)].
  - destruct (advance_idle t s Hq) as (Hc & Hlc & Hq').
    rewrite Hc, Hlc, Hq'. split; [now left|now split].
  - destruct (Z.leb_spec (Host.due tm) t) as [H|H].
    + destruct (advance_fires tm t s Hq H) as (Hc & Hlc & Hq' & _).
      rewrite Hc, Hlc, Hq'. split; [now left|]. split.
      * apply spaced_after; [exact Hs|exact Hl|lia].
      * right. now exists (fn_calls s), (Host.payload tm).
    + destruct (advance_waits tm t s Hq H) as (Hc & Hlc & Hq' & Ht').
      rewrite Hc, Hlc, Hq', Ht'. split; [|now split].
      right. now exists tm.
Qed.

Lemma paced_invoke args s : throttle_paced s -> throttle_paced (invoke args s).
Proof.
  intros Hp. pose proof (paced_tidy s Hp) as Htidy.
  destruct Hp as (_ & Hs & Hl). unfold throttle_paced. rewrite limit_invoke.
  destruct (Z.leb_spec (limit s - (Host.clock (host s) - lastCall s)) 0)
    as [H|H].
  - destruct (invoke_leading args s Htidy H) as (Hc & Hlc & Hq).
    rewrite Hc, Hlc, Hq. split; [now left|]. split.
    + apply spaced_after; [exact Hs|exact Hl|lia].
    + right. now exists (fn_calls s), args.
  - destruct (invoke_trailing args s Htidy H) as (Hc & Hlc & id & Hq & Ht).
    rewrite Hc, Hlc, Hq, Ht. split; [|now split].
    right. eexists. split; [reflexivity|]. split; reflexivity.
Qed.

Lemma paced_calls calls :
  forall s, throttle_paced s -> throttle_paced (throttle_calls calls s).
Proof.
  induction calls as [|[t a] calls IH]; intros s Hp; [exact Hp|].
  apply IH. unfold invoke_at. now apply paced_invoke, paced_advance.
Qed.

Lemma limit_calls calls : forall s, limit (throttle_calls calls s) = limit s.
Proof.
  induction calls as [|[t a] calls IH]; intros s; [reflexivity|].
  simpl. rewrite IH. unfold invoke_at. now rewrite limit_invoke, limit_advance.
Qed.

Lemma tidy_calls calls : forall s, tidy s -> tidy (throttle_calls calls s).
Proof.
  induction calls as [|[t a] calls IH]; intros s Hp; [exact Hp|].
  apply IH. unfold invoke_at. now apply tidy_invoke, tidy_advance.
Qed.

Lemma sound_advance seen t s :
  throttle_sound seen s -> throttle_sound seen (advance t s).
Proof.
  intros (Htidy & Hn & Hf & Hq). split; [now apply tidy_advance|].
  destruct Htidy as [Hq0|[tm [Hq1 Ht]]].
  - destruct (advance_idle t s Hq0) as (Hc & _ & Hq').
    rewrite Hc, Hq'. rewrite Hq0 in Hn.
    split; [exact Hn|]. split; [exact Hf|intros x []].
  - destruct (Z.leb_spec (Host.due tm) t) as [H|H].
    + destruct (advance_fires tm t s Hq1 H) as (Hc & _ & Hq' & _).
      rewrite Hc, Hq'. rewrite Hq1 in Hn. rewrite length_app. simpl in *.
      split; [lia|]. split; [|intros x []].
      intros t' a Hin. apply in_app_or in Hin as [Hin|[Hin|[]]].
      * eapply Hf, Hin.
      * inversion Hin; subst. apply Hq. rewrite Hq1. now left.
    + destruct (advance_waits tm t s Hq1 H) as (Hc & _ & Hq' & _).
      rewrite Hc, Hq'. rewrite Hq1 in Hn, Hq. now repeat split.
Qed.

Lemma sound_invoke_at seen t a s :
  throttle_sound seen s -> throttle_sound (seen ++ [(t, a)]) (invoke_at t a s).
Proof.
  intros Hs. apply (sound_advance seen t) in Hs.
  destruct Hs as (Htidy & Hn & Hf & Hq). unfold invoke_at.
  set (s1 := advance t s) in *. clearbody s1.
  assert (Hin : In a (map snd (seen ++ [(t, a)]))).
  { rewrite map_app. apply in_or_app. right. now left. }
  assert (Hmore : forall x, In x (map snd seen) ->
                            In x (map snd (seen ++ [(t, a)]))).
  { intros x Hx. rewrite map_app. apply in_or_app. now left. }
  split; [now apply tidy_invoke|]. rewrite length_app. simpl.
  destruct (Z.leb_spec (limit s1 - (Host.clock (host s1) - lastCall s1)) 0)
    as [H|H].
  - destruct (invoke_leading a s1 Htidy H) as (Hc & _ & Hq').
    rewrite Hc, Hq', length_app. simpl. split; [lia|]. split; [|intros x []].
    intros t' a' Hi. apply in_app_or in Hi as [Hi|[Hi|[]]].
    + eapply Hmore, Hf, Hi.
    + inversion Hi; subst. exact Hin.
  - destruct (invoke_trailing a s1 Htidy H) as (Hc & _ & id & Hq' & _).
    rewrite Hc, Hq'. simpl. split; [lia|]. split.
    + intros t' a' Hi. eapply Hmore, Hf, Hi.
    + intros x [<-|[]]. exact Hin.
Qed.

Lemma sound_calls :
  forall calls seen s,
    throttle_sound seen s ->
    throttle_sound (seen ++ calls) (throttle_calls calls s).
Proof.
  induction calls as [|[t a] calls IH]; intros seen s Hs.
  - now rewrite app_nil_r.
  - change (seen ++ (t, a) :: calls) with (seen ++ [(t, a)] ++ calls).
    rewrite app_assoc. apply IH. now apply sound_invoke_at.
Qed.

Lemma throttle_calls_app calls1 calls2 s :
  throttle_calls (calls1 ++ calls2) s
  = throttle_calls calls2 (throttle_calls calls1 s).
Proof. apply fold_left_app. Qed.

End ThrottlePacing.

(** X15.  However a throttled wrapper is called, any two successive
    executions of [fn], immediate or deferred, lie at least [limit] ms
    apart. *)
Theorem throttle_executions_are_spaced limit now calls T :
  let s := Throttle.advance T
             (throttle_calls calls (Throttle.throttle limit now)) in
  Throttle.limit s = match limit with Some l => l | None => 100%Z end /\
  spaced (Throttle.limit s) (map fst (Throttle.fn_calls s)).
Proof.
  intros s.
  assert (H0 : throttle_paced (Throttle.throttle limit now)).
  { split; [now left|]. split; [exact I|now left]. }
  apply (paced_calls calls), (paced_advance T) in H0. fold s in H0.
  split; [|apply H0].
  subst s. now rewrite limit_advance, limit_calls.
Qed.

(** X16.  A throttled wrapper never runs [fn] more often than it was
    called, and only ever with arguments that some call passed to it. *)
Theorem throttle_runs_no_more_than_called limit now calls T :
  let s := Throttle.advance T
             (throttle_calls calls (Throttle.throttle limit now)) in
  length (Throttle.fn_calls s) <= length calls /\
  forall t a, In (t, a) (Throttle.fn_calls s) -> In a (map snd calls).
Proof.
  intros s.
  assert (H0 : throttle_sound [] (Throttle.throttle limit now)).
  { split; [now left|]. split; [simpl; lia|].
    split; [intros t a []|intros tm []]. }
  apply (sound_calls calls), (sound_advance _ T) in H0.
  simpl in H0. fold s in H0.
  destruct H0 as (_ & Hn & Hf & _). split; [lia|exact Hf].
Qed.

(** X17.  The most recent call of a throttled wrapper is never lost:
    either it ran [fn] at once, or its arguments are the ones scheduled,
    and [fn] runs with them when the cooldown ends unless a later call
    comes first. *)
Theorem throttle_latest_call_gets_through limit now calls t a :
  let s := throttle_calls (calls ++ [(t, a)]) (Throttle.throttle limit now) in
  (exists pre, Throttle.fn_calls s = pre ++ [(t, a)] /\
               Host.queue (Throttle.host s) = []) \/
  (exists id due,
      Host.queue (Throttle.host s) = [Host.mkTimer id due a] /\
      forall T, (due <= T)%Z ->
                Throttle.fn_calls (Throttle.advance T s)
                = Throttle.fn_calls s ++ [(due, a)]).
Proof.
  intros s. subst s. rewrite throttle_calls_app.
  set (s0 := throttle_calls calls (Throttle.throttle limit now)).
  assert (Htidy : Throttle.tidy (Throttle.advance t s0)).
  { apply tidy_advance, tidy_calls. now left. }
  change (throttle_calls [(t, a)] s0)
    with (Throttle.invoke a (Throttle.advance t s0)).
  set (s1 := Throttle.advance t s0) in *.
  assert (Hclock : Host.clock (Throttle.host s1) = t) by reflexivity.
  clearbody s1.
  destruct (Z.leb_spec (Throttle.limit s1
                        - (Host.clock (Throttle.host s1) - Throttle.lastCall s1)) 0)
    as [H|H].
  - left. destruct (invoke_leading a s1 Htidy H) as (Hc & _ & Hq).
    exists (Throttle.fn_calls s1). rewrite Hc, Hclock. now split.
  - right. destruct (invoke_trailing a s1 Htidy H) as (_ & _ & id & Hq & _).
    exists id, (Throttle.lastCall s1 + Throttle.limit s1)%Z.
    split; [exact Hq|]. intros T HT.
    now destruct (advance_fires _ T _ Hq HT) as (Hf & _).
Qed.

(** X18.  For a delay that timers honour (1 ms to 2^31-1 ms, the
    default of 300 ms among them), timers firing when due: the most
    recent call of a debounced wrapper is the one whose arguments are
    pending, due the delay after it; [fn] runs with them then unless a
    later call comes first. *)
Theorem debounce_latest_call_gets_through delay now calls t a :
  Host.honoured (Debounce.delay (Debounce.debounce delay now)) ->
  let s := debounce_calls (calls ++ [(t, a)]) (Debounce.debounce delay now) in
  exists id,
    Host.queue (Debounce.host s)
    = [Host.mkTimer id (t + Debounce.delay s) a] /\
    forall T, (t + Debounce.delay s <= T)%Z ->
              Debounce.fn_calls (Debounce.advance T s)
              = Debounce.fn_calls s ++ [((t + Debounce.delay s)%Z, a)].
Proof.
  intros Hh s.
  assert (Hd0 : Debounce.delay s = Debounce.delay (Debounce.debounce delay now)).
  { subst s. now rewrite debounce_delay_calls. }
  assert (Hmax : Z.max 0 (Debounce.delay s) = Debounce.delay s).
  { rewrite Hd0. unfold Host.honoured in Hh. lia. }
  rewrite <- Hmax. clear Hmax Hd0 Hh.
  subst s. unfold debounce_calls. rewrite fold_left_app.
  fold (debounce_calls calls (Debounce.debounce delay now)).
  set (s0 := debounce_calls calls (Debounce.debounce delay now)).
  assert (H0 : debounce_sound [] (Debounce.debounce delay now)).
  { split; [now left|]. split; [intros t' a' []|intros tm []]. }
  apply (debounce_sound_calls calls) in H0. fold s0 in H0.
  apply (debounce_sound_advance _ t) in H0. destruct H0 as (Htidy & _).
  change (fold_left (fun acc c => Debounce.invoke_at (fst c) (snd c) acc)
                    [(t, a)] s0)
    with (Debounce.invoke a (Debounce.advance t s0)).
  destruct (debounce_invoke a (Debounce.advance t s0) Htidy)
    as (_ & Hd & _ & id & Hq & _).
  rewrite Hd. exists id. split; [exact Hq|].
  intros T HT.
  now destruct (debounce_advance_fires _ T _ Hq HT) as (Hf & _).
Qed.

Lemma debounce_latest_call_gets_through_witness :
  exists id,
    Host.queue (Debounce.host Scenario.debounced_burst)
    = [Host.mkTimer id (1040 + 100) [VData true 5]] /\
    forall T, (1040 + 100 <= T)%Z ->
              Debounce.fn_calls (Debounce.advance T Scenario.debounced_burst)
              = Debounce.fn_calls Scenario.debounced_burst
                ++ [((1040 + 100)%Z, [VData true 5])].
Proof.
  apply (debounce_latest_call_gets_through
           (Some 100%Z) 1000
           [(1000%Z, [VData true 1]); (1010%Z, [VData true 2]);
            (1020%Z, [VData true 3]); (1030%Z, [VData true 4])]
           1040 [VData true 5]).
  unfold Host.honoured. simpl. lia.
Defined.

(** ** The priority queue *)

Section HeapArrayFacts.

Import PQ.

Context {T : Type}.
Implicit Types (h : Heap T) (x a b : HeapNode T).

Lemma parent_spec i :
  0 < i -> i = 2 * parent i + 1 \/ i = 2 * parent i + 2.
Proof.
  intros Hi. unfold parent.
  pose proof (Nat.div_mod_eq (i - 1) 2) as Hd.
  pose proof (Nat.mod_upper_bound (i - 1) 2) as Hm.
  lia.
Qed.

Lemma parent_lt i : 0 < i -> parent i < i.
Proof. intros Hi. destruct (parent_spec i Hi); lia. Qed.

Lemma parent_of_child i c :
  c = 2 * i + 1 \/ c = 2 * i + 2 -> parent c = i.
Proof.
  intros Hc. assert (Hpos : 0 < c) by lia.
  destruct (parent_spec c Hpos); lia.
Qed.

Lemma child_of_parent i c :
  0 < c -> parent c = i -> c = 2 * i + 1 \/ c = 2 * i + 2.
Proof. intros Hc <-. now apply parent_spec. Qed.

Lemma length_store i x h : length (store i x h) = length h.
Proof.
  revert i. induction h as [|y h IH]; intros [|i]; simpl; auto.
Qed.

Lemma nth_error_store_same i x h :
  i < length h -> nth_error (store i x h) i = Some x.
Proof.
  revert i. induction h as [|y h IH]; intros [|i] Hi; simpl in *;
    try lia; [reflexivity|]. apply IH. lia.
Qed.

Lemma nth_error_store_other i k x h :
  k <> i -> nth_error (store i x h) k = nth_error h k.
Proof.
  revert i k. induction h as [|y h IH]; intros [|i] [|k] Hk; simpl;
    try reflexivity; try lia. apply IH. lia.
Qed.

(** The array after the two assignments of a swap. *)
Lemma nth_error_swapped i j a b h k :
  i < length h -> j < length h -> i <> j ->
  nth_error (store i a (store j b h)) k =
  if Nat.eqb k i then Some a
  else if Nat.eqb k j then Some b
  else nth_error h k.
Proof.
  intros Hi Hj Hij.
  destruct (Nat.eqb_spec k i) as [->|Hki].
  - apply nth_error_store_same. now rewrite length_store.
  - rewrite nth_error_store_other by exact Hki.
    destruct (Nat.eqb_spec k j) as [->|Hkj].
    + now apply nth_error_store_same.
    + now apply nth_error_store_other.
Qed.

Lemma store_gives_back j a b h :
  nth_error h j = Some b -> Permutation (b :: store j a h) (a :: h).
Proof.
  revert j. induction h as [|y h IH]; intros [|j] Hj; simpl in *;
    try discriminate.
  - inversion Hj; subst. apply perm_swap.
  - eapply perm_trans; [apply perm_swap|].
    eapply perm_trans; [apply perm_skip, IH, Hj|]. apply perm_swap.
Qed.

Lemma swapped_permutation_lt i j a b h :
  i < j ->
  nth_error h i = Some a -> nth_error h j = Some b ->
  Permutation (store i b (store j a h)) h.
Proof.
  revert i j. induction h as [|y h IH]; intros [|i] [|j] Hij Hi Hj;
    simpl in *; try discriminate; try lia.
  - inversion Hi; subst. now apply store_gives_back.
  - apply perm_skip, IH; [lia|assumption|assumption].
Qed.

Lemma store_commute i j a b h :
  i <> j -> store i a (store j b h) = store j b (store i a h).
Proof.
  revert i j. induction h as [|y h IH]; intros [|i] [|j] Hij; simpl;
    try reflexivity; try lia. f_equal. apply IH. lia.
Qed.

Lemma swapped_permutation i j a b h :
  i <> j ->
  nth_error h i = Some a -> nth_error h j = Some b ->
  Permutation (store i b (store j a h)) h.
Proof.
  intros Hij Hi Hj. destruct (Nat.lt_ge_cases i j) as [Hlt|Hge].
  - now apply swapped_permutation_lt.
  - rewrite store_commute by exact Hij.
    apply swapped_permutation_lt; [lia|assumption|assumption].
Qed.

Lemma read_some h i x : nth_error h i = Some x -> read h i = Normal x.
Proof. unfold read. now intros ->. Qed.

Lemma nth_error_in_range h i : i < length h -> exists x, nth_error h i = Some x.
Proof.
  intros Hi. destruct (nth_error h i) eqn:E; [now eexists|].
  apply nth_error_None in E. lia.
Qed.

End HeapArrayFacts.

Section BubbleUpFacts.

Import PQ.

Context {T : Type}.
Implicit Types (h : Heap T).

Lemma up_at_root h : ordered_but_up 0 h -> heap_ordered h.
Proof.
  intros [H1 _] i n m Hi Hn Hm. apply (H1 i n m); try assumption. lia.
Qed.

Lemma up_settled j h p c :
  ordered_but_up j h ->
  nth_error h (parent j) = Some p -> nth_error h j = Some c ->
  (priority p <= priority c)%Z ->
  heap_ordered h.
Proof.
  intros [H1 _] Hp Hc Hle i n m Hi Hn Hm.
  destruct (Nat.eq_dec i j) as [->|Hne].
  - rewrite Hc in Hn. rewrite Hp in Hm. inversion Hn; inversion Hm; now subst.
  - now apply (H1 i n m).
Qed.

(** The swap of [_bubbleUp] moves the exception one level up. *)
Lemma up_swapped j h p c :
  0 < j ->
  ordered_but_up j h ->
  nth_error h (parent j) = Some p -> nth_error h j = Some c ->
  (priority c < priority p)%Z ->
  ordered_but_up (parent j) (store j p (store (parent j) c h)).
Proof.
  intros Hj [H1 H2] Hp Hc Hlt.
  pose proof (parent_lt j Hj) as Hpj.
  assert (Hjl : j < length h) by (apply nth_error_Some; congruence).
  assert (Hpl : parent j < length h) by lia.
  assert (Hnth : forall k,
             nth_error (store j p (store (parent j) c h)) k =
             if Nat.eqb k j then Some p
             else if Nat.eqb k (parent j) then Some c
             else nth_error h k).
  { intros k. apply nth_error_swapped; lia. }
  split.
  - intros i n m Hi Hne Hn Hm. rewrite Hnth in Hn, Hm.
    pose proof (parent_lt i Hi) as Hpi.
    destruct (Nat.eqb_spec i j) as [->|Hij].
    + inversion Hn; subst n.
      destruct (Nat.eqb_spec (parent j) j) as [E|_]; [lia|].
      rewrite Nat.eqb_refl in Hm. inversion Hm; subst m. lia.
    + destruct (Nat.eqb_spec i (parent j)) as [E|_]; [contradiction|].
      destruct (Nat.eqb_spec (parent i) j) as [Epi|Hpij].
      * inversion Hm; subst m.
        apply (H2 i n p); try assumption.
      * destruct (Nat.eqb_spec (parent i) (parent j)) as [Epp|Hpp].
        -- inversion Hm; subst m.
           assert (priority p <= priority n)%Z.
           { apply (H1 i n p); try assumption. now rewrite Epp. }
           lia.
        -- now apply (H1 i n m).
  - intros k n g Hpar Hk Hkp Hn Hg. rewrite Hnth in Hn, Hg.
    pose proof (parent_lt (parent j) Hpar) as Hgp.
    destruct (Nat.eqb_spec (parent (parent j)) j) as [E|_]; [lia|].
    destruct (Nat.eqb_spec (parent (parent j)) (parent j)) as [E|_]; [lia|].
    assert (Hgp' : (priority g <= priority p)%Z).
    { apply (H1 (parent j) p g); try assumption. lia. }
    destruct (Nat.eqb_spec k j) as [->|Hkj].
    + inversion Hn; subst n. exact Hgp'.
    + destruct (Nat.eqb_spec k (parent j)) as [E|_].
      * subst k. pose proof (parent_lt _ Hk). lia.
      * assert (priority p <= priority n)%Z.
        { apply (H1 k n p); try assumption. now rewrite Hkp. }
        lia.
Qed.

(** [_bubbleUp] ends, raising nothing, on a heap with the same
    elements, in order again if only the element at [idx] stood in the
    way. *)
Lemma bubbleUp_restores :
  forall steps idx h,
    idx < length h ->
    exists h',
      _bubbleUp steps idx h = Normal h' /\
      Permutation h' h /\
      (idx <= steps -> ordered_but_up idx h -> heap_ordered h').
Proof.
  induction steps as [|steps IH]; intros idx h Hlen.
  - exists h. simpl. split; [reflexivity|]. split; [apply Permutation_refl|].
    intros Hs Hup. assert (idx = 0) by lia. subst idx. now apply up_at_root.
  - simpl. destruct (Nat.eqb_spec idx 0) as [->|Hne].
    { exists h. split; [reflexivity|]. split; [apply Permutation_refl|].
      intros _ Hup. now apply up_at_root. }
    assert (Hpos : 0 < idx) by lia.
    pose proof (parent_lt idx Hpos) as Hpi.
    destruct (nth_error_in_range h (parent idx)) as [p Hp]; [lia|].
    destruct (nth_error_in_range h idx Hlen) as [c Hc].
    rewrite (read_some _ _ _ Hp), (read_some _ _ _ Hc).
    destruct (Z.leb_spec (priority p) (priority c)) as [Hle|Hlt].
    + exists h. split; [reflexivity|]. split; [apply Permutation_refl|].
      intros _ Hup. eapply up_settled; eassumption.
    + destruct (IH (parent idx) (store idx p (store (parent idx) c h)))
        as (h' & Hb & Hperm & Ho).
      * rewrite !length_store. lia.
      * exists h'. split; [exact Hb|]. split.
        -- eapply perm_trans; [exact Hperm|].
           apply swapped_permutation; [lia|assumption|assumption].
        -- intros Hs Hup. apply Ho; [lia|]. now apply up_swapped.
Qed.

End BubbleUpFacts.

Section SinkDownFacts.

Import PQ.

Context {T : Type}.
Implicit Types (h : Heap T).

Lemma prio_at_some h i n : nth_error h i = Some n -> prio_at h i = priority n.
Proof. unfold prio_at. now intros ->. Qed.

Lemma smaller_outside h c s :
  length h <= c -> smaller h c s = Normal false.
Proof.
  intros Hc. unfold smaller.
  destruct (Nat.ltb_spec c (length h)); [lia|reflexivity].
Qed.

Lemma smaller_inside h c s :
  c < length h -> s < length h ->
  smaller h c s = Normal (prio_at h c <? prio_at h s)%Z.
Proof.
  intros Hc Hs. unfold smaller.
  destruct (Nat.ltb_spec c (length h)); [|lia].
  destruct (nth_error_in_range h c Hc) as [x Hx].
  destruct (nth_error_in_range h s Hs) as [y Hy].
  rewrite (read_some _ _ _ Hx), (read_some _ _ _ Hy).
  now rewrite (prio_at_some _ _ _ Hx), (prio_at_some _ _ _ Hy).
Qed.

Lemma down_settled j h :
  ordered_but_down j h ->
  (forall o, o = 2 * j + 1 \/ o = 2 * j + 2 -> o < length h ->
             (prio_at h j <= prio_at h o)%Z) ->
  heap_ordered h.
Proof.
  intros [H1 _] Hch i n m Hi Hn Hm.
  destruct (Nat.eq_dec (parent i) j) as [E|Hne].
  - assert (Hil : i < length h) by (apply nth_error_Some; congruence).
    pose proof (Hch i (child_of_parent _ _ Hi E) Hil) as Hle.
    rewrite E in Hm.
    now rewrite (prio_at_some _ _ _ Hn), (prio_at_some _ _ _ Hm) in Hle.
  - now apply (H1 i n m).
Qed.

(** The swap of [_sinkDown] moves the exception one level down. *)
Lemma down_swapped j s h cj cs :
  ordered_but_down j h ->
  nth_error h j = Some cj -> nth_error h s = Some cs ->
  s = 2 * j + 1 \/ s = 2 * j + 2 ->
  (priority cs < priority cj)%Z ->
  (forall o, o = 2 * j + 1 \/ o = 2 * j + 2 -> o < length h ->
             (priority cs <= prio_at h o)%Z) ->
  ordered_but_down s (store j cs (store s cj h)).
Proof.
  intros [H1 H2] Hj Hs Hchild Hlt Hmin.
  assert (Hjl : j < length h) by (apply nth_error_Some; congruence).
  assert (Hsl : s < length h) by (apply nth_error_Some; congruence).
  assert (Hps : parent s = j) by now apply parent_of_child.
  assert (Hnth : forall k,
             nth_error (store j cs (store s cj h)) k =
             if Nat.eqb k j then Some cs
             else if Nat.eqb k s then Some cj
             else nth_error h k).
  { intros k. apply nth_error_swapped; lia. }
  split.
  - intros i n m Hi Hne Hn Hm. rewrite Hnth in Hn, Hm.
    pose proof (parent_lt i Hi) as Hpi.
    destruct (Nat.eqb_spec (parent i) s) as [E|_]; [contradiction|].
    destruct (Nat.eqb_spec (parent i) j) as [Epi|Hpij].
    + inversion Hm; subst m.
      destruct (Nat.eqb_spec i j) as [E|_]; [lia|].
      destruct (Nat.eqb_spec i s) as [E|Hns].
      * inversion Hn; subst n. lia.
      * assert (Hil : i < length h) by (apply nth_error_Some; congruence).
        pose proof (Hmin i (child_of_parent _ _ Hi Epi) Hil) as Hle.
        now rewrite (prio_at_some _ _ _ Hn) in Hle.
    + destruct (Nat.eqb_spec i s) as [E|Hns]; [subst i; contradiction|].
      destruct (Nat.eqb_spec i j) as [E|Hnj].
      * subst i. inversion Hn; subst n.
        apply (H2 s cs m); try assumption. lia.
      * now apply (H1 i n m).
  - intros k n g Hspos Hk Hkp Hn Hg. rewrite Hnth in Hn, Hg.
    rewrite Hps in Hg. rewrite Nat.eqb_refl in Hg. inversion Hg; subst g.
    pose proof (parent_lt k Hk) as Hpk.
    destruct (Nat.eqb_spec k j) as [E|_]; [lia|].
    destruct (Nat.eqb_spec k s) as [E|_]; [lia|].
    apply (H1 k n cs); try assumption; [lia|].
    now rewrite Hkp.
Qed.

(** [_sinkDown] ends, raising nothing, on a heap with the same
    elements, in order again if only the element at [idx] stood in the
    way. *)
Lemma sinkDown_restores :
  forall steps idx h,
    exists h',
      _sinkDown steps idx h = Normal h' /\
      Permutation h' h /\
      (length h <= idx + steps -> ordered_but_down idx h -> heap_ordered h').
Proof.
  induction steps as [|steps IH]; intros idx h.
  - exists h. split; [reflexivity|]. split; [apply Permutation_refl|].
    intros Hlen Hd. apply (down_settled idx); [exact Hd|]. intros o Ho Hol. lia.
  - cbn [_sinkDown].
    destruct (Nat.lt_ge_cases idx (length h)) as [Hin|Hout].
    2:{ rewrite !smaller_outside by lia. rewrite Nat.eqb_refl.
        exists h. split; [reflexivity|]. split; [apply Permutation_refl|].
        intros _ Hd. apply (down_settled idx); [exact Hd|].
        intros o Ho Hol. lia. }
    set (l := 2 * idx + 1). set (r := 2 * idx + 2).
    assert (Hb1 : exists b1,
               smaller h l idx = Normal b1 /\
               (b1 = true -> l < length h /\ (prio_at h l < prio_at h idx)%Z) /\
               (b1 = false -> l < length h -> (prio_at h idx <= prio_at h l)%Z)).
    { destruct (Nat.lt_ge_cases l (length h)) as [Hl|Hl].
      - rewrite smaller_inside by assumption. eexists. split; [reflexivity|].
        split; intros Hb.
        + apply Z.ltb_lt in Hb. now split.
        + intros _. apply Z.ltb_ge in Hb. exact Hb.
      - rewrite smaller_outside by assumption. eexists. split; [reflexivity|].
        split; [discriminate|]. intros _ Hl'. lia. }
    destruct Hb1 as (b1 & -> & Hb1t & Hb1f).
    set (sm1 := if b1 then l else idx).
    assert (Hsm1 : sm1 < length h).
    { subst sm1. destruct b1; [now apply Hb1t|exact Hin]. }
    assert (Hb2 : exists b2,
               smaller h r sm1 = Normal b2 /\
               (b2 = true -> r < length h /\ (prio_at h r < prio_at h sm1)%Z) /\
               (b2 = false -> r < length h -> (prio_at h sm1 <= prio_at h r)%Z)).
    { destruct (Nat.lt_ge_cases r (length h)) as [Hr|Hr].
      - rewrite smaller_inside by assumption. eexists. split; [reflexivity|].
        split; intros Hb.
        + apply Z.ltb_lt in Hb. now split.
        + intros _. apply Z.ltb_ge in Hb. exact Hb.
      - rewrite smaller_outside by assumption. eexists. split; [reflexivity|].
        split; [discriminate|]. intros _ Hr'. lia. }
    destruct Hb2 as (b2 & -> & Hb2t & Hb2f).
    set (sm := if b2 then r else sm1).
    destruct (Nat.eqb_spec sm idx) as [Heq|Hneq].
    + assert (b2 = false) by (destruct b2; [subst sm r; lia|reflexivity]).
      subst b2.
      assert (b1 = false) by (destruct b1; [subst sm sm1 l; simpl in Heq; lia|reflexivity]).
      subst b1. subst sm sm1.
      exists h. split; [reflexivity|]. split; [apply Permutation_refl|].
      intros _ Hd. apply (down_settled idx); [exact Hd|].
      intros o [Ho|Ho] Hol; subst o; [now apply Hb1f|now apply Hb2f].
    + assert (Hsml : sm < length h).
      { subst sm. destruct b2; [now apply Hb2t|exact Hsm1]. }
      assert (Hchild : sm = 2 * idx + 1 \/ sm = 2 * idx + 2).
      { subst sm sm1. destruct b2; [now right|].
        destruct b1; [now left|contradiction]. }
      assert (Hlow : (prio_at h sm < prio_at h idx)%Z).
      { subst sm sm1. destruct b2, b1;
          try (destruct (Hb2t eq_refl)); try (destruct (Hb1t eq_refl));
          try lia; contradiction. }
      assert (Hmin : forall o, o = 2 * idx + 1 \/ o = 2 * idx + 2 ->
                               o < length h ->
                               (prio_at h sm <= prio_at h o)%Z).
      { intros o [Ho|Ho] Hol; subst o; fold l in Hol |- *; fold r in Hol |- *;
          subst sm sm1; destruct b2, b1;
            try (destruct (Hb2t eq_refl)); try (destruct (Hb1t eq_refl));
            try specialize (Hb1f eq_refl Hol);
            try specialize (Hb2f eq_refl Hol);
            try lia; contradiction. }
      destruct (nth_error_in_range h sm Hsml) as [cs Hcs].
      destruct (nth_error_in_range h idx Hin) as [cj Hcj].
      rewrite (read_some _ _ _ Hcs), (read_some _ _ _ Hcj).
      destruct (IH sm (store idx cs (store sm cj h))) as (h' & Hrun & Hperm & Hord).
      exists h'. split; [exact Hrun|]. split.
      * eapply perm_trans; [exact Hperm|].
        apply swapped_permutation; [lia|assumption|assumption].
      * intros Hlen Hd. apply Hord.
        -- rewrite !length_store. lia.
        -- rewrite (prio_at_some _ _ _ Hcs) in Hlow, Hmin.
           rewrite (prio_at_some _ _ _ Hcj) in Hlow.
           now apply down_swapped.
Qed.

End SinkDownFacts.

Section QueueFacts.

Import PQ.

Context {T : Type}.
Implicit Types (h : Heap T).

(** In a heap in order, the first element is a lowest one. *)
Lemma root_minimal h top :
  heap_ordered h -> nth_error h 0 = Some top ->
  forall i n, nth_error h i = Some n -> (priority top <= priority n)%Z.
Proof.
  intros Ho Htop i. induction i as [i IH] using lt_wf_ind. intros n Hn.
  destruct (Nat.eq_dec i 0) as [->|Hne].
  - rewrite Htop in Hn. inversion Hn. lia.
  - assert (Hi : 0 < i) by lia.
    pose proof (parent_lt i Hi) as Hp.
    assert (Hil : i < length h) by (apply nth_error_Some; congruence).
    destruct (nth_error_in_range h (parent i)) as [m Hm]; [lia|].
    pose proof (IH (parent i) Hp m Hm).
    pose proof (Ho i n m Hi Hn Hm). lia.
Qed.

Lemma appended_is_ordered_but_up h x :
  heap_ordered h -> ordered_but_up (length h) (h ++ [x]).
Proof.
  intros Ho. split.
  - intros i n m Hi Hne Hn Hm.
    assert (Hil : i < length (h ++ [x])) by (apply nth_error_Some; congruence).
    rewrite length_app in Hil. simpl in Hil.
    pose proof (parent_lt i Hi).
    rewrite nth_error_app1 in Hn, Hm by lia.
    now apply (Ho i n m).
  - intros c n g _ Hc Hpc Hn _.
    assert (Hcl : c < length (h ++ [x])) by (apply nth_error_Some; congruence).
    rewrite length_app in Hcl. simpl in Hcl.
    destruct (child_of_parent _ _ Hc Hpc); lia.
Qed.

(** [enqueue] on any array: no throw, one element more. *)
Lemma enqueue_adds v p h :
  exists h',
    enqueue v p h = Normal h' /\
    Permutation h' (mkNode p v :: h) /\
    (heap_ordered h -> heap_ordered h').
Proof.
  unfold enqueue. rewrite length_app. simpl length.
  replace (length h + 1 - 1) with (length h) by lia.
  destruct (bubbleUp_restores (length h) (length h) (h ++ [mkNode p v]))
    as (h' & Hb & Hperm & Ho).
  { rewrite length_app. simpl. lia. }
  exists h'. split; [exact Hb|]. split.
  - eapply perm_trans; [exact Hperm|].
    apply Permutation_sym, Permutation_cons_append.
  - intros Hord. apply Ho; [lia|]. now apply appended_is_ordered_but_up.
Qed.

Lemma root_replaced_is_ordered_but_down (top : HeapNode T) rest x :
  heap_ordered (top :: rest ++ [x]) -> ordered_but_down 0 (x :: rest).
Proof.
  intros Ho. split.
  - intros i n m Hi Hne Hn Hm.
    destruct i as [|i]; [lia|].
    destruct (parent (S i)) as [|k] eqn:Hk; [contradiction|].
    simpl in Hn, Hm.
    assert (Hil : i < length rest) by (apply nth_error_Some; congruence).
    assert (Hkl : k < length rest) by (apply nth_error_Some; congruence).
    apply (Ho (S i) n m); [lia| |].
    + simpl. now rewrite nth_error_app1.
    + rewrite Hk. simpl. now rewrite nth_error_app1.
  - intros c n g Hz. lia.
Qed.

(** [dequeue] on a heap that is not empty and in order. *)
Lemma dequeue_takes_minimum (top : HeapNode T) rest :
  heap_ordered (top :: rest) ->
  exists h',
    dequeue (top :: rest) = Normal (Some (value top), h') /\
    Permutation (top :: rest) (top :: h') /\
    heap_ordered h' /\
    forall n, In n (top :: rest) -> (priority top <= priority n)%Z.
Proof.
  intros Ho.
  assert (Hmin : forall n, In n (top :: rest) -> (priority top <= priority n)%Z).
  { intros n Hin. apply In_nth_error in Hin as [i Hi].
    now apply (root_minimal (top :: rest) top Ho eq_refl i). }
  destruct rest as [|y rest'] using rev_ind.
  - exists []. simpl. repeat split; try assumption.
    + apply Permutation_refl.
    + intros i n m _ Hn. destruct i; discriminate.
  - clear IHrest'. unfold dequeue.
    change (top :: rest' ++ [y]) with ((top :: rest') ++ [y]).
    rewrite last_last, removelast_last.
    simpl length. simpl Nat.ltb. cbv iota.
    simpl store.
    destruct (sinkDown_restores (S (length rest')) 0 (y :: rest'))
      as (h' & Hs & Hperm & Hord).
    rewrite Hs. exists h'. split; [reflexivity|]. split; [|split].
    + apply perm_skip. apply Permutation_sym.
      eapply perm_trans; [exact Hperm|]. apply Permutation_cons_append.
    + apply Hord; [simpl; lia|].
      now apply (root_replaced_is_ordered_but_down top).
    + exact Hmin.
Qed.

(** [dequeue] on any array: no throw, the first element's value. *)
Lemma dequeue_total h :
  exists h',
    dequeue h = Normal (peek h, h') /\ length h' = length h - 1.
Proof.
  destruct h as [|top rest]; [now exists []|].
  destruct rest as [|y rest'] using rev_ind.
  - now exists [].
  - clear IHrest'. unfold dequeue.
    change (top :: rest' ++ [y]) with ((top :: rest') ++ [y]).
    rewrite last_last, removelast_last.
    simpl length. simpl Nat.ltb. cbv iota. simpl store.
    destruct (sinkDown_restores (S (length rest')) 0 (y :: rest'))
      as (h' & Hs & Hperm & _).
    rewrite Hs. exists h'. split; [reflexivity|].
    apply Permutation_length in Hperm. rewrite Hperm, length_app. simpl. lia.
Qed.

Lemma drain_sorts :
  forall steps h acc,
    heap_ordered h -> length h <= steps ->
    exists nodes,
      drain steps h acc
      = Normal (acc ++ map (fun n => Some (value n)) nodes, []) /\
      Permutation nodes h /\
      by_priority nodes.
Proof.
  induction steps as [|steps IH]; intros h acc Ho Hlen.
  - destruct h; [|simpl in Hlen; lia].
    exists []. simpl. rewrite app_nil_r. repeat split; constructor.
  - destruct h as [|top rest].
    + exists []. simpl. rewrite app_nil_r. repeat split; constructor.
    + destruct (dequeue_takes_minimum top rest Ho) as (h' & Hd & Hperm & Ho' & Hmin).
      cbn [drain isEmpty length Nat.eqb]. rewrite Hd.
      destruct (IH h' (acc ++ [Some (value top)]) Ho') as (nodes & Hr & Hp & Hs).
      { apply Permutation_length in Hperm. simpl in Hperm, Hlen. lia. }
      exists (top :: nodes). rewrite Hr. simpl. rewrite <- app_assoc.
      split; [reflexivity|]. split.
      * apply perm_skip. eapply perm_trans; [exact Hp|].
        apply Permutation_sym. eapply Permutation_cons_inv, Hperm.
      * constructor; [exact Hs|].
        rewrite Forall_forall. intros n Hn. apply Hmin.
        eapply Permutation_in; [apply Permutation_sym, Hperm|].
        right. eapply Permutation_in; [exact Hp|exact Hn].
Qed.

Lemma enqueue_all_adds items :
  forall h,
    heap_ordered h ->
    exists h',
      enqueue_all items h = Normal h' /\
      heap_ordered h' /\
      Permutation h' (map (fun vp => mkNode (snd vp) (fst vp)) items ++ h).
Proof.
  induction items as [|[v p] items IH]; intros h Ho.
  - exists h. repeat split; [assumption|apply Permutation_refl].
  - simpl. destruct (enqueue_adds v p h) as (h1 & He & Hp1 & Ho1).
    rewrite He. destruct (IH h1 (Ho1 Ho)) as (h' & Ha & Ho' & Hp').
    exists h'. split; [exact Ha|]. split; [exact Ho'|].
    eapply perm_trans; [exact Hp'|].
    eapply perm_trans; [apply Permutation_app_head, Hp1|].
    apply Permutation_sym, Permutation_middle.
Qed.

Lemma drain_total :
  forall steps h acc,
    length h <= steps ->
    exists vs,
      drain steps h acc = Normal (acc ++ vs, []) /\ length vs = length h.
Proof.
  induction steps as [|steps IH]; intros h acc Hlen.
  - destruct h; [|simpl in Hlen; lia].
    exists []. simpl. now rewrite app_nil_r.
  - destruct h as [|top rest].
    + exists []. simpl. now rewrite app_nil_r.
    + destruct (dequeue_total (top :: rest)) as (h' & Hd & Hl).
      cbn [drain isEmpty length Nat.eqb]. rewrite Hd.
      simpl in Hl, Hlen.
      destruct (IH h' (acc ++ [peek (top :: rest)])) as (vs & Hr & Hv); [lia|].
      exists (peek (top :: rest) :: vs). rewrite Hr, <- app_assoc.
      split; [reflexivity|]. simpl. lia.
Qed.

Lemma empty_heap_ordered : heap_ordered (@nil (HeapNode T)).
Proof. intros i n m _ Hn. destruct i; discriminate. Qed.

End QueueFacts.

Lemma small_heap_ordered : PQ.heap_ordered QueueScenario.small.
Proof.
  intros i n m Hi Hn Hm.
  destruct i as [|[|[|i]]]; [lia| | |destruct i; discriminate Hn];
    cbv in Hn, Hm; injection Hn as <-; injection Hm as <-; simpl; lia.
Qed.

(** X19.  [enqueue] keeps the heap in order: on a heap in order it
    returns normally, with the new element added to the others and no
    element lower than its parent. *)
Theorem enqueue_keeps_heap_order {T} (v : T) p (h : PQ.Heap T) :
  PQ.heap_ordered h ->
  exists h',
    PQ.enqueue v p h = Normal h' /\
    PQ.heap_ordered h' /\
    Permutation h' (PQ.mkNode p v :: h) /\
    PQ.size h' = S (PQ.size h).
Proof.
  intros Ho. destruct (enqueue_adds v p h) as (h' & He & Hp & Hord).
  exists h'. split; [exact He|]. split; [now apply Hord|].
  split; [exact Hp|].
  unfold PQ.size. now rewrite (Permutation_length Hp).
Qed.

Lemma enqueue_keeps_heap_order_witness :
  exists h',
    PQ.enqueue "d" 0 QueueScenario.small = Normal h' /\
    PQ.heap_ordered h' /\
    Permutation h' (PQ.mkNode 0 "d" :: QueueScenario.small) /\
    PQ.size h' = S (PQ.size QueueScenario.small).
Proof.
  apply enqueue_keeps_heap_order. exact small_heap_ordered.
Defined.

(** X20.  [dequeue] on a heap in order that is not empty returns the
    value of an element of lowest priority, removes that element and no
    other, and leaves the heap in order. *)
Theorem dequeue_returns_a_minimum {T} (h : PQ.Heap T) :
  PQ.heap_ordered h -> h <> [] ->
  exists top h',
    PQ.dequeue h = Normal (Some (PQ.value top), h') /\
    In top h /\
    (forall n, In n h -> (PQ.priority top <= PQ.priority n)%Z) /\
    Permutation h (top :: h') /\
    PQ.heap_ordered h' /\
    PQ.size h' = PQ.size h - 1.
Proof.
  intros Ho Hne. destruct h as [|top rest]; [contradiction|].
  destruct (dequeue_takes_minimum top rest Ho) as (h' & Hd & Hp & Ho' & Hmin).
  exists top, h'. split; [exact Hd|]. split; [now left|].
  split; [exact Hmin|]. split; [exact Hp|]. split; [exact Ho'|].
  unfold PQ.size. rewrite (Permutation_length Hp). simpl. lia.
Qed.

Lemma dequeue_returns_a_minimum_witness :
  exists top h',
    PQ.dequeue QueueScenario.small = Normal (Some (PQ.value top), h') /\
    In top QueueScenario.small /\
    (forall n, In n QueueScenario.small ->
               (PQ.priority top <= PQ.priority n)%Z) /\
    Permutation QueueScenario.small (top :: h') /\
    PQ.heap_ordered h' /\
    PQ.size h' = PQ.size QueueScenario.small - 1.
Proof.
  apply dequeue_returns_a_minimum.
  - exact small_heap_ordered.
  - discriminate.
Defined.

(** X21.  No operation of the queue throws, whatever the array holds:
    [enqueue] adds one element, [dequeue] returns what [peek] shows
    ([undefined] on an empty queue) and takes one element off unless
    there is none, and [toSortedArray] returns as many values as the
    queue held and leaves it empty. *)
Theorem queue_operations_never_throw {T} (h : PQ.Heap T) :
  (forall v p, exists h',
      PQ.enqueue v p h = Normal h' /\ PQ.size h' = S (PQ.size h)) /\
  (exists h',
      PQ.dequeue h = Normal (PQ.peek h, h') /\
      PQ.size h' = PQ.size h - 1) /\
  (PQ.isEmpty h = true -> PQ.dequeue h = Normal (None, h)) /\
  (exists vs,
      PQ.toSortedArray h = Normal (vs, []) /\ length vs = PQ.size h).
Proof.
  split; [|split; [|split]].
  - intros v p. destruct (enqueue_adds v p h) as (h' & He & Hp & _).
    exists h'. split; [exact He|].
    unfold PQ.size. now rewrite (Permutation_length Hp).
  - apply dequeue_total.
  - destruct h; [reflexivity|discriminate].
  - destruct (drain_total (length h) h [] (Nat.le_refl _)) as (vs & Hd & Hl).
    now exists vs.
Qed.

Lemma queue_operations_never_throw_witness :
  PQ.dequeue (@nil (PQ.HeapNode string)) = Normal (None, []).
Proof.
  apply (proj1 (proj2 (proj2 (queue_operations_never_throw [])))).
  reflexivity.
Defined.

(** X22.  [toSortedArray] on a heap in order empties the queue and
    returns the values of its elements, each once, by priority from the
    lowest to the highest. *)
Theorem toSortedArray_sorts {T} (h : PQ.Heap T) :
  PQ.heap_ordered h ->
  exists nodes,
    PQ.toSortedArray h
    = Normal (map (fun n => Some (PQ.value n)) nodes, []) /\
    Permutation nodes h /\
    PQ.by_priority nodes.
Proof.
  intros Ho.
  destruct (drain_sorts (length h) h [] Ho (Nat.le_refl _))
    as (nodes & Hd & Hp & Hs).
  exists nodes. split; [exact Hd|]. now split.
Qed.

Lemma toSortedArray_sorts_witness :
  exists nodes,
    PQ.toSortedArray QueueScenario.small
    = Normal (map (fun n => Some (PQ.value n)) nodes, []) /\
    Permutation nodes QueueScenario.small /\
    PQ.by_priority nodes.
Proof.
  apply toSortedArray_sorts. exact small_heap_ordered.
Defined.

(** X23.  With integer priorities (no [NaN], which compares false with
    every number and so has no place in the order), a queue filled by
    [enqueue] alone gives its values back by priority: after enqueueing
    the items in any order on a new queue, [toSortedArray] returns each
    of them once, from the lowest priority to the highest. *)
Theorem enqueue_then_drain_sorts {T} (items : list (T * Z)) :
  exists h nodes,
    PQ.enqueue_all items [] = Normal h /\
    PQ.toSortedArray h
    = Normal (map (fun n => Some (PQ.value n)) nodes, []) /\
    Permutation nodes (map (fun vp => PQ.mkNode (snd vp) (fst vp)) items) /\
    PQ.by_priority nodes.
Proof.
  destruct (enqueue_all_adds items [] empty_heap_ordered)
    as (h & Ha & Ho & Hp).
  destruct (drain_sorts (length h) h [] Ho (Nat.le_refl _))
    as (nodes & Hd & Hpn & Hs).
  exists h, nodes. split; [exact Ha|]. split; [exact Hd|].
  split; [|exact Hs].
  eapply perm_trans; [exact Hpn|]. now rewrite app_nil_r in Hp.
Qed.

Example queue_sorts_four :
  exists h,
    PQ.enqueue_all [("d", 4%Z); ("a", 1%Z); ("c", 3%Z); ("b", 2%Z)] []
    = Normal h /\
    PQ.toSortedArray h
    = Normal ([Some "a"; Some "b"; Some "c"; Some "d"], []).
Proof. eexists. split; reflexivity. Qed.

(** ** Dispatch works on a snapshot *)

Section SnapshotFacts.

Variable code : Code.
Variable P E : string.
Variable m0 : JsMap.t (list Value).

Hypothesis nobody_else : unheard E m0.
Hypothesis P_matches : Matcher._matches P E = true.

(** [emit] when the only pattern that matches sits in the last slot. *)
Lemma emit_last_slot call args ls w w' b k :
  listeners w = m0 ++ [Some (P, ls)] ->
  dispatch call E args ls false w = Some (w', b) ->
  length (listeners w') = S (length m0) ->
  emit_with call E args (length m0 + S (S k)) w = Some (w', Normal b).
Proof.
  intros Hw Hd Hlen. unfold emit_with.
  rewrite (emit_loop_skip _ _ _ _ _ _ _ Hw nobody_else (length m0))
    by reflexivity.
  cbn [emit_loop]. rewrite Hw, nth_error_app2, Nat.sub_diag by lia.
  cbn [nth_error]. rewrite P_matches, Hd.
  assert (Hend : nth_error (listeners w') (S (length m0)) = None).
  { apply nth_error_None. lia. }
  cbn [nth_error] in Hend. now rewrite Hend.
Qed.

Variable a b : nat.
Hypothesis a_not_b : a <> b.
Hypothesis a_unregisters_b : forall x, code a x = CallOff P (VFun b) Ret.
Hypothesis b_returns : forall x, code b x = Ret.

Lemma off_b_when_both w :
  listeners w = m0 ++ [Some (P, [VFun a; VFun b])] ->
  off P (VFun b) w = (set_listeners (m0 ++ [Some (P, [VFun a])]) w, Normal tt).
Proof.
  intros Hw.
  pose proof (unheard_get _ _ _ nobody_else P_matches) as Hg.
  assert (Hget : JsMap.get P (listeners w) = Some ([VFun a] ++ VFun b :: [])).
  { rewrite Hw. now apply get_last. }
  rewrite (off_first_referring P (VFun b) w [VFun a] (VFun b) [] eq_refl Hget).
  - simpl. rewrite Hw, set_last by exact Hg. reflexivity.
  - repeat constructor; [discriminate|].
    unfold refers. simpl. apply Nat.eqb_neq in a_not_b. now rewrite a_not_b.
  - apply refers_self.
Qed.

Lemma off_b_when_gone w :
  listeners w = m0 ++ [Some (P, [VFun a])] ->
  off P (VFun b) w = (w, Normal tt).
Proof.
  intros Hw.
  pose proof (unheard_get _ _ _ nobody_else P_matches) as Hg.
  apply off_absent_noop_lemma; [reflexivity|].
  right. exists [VFun a]. split; [rewrite Hw; now apply get_last|].
  split; [discriminate|].
  repeat constructor; [discriminate|].
  unfold refers. simpl. apply Nat.eqb_neq in a_not_b. now rewrite a_not_b.
Qed.

Lemma dispatch_both n args w :
  listeners w = m0 ++ [Some (P, [VFun a; VFun b])] ->
  exists w',
    dispatch (call code (S n)) E args [VFun a; VFun b] false w = Some (w', true) /\
    listeners w' = m0 ++ [Some (P, [VFun a])] /\
    trace w' = trace w ++ [Dispatched E (VFun a); Entered a args;
                           Dispatched E (VFun b); Entered b args].
Proof.
  intros Hw. cbn [dispatch call]. rewrite a_unregisters_b. cbn [run].
  rewrite off_b_when_both by exact Hw.
  rewrite b_returns. cbn [run].
  eexists. split; [reflexivity|]. split; [reflexivity|].
  simpl. now rewrite <- !app_assoc.
Qed.

Lemma dispatch_first_alone n args w :
  listeners w = m0 ++ [Some (P, [VFun a])] ->
  dispatch (call code (S n)) E args [VFun a] false w
  = Some (record (Entered a args) (record (Dispatched E (VFun a)) w), true).
Proof.
  intros Hw. cbn [dispatch call]. rewrite a_unregisters_b. cbn [run].
  now rewrite off_b_when_gone by exact Hw.
Qed.

End SnapshotFacts.

(** X24.  [emit] calls the listeners of a pattern from a copy of its
    list: a listener that an earlier listener of the same pattern
    unregisters during the dispatch is still called in that dispatch,
    and no longer in the next one. *)
Theorem unregistered_during_dispatch_still_called :
  forall code P E a b args args' w0 fuel,
    Matcher._matches P E = true ->
    unheard E (listeners w0) ->
    a <> b ->
    (forall x, code a x = CallOff P (VFun b) Ret) ->
    (forall x, code b x = Ret) ->
    length (listeners w0) + 2 <= fuel ->
    exists w2 w3,
      emit code fuel E args (fst (on P (VFun b) (fst (on P (VFun a) w0))))
      = Some (w2, Normal true) /\
      trace w2 = trace w0 ++ [Dispatched E (VFun a); Entered a args;
                              Dispatched E (VFun b); Entered b args] /\
      listeners_of P w2 = [VFun a] /\
      emit code fuel E args' w2 = Some (w3, Normal true) /\
      trace w3 = trace w2 ++ [Dispatched E (VFun a); Entered a args'].
Proof.
  intros code P E a b args args' w0 fuel Hm Hu Hab Ha Hb Hfuel.
  pose proof (unheard_get _ _ _ Hu Hm) as Hg.
  set (w1 := fst (on P (VFun b) (fst (on P (VFun a) w0)))).
  assert (Hw1 : listeners w1
                = listeners w0 ++ [Some (P, [VFun a; VFun b])]).
  { subst w1. rewrite (on_spec P (VFun b)). cbn [fst listeners set_listeners].
    assert (Hla : listeners (fst (on P (VFun a) w0))
                  = listeners w0 ++ [Some (P, [VFun a])]).
    { rewrite on_spec. cbn [fst listeners set_listeners].
      unfold listeners_of. rewrite Hg. now apply set_absent. }
    assert (Hlo : listeners_of P (fst (on P (VFun a) w0)) = [VFun a]).
    { unfold listeners_of. rewrite Hla, get_last by exact Hg. reflexivity. }
    rewrite Hlo, Hla. now apply set_last. }
  assert (Ht1 : trace w1 = trace w0).
  { subst w1. rewrite (on_spec P (VFun b)). cbn [fst].
    rewrite (on_spec P (VFun a)). cbn [fst].
    repeat (destruct (Nat.leb _ _)); reflexivity. }
  destruct (dispatch_both code P E (listeners w0) Hu Hm a b Hab Ha Hb
                          (fuel - 1) args w1 Hw1)
    as (w2 & Hd & Hw2 & Ht2).
  pose proof (dispatch_first_alone code P E (listeners w0) Hu Hm a b Hab Ha
                                   (fuel - 1) args' w2 Hw2) as Hd2.
  set (w3 := record (Entered a args') (record (Dispatched E (VFun a)) w2)) in Hd2.
  assert (He1 : emit_with (call code (S (fuel - 1))) E args
                  (length (listeners w0)
                   + S (S (fuel - length (listeners w0) - 2))) w1
                = Some (w2, Normal true)).
  { apply (emit_last_slot P E (listeners w0) Hu Hm _ _ _ _ _ _ _ Hw1 Hd).
    rewrite Hw2, length_app. simpl. lia. }
  assert (He2 : emit_with (call code (S (fuel - 1))) E args'
                  (length (listeners w0)
                   + S (S (fuel - length (listeners w0) - 2))) w2
                = Some (w3, Normal true)).
  { apply (emit_last_slot P E (listeners w0) Hu Hm _ _ _ _ _ _ _ Hw2 Hd2).
    subst w3. simpl. rewrite Hw2, length_app. simpl. lia. }
  replace (S (fuel - 1)) with fuel in He1, He2 by lia.
  replace (length (listeners w0) + S (S (fuel - length (listeners w0) - 2)))
    with fuel in He1, He2 by lia.
  exists w2, w3. split; [exact He1|].
  split; [now rewrite Ht2, Ht1|].
  split.
  { unfold listeners_of. rewrite Hw2, get_last by exact Hg. reflexivity. }
  split; [exact He2|].
  subst w3. simpl. now rewrite <- app_assoc.
Qed.

Lemma unregistered_during_dispatch_still_called_witness :
  exists w2 w3,
    emit DispatchScenario.unsubscriber 2 "x" [VData true 1]
         (fst (on "x" (VFun 1) (fst (on "x" (VFun 0) constructor))))
    = Some (w2, Normal true) /\
    trace w2 = trace constructor
               ++ [Dispatched "x" (VFun 0); Entered 0 [VData true 1];
                   Dispatched "x" (VFun 1); Entered 1 [VData true 1]] /\
    listeners_of "x" w2 = [VFun 0] /\
    emit DispatchScenario.unsubscriber 2 "x" [VData true 2] w2
    = Some (w3, Normal true) /\
    trace w3 = trace w2 ++ [Dispatched "x" (VFun 0); Entered 0 [VData true 2]].
Proof.
  apply (unregistered_during_dispatch_still_called
           DispatchScenario.unsubscriber "x" "x" 0 1
           [VData true 1] [VData true 2] constructor 2).
  - reflexivity.
  - intros p ls [].
  - discriminate.
  - reflexivity.
  - reflexivity.
  - simpl. lia.
Defined.
